(** * The Vigenere engine of String-Encryption-Vault (src/vigenereCipher.js)

    A shallow embedding of [encrypt], [decrypt], [calculateTextScore],
    [bruteForce], [getDivisors], [analyze] and [verify], and the properties
    the specification states about them.

    JavaScript strings are sequences of UTF-16 code units, modelled as lists
    of integers; a thrown exception is an explicit [Throw] result. *)

From Stdlib Require Import ZArith List Bool String Ascii Lia Permutation Sorted.
Import ListNotations.
Open Scope Z_scope.

(** ** JavaScript values, strings and exceptions *)

(** A string is the list of its UTF-16 code units (each in 0..65535). *)
Definition jsstring := list Z.

(** The code units of an ASCII literal. *)
Definition str (s : string) : jsstring :=
  map (fun a => Z.of_N (N_of_ascii a)) (list_ascii_of_string s).

(** The values the entry points may be called with; only [typeof] and, for
    strings, the contents are ever inspected. *)
Inductive value :=
| VUndefined
| VNull
| VBoolean (b : bool)
| VNumber (n : Z)
| VString (s : jsstring)
| VObject.

Inductive exn :=
| JsTypeError (message : string)
| JsError (message : string).

Inductive completion (A : Type) :=
| Return (a : A)
| Throw (e : exn).
Arguments Return {A} a.
Arguments Throw {A} e.

(** [typeof v === 'string'] *)
Definition isString (v : value) : bool :=
  match v with VString _ => true | _ => false end.

Definition jsLength {A} (l : list A) : Z := Z.of_nat (List.length l).

(** [s[i]]: the one-unit string at index [i], [undefined] out of range. *)
Definition charAt (s : jsstring) (i : Z) : option Z :=
  if i <? 0 then None else nth_error s (Z.to_nat i).

(** [a % b] on integral numbers: the sign follows the dividend, and the
    result is NaN ([None]) when [b] is zero. *)
Definition jsRem (a b : Z) : option Z :=
  if b =? 0 then None else Some (Z.rem a b).

(** [String.fromCharCode(n)] applies ToUint16. *)
Definition fromCharCode (n : Z) : Z := n mod 65536.

(** [/[A-Z]/.test(char)], [/[a-z]/] and [/[A-Za-z]/.test(char)] on a one-unit
    string. *)
Definition isAsciiUpper (c : Z) : bool := (65 <=? c) && (c <=? 90).
Definition isAsciiLower (c : Z) : bool := (97 <=? c) && (c <=? 122).
Definition isAsciiLetter (c : Z) : bool := isAsciiUpper c || isAsciiLower c.

(** ** Case conversion

    [String.prototype.toUpperCase] decodes the string into code points, maps
    every code point through the Unicode uppercase mapping (one to three code
    points, never none) and encodes the result.  The mapping of the ASCII
    range is written out; the Unicode tables for the other code points are a
    parameter of the model.  The lowercase mapping of a code point may depend
    on the code points around it (Final_Sigma). *)
Record CaseMapping := {
  upperMapping : Z -> Z * list Z;
  lowerMapping : list Z -> Z -> list Z -> Z * list Z
}.

Definition isLeadSurrogate (u : Z) : bool := (0xD800 <=? u) && (u <=? 0xDBFF).
Definition isTrailSurrogate (u : Z) : bool := (0xDC00 <=? u) && (u <=? 0xDFFF).

Fixpoint stringToCodePoints (s : jsstring) : list Z :=
  match s with
  | [] => []
  | u :: rest =>
      match rest with
      | v :: rest' =>
          if isLeadSurrogate u && isTrailSurrogate v
          then ((u - 0xD800) * 0x400 + (v - 0xDC00) + 0x10000) :: stringToCodePoints rest'
          else u :: stringToCodePoints rest
      | [] => [u]
      end
  end.

Definition codePointToUnits (cp : Z) : jsstring :=
  if cp <=? 0xFFFF then [cp]
  else [(cp - 0x10000) / 0x400 + 0xD800; (cp - 0x10000) mod 0x400 + 0xDC00].

Definition codePointsToString (cps : list Z) : jsstring :=
  flat_map codePointToUnits cps.

Definition asciiUpper (c : Z) : Z := if isAsciiLower c then c - 32 else c.
Definition asciiLower (c : Z) : Z := if isAsciiUpper c then c + 32 else c.

(** [a === b] on strings. *)
Fixpoint strictEqual (a b : jsstring) : bool :=
  match a, b with
  | [], [] => true
  | x :: a', y :: b' => (x =? y) && strictEqual a' b'
  | _, _ => false
  end.

(** ** Arrays and Maps *)

(** The sign of the number a comparator returns. *)
Definition signZ (z : Z) : comparison := z ?= 0.

(** [Array.prototype.sort(comparefn)] is stable; for a consistent comparator
    its result is the one ordered, stable rearrangement of the array, which
    insertion from the right computes: an element goes after those that
    compare strictly before it, and in front of its ties that follow it. *)
Fixpoint insertSorted {A} (comparefn : A -> A -> comparison) (x : A)
         (sorted : list A) : list A :=
  match sorted with
  | [] => [x]
  | y :: rest =>
      match comparefn x y with
      | Gt => y :: insertSorted comparefn x rest
      | _ => x :: sorted
      end
  end.

Definition arraySort {A} (comparefn : A -> A -> comparison) (l : list A) : list A :=
  fold_right (insertSorted comparefn) [] l.

(** The integers [lo], [lo + 1], ..., [hi]: the values a counting [for] loop
    takes. *)
Definition range (lo hi : Z) : list Z :=
  map (fun k => lo + Z.of_nat k) (seq 0 (Z.to_nat (hi - lo + 1))).

(** [String.prototype.substring(start, end)]: both arguments are clamped to
    the string and swapped when out of order. *)
Definition substring (s : jsstring) (start finish : Z) : jsstring :=
  let len := jsLength s in
  let intStart := Z.min (Z.max start 0) len in
  let intEnd := Z.min (Z.max finish 0) len in
  let from := Z.min intStart intEnd in
  let to := Z.max intStart intEnd in
  firstn (Z.to_nat (to - from)) (skipn (Z.to_nat from) s).

(** A [Map] keeps its entries in insertion order; [set] on a present key
    replaces the value where the entry stands. *)
Section JSMap.
Context {K V : Type} (sameKey : K -> K -> bool).

Fixpoint mapGet (m : list (K * V)) (k : K) : option V :=
  match m with
  | [] => None
  | (k', v) :: rest => if sameKey k' k then Some v else mapGet rest k
  end.

Fixpoint mapSet (m : list (K * V)) (k : K) (v : V) : list (K * V) :=
  match m with
  | [] => [(k, v)]
  | (k', v') :: rest =>
      if sameKey k' k then (k', v) :: rest else (k', v') :: mapSet rest k v
  end.
End JSMap.

(** ** Numbers

    Scores are IEEE doubles, summed with rounding.  The model takes the
    doubles as a parameter: the literal [decimal m e] is the double nearest
    to m / 10^e, [plus] is the rounded sum and [lessThan] is [<].  [x - y] is
    negative exactly when [x < y]. *)
Record Doubles := {
  number : Type;
  zero : number;
  plus : number -> number -> number;
  decimal : Z -> Z -> number;
  lessThan : number -> number -> bool
}.

Definition signOfDifference (D : Doubles) (x y : number D) : comparison :=
  if lessThan D x y then Lt else if lessThan D y x then Gt else Eq.

(** ** getDivisors (lines 241-252)

    For an integer [i], [i <= Math.sqrt(num)] holds exactly when [i] is at
    most the integer square root of [num]. *)
Definition pushDivisors (num i : Z) : list Z :=
  if Z.rem num i =? 0
  then if negb (i =? num / i) then [i; num / i] else [i]
  else [].

Definition getDivisors (num : Z) : list Z :=
  let divisors := flat_map (pushDivisors num) (range 1 (Z.sqrt num)) in
  arraySort (fun a b => signZ (a - b)) divisors.

(** ** The loops of analyze *)

(** Lines 276-281: the body of the loop that slides the window;
    [get(sequence).push(i)] extends the stored array. *)
Definition recordSequence (cipherUpper : jsstring) (sequenceLength : Z)
           (sequences : list (jsstring * list Z)) (i : Z)
  : list (jsstring * list Z) :=
  let sequence := substring cipherUpper i (i + sequenceLength) in
  match mapGet strictEqual sequences sequence with
  | Some positions => mapSet strictEqual sequences sequence (positions ++ [i])
  | None => mapSet strictEqual sequences sequence [i]
  end.

(** Lines 275-282: the [sequences] map after the window has slid over
    [cipherUpper]. *)
Definition findSequences (cipherUpper : jsstring) (sequenceLength : Z)
  : list (jsstring * list Z) :=
  fold_left (recordSequence cipherUpper sequenceLength)
            (range 0 (jsLength cipherUpper - sequenceLength)) [].

(** Lines 288-290: [positions[i + 1] - positions[i]] for every [i]. *)
Fixpoint gaps (positions : list Z) : list Z :=
  match positions with
  | a :: (b :: _) as rest => (b - a) :: gaps rest
  | _ => []
  end.

(** Lines 285-292. *)
Definition repeatDistances (sequences : list (jsstring * list Z)) : list Z :=
  flat_map
    (fun entry => if jsLength (snd entry) >? 1 then gaps (snd entry) else [])
    sequences.

(** [x || y] for a number [x], which is falsy when it is zero. *)
Definition orElse (x : option Z) (y : Z) : Z :=
  match x with
  | Some v => if v =? 0 then y else v
  | None => y
  end.

(** Line 299: [factors.set(divisor, (factors.get(divisor) || 0) + 1)] *)
Definition countFactor (factors : list (Z * Z)) (divisor : Z) : list (Z * Z) :=
  mapSet Z.eqb factors divisor (orElse (mapGet Z.eqb factors divisor) 0 + 1).

(** Lines 295-301. *)
Definition countFactors (distances : list Z) : list (Z * Z) :=
  fold_left
    (fun factors distance => fold_left countFactor (getDivisors distance) factors)
    distances [].

(** The comparator [(a, b) => b[1] - a[1]] over the entries of [factors]. *)
Definition byCountDescending (a b : Z * Z) : comparison :=
  signZ (snd b - snd a).

(** [keyLengths[0] || null] *)
Definition orNull (x : option Z) : option Z :=
  match x with
  | Some v => if v =? 0 then None else Some v
  | None => None
  end.

Section CaseConversion.
Variable M : CaseMapping.

Definition toUppercaseCP (cp : Z) : list Z :=
  if cp <? 128 then [asciiUpper cp]
  else let (h, t) := upperMapping M cp in h :: t.

Definition toUpperCase (s : jsstring) : jsstring :=
  codePointsToString (flat_map toUppercaseCP (stringToCodePoints s)).

Definition toLowercaseCP (before : list Z) (cp : Z) (after : list Z) : list Z :=
  if cp <? 128 then [asciiLower cp]
  else let (h, t) := lowerMapping M before cp after in h :: t.

Fixpoint lowerCodePoints (before after : list Z) : list Z :=
  match after with
  | [] => []
  | cp :: rest =>
      toLowercaseCP before cp rest ++ lowerCodePoints (before ++ [cp]) rest
  end.

Definition toLowerCase (s : jsstring) : jsstring :=
  codePointsToString (lowerCodePoints [] (stringToCodePoints s)).

(** ** encrypt (vigenereCipher.js, lines 23-62) *)

(** The body of the [for] loop, over the characters still to be read;
    [keyIndex] and [result] are the loop's two mutable variables. *)
Fixpoint encryptLoop (keyUpper plaintext : jsstring) (keyIndex : Z)
         (result : jsstring) : completion jsstring :=
  match plaintext with
  | [] => Return result
  | charCode :: rest =>
      if isAsciiLetter charCode then
        match option_map (charAt keyUpper) (jsRem keyIndex (jsLength keyUpper)) with
        | Some (Some keyChar) =>
            let shift := keyChar - 65 in
            let shifted :=
              if isAsciiUpper charCode
              then Z.rem (charCode - 65 + shift) 26 + 65
              else Z.rem (charCode - 97 + shift) 26 + 97 in
            encryptLoop keyUpper rest (keyIndex + 1)
                        (result ++ [fromCharCode shifted])
        | _ =>
            Throw (JsTypeError "Cannot read properties of undefined (reading 'charCodeAt')")
        end
      else encryptLoop keyUpper rest keyIndex (result ++ [charCode])
  end.

Definition encrypt (plaintext key : value) : completion jsstring :=
  match plaintext with
  | VString p =>
      match key with
      | VString k =>
          if jsLength k =? 0
          then Throw (JsError "Key must be a non-empty string")
          else encryptLoop (toUpperCase k) p 0 []
      | _ => Throw (JsError "Key must be a non-empty string")
      end
  | _ => Throw (JsTypeError "Plaintext must be a string")
  end.

(** ** decrypt (lines 77-116) *)

Fixpoint decryptLoop (keyUpper ciphertext : jsstring) (keyIndex : Z)
         (result : jsstring) : completion jsstring :=
  match ciphertext with
  | [] => Return result
  | charCode :: rest =>
      if isAsciiLetter charCode then
        match option_map (charAt keyUpper) (jsRem keyIndex (jsLength keyUpper)) with
        | Some (Some keyChar) =>
            let shift := keyChar - 65 in
            let shifted :=
              if isAsciiUpper charCode
              then Z.rem (charCode - 65 - shift + 26) 26 + 65
              else Z.rem (charCode - 97 - shift + 26) 26 + 97 in
            decryptLoop keyUpper rest (keyIndex + 1)
                        (result ++ [fromCharCode shifted])
        | _ =>
            Throw (JsTypeError "Cannot read properties of undefined (reading 'charCodeAt')")
        end
      else decryptLoop keyUpper rest keyIndex (result ++ [charCode])
  end.

Definition decrypt (ciphertext key : value) : completion jsstring :=
  match ciphertext with
  | VString c =>
      match key with
      | VString k =>
          if jsLength k =? 0
          then Throw (JsError "Key must be a non-empty string")
          else decryptLoop (toUpperCase k) c 0 []
      | _ => Throw (JsError "Key must be a non-empty string")
      end
  | _ => Throw (JsTypeError "Ciphertext must be a string")
  end.


(** ** verify (lines 331-338) *)

Definition verify (plaintext ciphertext key : value) : completion bool :=
  match plaintext, ciphertext, key with
  | VString p, VString c, VString k =>
      match encrypt (VString p) (VString k) with
      | Return encrypted => Return (strictEqual (toUpperCase encrypted) (toUpperCase c))
      | Throw e => Throw e
      end
  | _, _, _ => Throw (JsTypeError "All parameters must be strings")
  end.

(** ** calculateTextScore and bruteForce (lines 125-232) *)

Section Scoring.
Variable D : Doubles.

(** The [englishFrequency] table, keyed by the uppercase letter. *)
Definition englishFrequency : list (jsstring * number D) :=
  [ (str "E", decimal D 11 0);  (str "T", decimal D 9 0);
    (str "A", decimal D 8 0);   (str "O", decimal D 75 1);
    (str "I", decimal D 7 0);   (str "N", decimal D 67 1);
    (str "S", decimal D 63 1);  (str "H", decimal D 61 1);
    (str "R", decimal D 6 0);   (str "D", decimal D 43 1);
    (str "L", decimal D 4 0);   (str "C", decimal D 28 1);
    (str "U", decimal D 28 1);  (str "M", decimal D 24 1);
    (str "W", decimal D 24 1);  (str "F", decimal D 22 1);
    (str "G", decimal D 2 0);   (str "Y", decimal D 2 0);
    (str "P", decimal D 19 1);  (str "B", decimal D 15 1);
    (str "V", decimal D 98 2);  (str "K", decimal D 77 2);
    (str "J", decimal D 15 2);  (str "X", decimal D 15 2);
    (str "Q", decimal D 1 1);   (str "Z", decimal D 7 2) ].

(** [englishFrequency[char] || 0]: every entry of the table is a non-zero
    literal, so [||] yields 0 only where the property is absent. *)
Definition frequencyOrZero (char : Z) : number D :=
  match mapGet strictEqual englishFrequency [char] with
  | Some weight => weight
  | None => zero D
  end.

Definition calculateTextScore (text : jsstring) : number D :=
  let textUpper := toUpperCase text in
  fold_left
    (fun score char =>
       if isAsciiUpper char then plus D score (frequencyOrZero char) else score)
    textUpper (zero D).

Record BruteForceResult := {
  key : value;
  plaintext : jsstring;
  score : number D
}.

Definition defaultWords : list value :=
  map (fun w => VString (str w))
    [ "PASSWORD"; "SECRET"; "KEY"; "CIPHER"; "ENCRYPT"; "SECURITY";
      "COMPUTER"; "ALGORITHM"; "CRYPTOGRAPHY"; "HASH"; "SYMMETRIC";
      "ASYMMETRIC"; "MESSAGE"; "HELLO"; "WORLD"; "JAVASCRIPT";
      "HACKTOBERFEST"; "CONTRIBUTE"; "GITHUB"; "VAULT"; "CRYPTO" ]%string.

(** The callback of [wordsToTry.forEach]: a word whose decryption throws
    is caught and leaves [results] as it is. *)
Definition tryWord (ciphertext : jsstring) (results : list BruteForceResult)
           (word : value) : list BruteForceResult :=
  match decrypt (VString ciphertext) word with
  | Return text =>
      results ++ [{| key := word; plaintext := text;
                     score := calculateTextScore text |}]
  | Throw _ => results
  end.

(** The comparator [(a, b) => b.score - a.score], by the sign of its
    result. *)
Definition byScoreDescending (a b : BruteForceResult) : comparison :=
  signOfDifference D (score b) (score a).

Definition bruteForce (ciphertext : value) (commonWords : list value)
  : completion (list BruteForceResult) :=
  match ciphertext with
  | VString c =>
      if jsLength c =? 0
      then Throw (JsError "Ciphertext cannot be empty")
      else
        let wordsToTry :=
          if jsLength commonWords >? 0 then commonWords else defaultWords in
        let results := fold_left (tryWord c) wordsToTry [] in
        Return (arraySort byScoreDescending results)
  | _ => Throw (JsError "Ciphertext cannot be empty")
  end.
End Scoring.

(** ** analyze (lines 266-315) *)

Record AnalysisResult := {
  keyLengths : list Z;
  distances : list Z;
  likelyKeyLength : option Z;
  repetitionCount : Z
}.

(** [ciphertext.toUpperCase().replace(/[^A-Z]/g, '')] *)
Definition lettersOnly (ciphertext : jsstring) : jsstring :=
  filter isAsciiUpper (toUpperCase ciphertext).

Definition analyze (ciphertext : value) (sequenceLength : Z)
  : completion AnalysisResult :=
  match ciphertext with
  | VString c =>
      if jsLength c <? sequenceLength
      then Throw (JsError "Ciphertext too short for analysis")
      else
        let cipherUpper := lettersOnly c in
        let sequences := findSequences cipherUpper sequenceLength in
        let distances := repeatDistances sequences in
        let factors := countFactors distances in
        let keyLengths :=
          map fst (firstn 5 (arraySort byCountDescending factors)) in
        Return {| keyLengths := keyLengths;
                  distances := firstn 10 distances;
                  likelyKeyLength := orNull (hd_error keyLengths);
                  repetitionCount := jsLength distances |}
  | _ => Throw (JsError "Ciphertext too short for analysis")
  end.

End CaseConversion.

(** ** Closed forms of the two loops

    What the loops of [encrypt] and [decrypt] compute once the key lookup is
    known to succeed; the theorems below relate them to the loops. *)

(** [keyUpper[keyIndex % keyUpper.length].charCodeAt(0) - 65] *)
Definition keyShift (keyUpper : jsstring) (keyIndex : Z) : Z :=
  nth (Z.to_nat (Z.rem keyIndex (jsLength keyUpper))) keyUpper 0 - 65.

Definition shiftForward (shift charCode : Z) : Z :=
  fromCharCode (if isAsciiUpper charCode
                then Z.rem (charCode - 65 + shift) 26 + 65
                else Z.rem (charCode - 97 + shift) 26 + 97).

Definition shiftBackward (shift charCode : Z) : Z :=
  fromCharCode (if isAsciiUpper charCode
                then Z.rem (charCode - 65 - shift + 26) 26 + 65
                else Z.rem (charCode - 97 - shift + 26) 26 + 97).

Fixpoint encryptText (keyUpper text : jsstring) (keyIndex : Z) : jsstring :=
  match text with
  | [] => []
  | c :: rest =>
      if isAsciiLetter c
      then shiftForward (keyShift keyUpper keyIndex) c :: encryptText keyUpper rest (keyIndex + 1)
      else c :: encryptText keyUpper rest keyIndex
  end.

Fixpoint decryptText (keyUpper text : jsstring) (keyIndex : Z) : jsstring :=
  match text with
  | [] => []
  | c :: rest =>
      if isAsciiLetter c
      then shiftBackward (keyShift keyUpper keyIndex) c :: decryptText keyUpper rest (keyIndex + 1)
      else c :: decryptText keyUpper rest keyIndex
  end.

(** A valid key: a non-empty string of the letters A-Z and a-z. *)
Definition validKey (k : jsstring) : bool :=
  negb (jsLength k =? 0) && forallb isAsciiLetter k.

(** The number of letters A-Z, a-z in a string: how far it moves the key
    cursor. *)
Definition letterCount (s : jsstring) : Z := jsLength (filter isAsciiLetter s).

(** Two characters that are the same, or the same letter A-Z in either case. *)
Definition sameModuloCase (x y : Z) : bool :=
  (x =? y) || (isAsciiLetter x && isAsciiLetter y && (asciiUpper x =? asciiUpper y)).

(** Two strings that differ only in the case of letters A-Z and a-z: every
    other character is the same in both. *)
Fixpoint equalModuloCase (a b : jsstring) : bool :=
  match a, b with
  | [], [] => true
  | x :: a', y :: b' => sameModuloCase x y && equalModuloCase a' b'
  | _, _ => false
  end.

Arguments key {D} _.
Arguments plaintext {D} _.
Arguments score {D} _.

(** A candidate whose decryption does not throw: a non-empty string. *)
Definition usableKey (word : value) : bool :=
  match word with
  | VString k => negb (jsLength k =? 0)
  | _ => false
  end.

(** Two scores whose difference is zero. *)
Definition tied (D : Doubles) (x y : number D) : bool :=
  negb (lessThan D x y) && negb (lessThan D y x).

(** What the scores rely on: [<] on the doubles that occur (no NaN) is
    asymmetric, and [>=] is transitive. *)
Record OrderedDoubles (D : Doubles) : Prop := {
  lessThan_asym : forall x y, lessThan D x y = true -> lessThan D y x = false;
  lessThan_negtrans : forall x y z,
      lessThan D x y = false -> lessThan D y z = false -> lessThan D x z = false
}.

(** Exact decimal arithmetic in hundredths: doubles without rounding. *)
Definition exactHundredths : Doubles := {|
  number := Z;
  zero := 0;
  plus := Z.add;
  decimal m e := m * 10 ^ (2 - e);
  lessThan := Z.ltb
|}.

(** ** The ranking of key lengths, in the words of the specification *)

(** [k] is a positive divisor of [d]. *)
Definition divides (k d : Z) : bool := (1 <=? k) && (d mod k =? 0).

(** The tally of a divisor: the number of repeat distances it divides. *)
Definition divisorTally (distances : list Z) (k : Z) : Z :=
  jsLength (filter (divides k) distances).

(** The distinct elements of a list, each where it first occurs. *)
Fixpoint firstOccurrences (l : list Z) : list Z :=
  match l with
  | [] => []
  | x :: rest => x :: filter (fun y => negb (y =? x)) (firstOccurrences rest)
  end.

Definition occurrences (k : Z) (l : list Z) : Z := jsLength (filter (Z.eqb k) l).

(** A tally kept in the order of first occurrence. *)
Definition tallyOf (l : list Z) : list (Z * Z) :=
  map (fun k => (k, occurrences k l)) (firstOccurrences l).

(** The divisors in the order they enter the tally: by the first distance
    they divide, and in ascending order within one distance. *)
Definition insertionOrder (distances : list Z) : list Z :=
  firstOccurrences (flat_map getDivisors distances).

(** The order C4 states: descending by tally, ties by ascending divisor. *)
Fixpoint rankedByTallyThenValue (tally : Z -> Z) (l : list Z) : bool :=
  match l with
  | a :: (b :: _) as rest =>
      ((tally b <? tally a) || ((tally a =? tally b) && (a <? b)))
      && rankedByTallyThenValue tally rest
  | _ => true
  end.

(** An excerpt of the Unicode tables, the Latin-1 block: U+00DF (sharp s)
    uppercases to "SS", U+00B5 (micro) to U+039C, U+00FF to U+0178, and the
    letters U+00E0..U+00FE are 32 above their capitals U+00C0..U+00DE (the
    multiplication and division signs have no case).  Code points beyond the
    block are left as they are. *)
Definition excerptMapping : CaseMapping := {|
  upperMapping cp :=
    if cp =? 0xDF then (83, [83])
    else if cp =? 0xB5 then (0x39C, [])
    else if cp =? 0xFF then (0x178, [])
    else if (0xE0 <=? cp) && (cp <=? 0xFE) && negb (cp =? 0xF7) then (cp - 32, [])
    else (cp, []);
  lowerMapping _ cp _ :=
    if (0xC0 <=? cp) && (cp <=? 0xDE) && negb (cp =? 0xD7) then (cp + 32, [])
    else (cp, [])
|}.

(** The excerpt with one entry beyond the block: U+1E9E (capital sharp s)
    lowercases to U+00DF and is its own uppercase form, while U+00DF
    uppercases to "SS" as above. *)
Definition excerptWithCapitalSharpS : CaseMapping := {|
  upperMapping cp := upperMapping excerptMapping cp;
  lowerMapping before cp after :=
    if cp =? 0x1E9E then (0xDF, [])
    else lowerMapping excerptMapping before cp after
|}.

(** ** Further notions the statements use *)

(** The comparator of the ranking, on the divisors themselves. *)
Definition byTallyDescending (ds : list Z) (a b : Z) : comparison :=
  signZ (divisorTally ds b - divisorTally ds a).

(** Every stored list of positions is increasing and below the index the
    loop has reached. *)
Definition increasingBelow (bound : Z) (positions : list Z) : Prop :=
  StronglySorted Z.lt positions /\ Forall (fun p => p < bound) positions.

(** A plaintext of 1080 characters: letters of both cases, digits,
    punctuation and spaces. *)
Definition longMixedText : jsstring :=
  List.concat (repeat (str "Mixed Case, 123!  ") 60%nat).

(** ** generateKey (lines 349-362)

    [Math.random()] is a number of [0, 1), so
    [Math.floor(Math.random() * chars.length)] is one of 0..25; the model
    takes the value of that expression at the k-th call as [draw k].  A
    missing argument takes the default 8; numbers are the integral ones. *)

(** [String.prototype.charAt(pos)]: the empty string out of range. *)
Definition stringCharAt (s : jsstring) (pos : Z) : jsstring :=
  match charAt s pos with
  | Some c => [c]
  | None => []
  end.

Definition generateKey (draw : nat -> Z) (length : value) : completion jsstring :=
  let length := match length with VUndefined => VNumber 8 | v => v end in
  match length with
  | VNumber n =>
      if n <? 1
      then Throw (JsError "Key length must be a positive number")
      else
        let chars := str "ABCDEFGHIJKLMNOPQRSTUVWXYZ" in
        Return (fold_left
                  (fun key i => key ++ stringCharAt chars (draw (Z.to_nat i)))
                  (range 0 (n - 1)) [])
  | _ => Throw (JsError "Key length must be a positive number")
  end.

(** ** Notions the further properties use *)

(** The key that undoes [k]: every letter replaced by the letter of the
    complementary shift. *)
Definition inverseKey (k : jsstring) : jsstring :=
  map (fun c => (26 - (asciiUpper c - 65)) mod 26 + 65) k.

(** A character and its image are of one kind: both A-Z, both a-z, or
    neither. *)
Definition sameKind (p c : Z) : Prop :=
  isAsciiUpper c = isAsciiUpper p /\ isAsciiLower c = isAsciiLower p.

(** Two characters that are the same, or two letters A-Z of one case. *)
Definition sameOrSameCase (x y : Z) : Prop :=
  x = y \/
  (isAsciiLetter x = true /\ isAsciiLetter y = true /\ isAsciiUpper x = isAsciiUpper y).

(** The number of positions a [sequences] map holds. *)
Definition positionsCount (sequences : list (jsstring * list Z)) : Z :=
  fold_right (fun entry total => jsLength (snd entry) + total) 0 sequences.

(** The state of the [sequences] map when the window has visited the offsets
    below [k]: every entry holds, in increasing order, offsets below [k] at
    which its key stands; no key occurs twice; every visited window has its
    entry; and each visited offset is stored once. *)
Definition sequencesUpTo (W : jsstring) (n k : Z)
           (sequences : list (jsstring * list Z)) : Prop :=
  Forall (fun entry =>
            snd entry <> [] /\
            StronglySorted Z.lt (snd entry) /\
            Forall (fun p => 0 <= p < k /\ substring W p (p + n) = fst entry)
                   (snd entry)) sequences /\
  NoDup (map fst sequences) /\
  (forall i, 0 <= i < k -> In (substring W i (i + n)) (map fst sequences)) /\
  positionsCount sequences = k.

(** The number of offsets the window of width [n] visits on [W]. *)
Definition windowCount (W : jsstring) (n : Z) : Z :=
  Z.max 0 (jsLength W - n + 1).

(** * Checks on the tests' examples *)

Example encrypt_helloworld :
  encrypt excerptMapping (VString (str "HELLOWORLD")) (VString (str "KEY"))
  = Return (str "RIJVSUYVJN").
Proof. reflexivity. Qed.

Example encrypt_mixed :
  encrypt excerptMapping (VString (str "Hello World")) (VString (str "KEY"))
  = Return (str "Rijvs Uyvjn").
Proof. reflexivity. Qed.

Example decrypt_helloworld :
  decrypt excerptMapping (VString (str "RIJVSUYVJN")) (VString (str "key"))
  = Return (str "HELLOWORLD").
Proof. reflexivity. Qed.

Example encrypt_attack :
  encrypt excerptMapping (VString (str "ATTACK")) (VString (str "LIME"))
  = Return (str "LBFENS").
Proof. reflexivity. Qed.

Example analyze_too_short :
  analyze excerptMapping (VString (str "AB")) 5
  = Throw (JsError "Ciphertext too short for analysis").
Proof. reflexivity. Qed.

Example analyze_repeated_text :
  analyze excerptMapping (VString (str "RIJVSUYVJNRIJVSUYVJN")) 3
  = Return {| keyLengths := [1; 2; 5; 10];
              distances := [10; 10; 10; 10; 10; 10; 10; 10];
              likelyKeyLength := Some 1;
              repetitionCount := 8 |}.
Proof. vm_compute. reflexivity. Qed.

(** * Properties *)

(** ** Case conversion on ASCII text *)

Lemma stringToCodePoints_no_lead (s : jsstring) :
  Forall (fun u => isLeadSurrogate u = false) s -> stringToCodePoints s = s.
Proof.
  induction s as [|u rest IH]; intros H; [reflexivity|].
  inversion H as [|? ? Hu Hrest]; subst.
  cbn [stringToCodePoints]. destruct rest as [|v rest']; [reflexivity|].
  rewrite Hu. cbn [andb]. now rewrite (IH Hrest).
Qed.

Lemma ascii_not_lead (u : Z) : u < 128 -> isLeadSurrogate u = false.
Proof. unfold isLeadSurrogate. lia. Qed.

Lemma codePointsToString_small (cps : list Z) :
  Forall (fun cp => cp < 128) cps -> codePointsToString cps = cps.
Proof.
  induction 1 as [|cp cps Hcp _ IH]; [reflexivity|].
  unfold codePointsToString in *. cbn [flat_map]. rewrite IH.
  unfold codePointToUnits. destruct (Z.leb_spec cp 0xFFFF); [reflexivity | lia].
Qed.

Lemma asciiUpper_small (c : Z) : c < 128 -> asciiUpper c < 128.
Proof. unfold asciiUpper, isAsciiLower. destruct (_ && _); lia. Qed.

Lemma asciiLower_small (c : Z) : c < 128 -> asciiLower c < 128.
Proof. unfold asciiLower, isAsciiUpper. destruct (_ && _) eqn:E; lia. Qed.

Lemma toUpperCase_ascii (M : CaseMapping) (s : jsstring) :
  Forall (fun u => u < 128) s -> toUpperCase M s = map asciiUpper s.
Proof.
  intros H. unfold toUpperCase.
  rewrite stringToCodePoints_no_lead
    by (eapply Forall_impl; [|exact H]; auto using ascii_not_lead).
  assert (E : flat_map (toUppercaseCP M) s = map asciiUpper s).
  { induction H as [|u s Hu _ IH]; [reflexivity|].
    cbn [flat_map map]. rewrite IH. unfold toUppercaseCP.
    destruct (Z.ltb_spec u 128); [reflexivity | lia]. }
  rewrite E. apply codePointsToString_small.
  apply Forall_map. eapply Forall_impl; [|exact H]. auto using asciiUpper_small.
Qed.

Lemma lowerCodePoints_ascii (M : CaseMapping) (s before : list Z) :
  Forall (fun u => u < 128) s -> lowerCodePoints M before s = map asciiLower s.
Proof.
  intros H. revert before.
  induction H as [|u s Hu _ IH]; intros before; [reflexivity|].
  cbn [lowerCodePoints map]. rewrite IH. unfold toLowercaseCP.
  destruct (Z.ltb_spec u 128); [reflexivity | lia].
Qed.

Lemma toLowerCase_ascii (M : CaseMapping) (s : jsstring) :
  Forall (fun u => u < 128) s -> toLowerCase M s = map asciiLower s.
Proof.
  intros H. unfold toLowerCase.
  rewrite stringToCodePoints_no_lead
    by (eapply Forall_impl; [|exact H]; auto using ascii_not_lead).
  rewrite lowerCodePoints_ascii by exact H.
  apply codePointsToString_small.
  apply Forall_map. eapply Forall_impl; [|exact H]. auto using asciiLower_small.
Qed.

Lemma isAsciiLetter_small (c : Z) : isAsciiLetter c = true -> c < 128.
Proof. unfold isAsciiLetter, isAsciiUpper, isAsciiLower. lia. Qed.

Lemma validKey_inv (k : jsstring) :
  validKey k = true ->
  k <> [] /\ Forall (fun c => isAsciiLetter c = true) k.
Proof.
  unfold validKey. intros H. apply andb_true_iff in H as [Hlen Hall]. split.
  - intros ->. discriminate.
  - apply Forall_forall. now apply forallb_forall.
Qed.

Lemma validKey_small (k : jsstring) :
  validKey k = true -> Forall (fun u => u < 128) k.
Proof.
  intros H. apply validKey_inv in H as [_ H].
  eapply Forall_impl; [|exact H]. auto using isAsciiLetter_small.
Qed.

Lemma asciiUpper_letter (c : Z) :
  isAsciiLetter c = true -> isAsciiUpper (asciiUpper c) = true.
Proof. unfold isAsciiLetter, asciiUpper, isAsciiUpper, isAsciiLower.
       destruct ((97 <=? c) && (c <=? 122)) eqn:E; lia. Qed.

(** The uppercased form of a valid key is a non-empty string of A-Z. *)
Lemma toUpperCase_validKey (M : CaseMapping) (k : jsstring) :
  validKey k = true ->
  toUpperCase M k = map asciiUpper k /\
  toUpperCase M k <> [] /\
  Forall (fun c => isAsciiUpper c = true) (toUpperCase M k).
Proof.
  intros H. pose proof (validKey_small k H) as Hs.
  apply validKey_inv in H as [Hne Hall].
  rewrite (toUpperCase_ascii M k Hs). split; [reflexivity|]. split.
  - destruct k; [contradiction | discriminate].
  - apply Forall_map. eapply Forall_impl; [|exact Hall].
    auto using asciiUpper_letter.
Qed.

(** ** The loops and their closed forms *)

Lemma keyChar_lookup (keyUpper : jsstring) (keyIndex : Z) :
  keyUpper <> [] -> 0 <= keyIndex ->
  option_map (charAt keyUpper) (jsRem keyIndex (jsLength keyUpper))
  = Some (Some (keyShift keyUpper keyIndex + 65)).
Proof.
  intros Hne Hi. unfold jsRem, keyShift, charAt, jsLength.
  assert (Hlen : 0 < Z.of_nat (List.length keyUpper))
    by (destruct keyUpper; [contradiction | cbn [List.length]; lia]).
  destruct (Z.eqb_spec (Z.of_nat (List.length keyUpper)) 0); [lia|].
  cbn [option_map].
  pose proof (Z.rem_bound_pos keyIndex _ Hi Hlen) as [Hlo Hhi].
  destruct (Z.ltb_spec (Z.rem keyIndex (Z.of_nat (List.length keyUpper))) 0); [lia|].
  rewrite (nth_error_nth' keyUpper 0) by lia.
  do 2 f_equal. lia.
Qed.

Lemma encryptLoop_closed (keyUpper text : jsstring) :
  keyUpper <> [] ->
  forall keyIndex result, 0 <= keyIndex ->
    encryptLoop keyUpper text keyIndex result
    = Return (result ++ encryptText keyUpper text keyIndex).
Proof.
  intros Hne. induction text as [|c rest IH]; intros keyIndex result Hi.
  - cbn. now rewrite app_nil_r.
  - cbn [encryptLoop encryptText]. destruct (isAsciiLetter c).
    + rewrite keyChar_lookup by assumption.
      replace (keyShift keyUpper keyIndex + 65 - 65)
        with (keyShift keyUpper keyIndex) by lia.
      rewrite IH by lia. unfold shiftForward. now rewrite <- app_assoc.
    + rewrite IH by lia. now rewrite <- app_assoc.
Qed.

Lemma decryptLoop_closed (keyUpper text : jsstring) :
  keyUpper <> [] ->
  forall keyIndex result, 0 <= keyIndex ->
    decryptLoop keyUpper text keyIndex result
    = Return (result ++ decryptText keyUpper text keyIndex).
Proof.
  intros Hne. induction text as [|c rest IH]; intros keyIndex result Hi.
  - cbn. now rewrite app_nil_r.
  - cbn [decryptLoop decryptText]. destruct (isAsciiLetter c).
    + rewrite keyChar_lookup by assumption.
      replace (keyShift keyUpper keyIndex + 65 - 65)
        with (keyShift keyUpper keyIndex) by lia.
      rewrite IH by lia. unfold shiftBackward. now rewrite <- app_assoc.
    + rewrite IH by lia. now rewrite <- app_assoc.
Qed.

(** Under a key of letters A-Z every shift is one of 0..25. *)
Lemma keyShift_bounds (keyUpper : jsstring) (keyIndex : Z) :
  keyUpper <> [] -> 0 <= keyIndex ->
  Forall (fun c => isAsciiUpper c = true) keyUpper ->
  0 <= keyShift keyUpper keyIndex <= 25.
Proof.
  intros Hne Hi Hall. unfold keyShift, jsLength.
  assert (Hlen : 0 < Z.of_nat (List.length keyUpper))
    by (destruct keyUpper; [contradiction | cbn [List.length]; lia]).
  pose proof (Z.rem_bound_pos keyIndex _ Hi Hlen) as [Hlo Hhi].
  rewrite Forall_forall in Hall.
  specialize (Hall (nth (Z.to_nat (Z.rem keyIndex (Z.of_nat (List.length keyUpper)))) keyUpper 0)).
  unfold isAsciiUpper in Hall.
  assert (In (nth (Z.to_nat (Z.rem keyIndex (Z.of_nat (List.length keyUpper)))) keyUpper 0) keyUpper)
    by (apply nth_In; lia).
  specialize (Hall H). lia.
Qed.

Lemma shiftForward_letter (shift c : Z) :
  0 <= shift <= 25 -> isAsciiLetter c = true ->
  isAsciiLetter (shiftForward shift c) = true /\
  isAsciiUpper (shiftForward shift c) = isAsciiUpper c.
Proof.
  intros Hs Hc. unfold shiftForward, fromCharCode.
  unfold isAsciiLetter in Hc.
  destruct (isAsciiUpper c) eqn:Eu.
  - unfold isAsciiUpper in Eu.
    assert (0 <= Z.rem (c - 65 + shift) 26 < 26) by (apply Z.rem_bound_pos; lia).
    rewrite Z.mod_small by lia.
    unfold isAsciiLetter, isAsciiUpper, isAsciiLower. lia.
  - cbn [orb] in Hc. unfold isAsciiLower in Hc.
    assert (0 <= Z.rem (c - 97 + shift) 26 < 26) by (apply Z.rem_bound_pos; lia).
    rewrite Z.mod_small by lia.
    unfold isAsciiLetter, isAsciiUpper, isAsciiLower. lia.
Qed.

Lemma shiftBackward_shiftForward (shift c : Z) :
  0 <= shift <= 25 -> isAsciiLetter c = true ->
  shiftBackward shift (shiftForward shift c) = c.
Proof.
  intros Hs Hc. unfold shiftBackward.
  destruct (shiftForward_letter shift c Hs Hc) as [_ ->].
  unfold shiftForward, fromCharCode. unfold isAsciiLetter in Hc.
  destruct (isAsciiUpper c) eqn:Eu.
  - unfold isAsciiUpper in Eu.
    assert (0 <= Z.rem (c - 65 + shift) 26 < 26) by (apply Z.rem_bound_pos; lia).
    rewrite (Z.mod_small (Z.rem (c - 65 + shift) 26 + 65)) by lia.
    rewrite !Z.rem_mod_nonneg in * by lia.
    rewrite Z.mod_small by (pose proof (Z.mod_pos_bound
      ((c - 65 + shift) mod 26 + 65 - 65 - shift + 26) 26); lia).
    Z.div_mod_to_equations. lia.
  - cbn [orb] in Hc. unfold isAsciiLower in Hc.
    assert (0 <= Z.rem (c - 97 + shift) 26 < 26) by (apply Z.rem_bound_pos; lia).
    rewrite (Z.mod_small (Z.rem (c - 97 + shift) 26 + 97)) by lia.
    rewrite !Z.rem_mod_nonneg in * by lia.
    rewrite Z.mod_small by (pose proof (Z.mod_pos_bound
      ((c - 97 + shift) mod 26 + 97 - 97 - shift + 26) 26); lia).
    Z.div_mod_to_equations. lia.
Qed.

Lemma decryptText_encryptText (keyUpper text : jsstring) :
  keyUpper <> [] ->
  Forall (fun c => isAsciiUpper c = true) keyUpper ->
  forall keyIndex, 0 <= keyIndex ->
    decryptText keyUpper (encryptText keyUpper text keyIndex) keyIndex = text.
Proof.
  intros Hne Hall. induction text as [|c rest IH]; intros keyIndex Hi.
  - reflexivity.
  - cbn [encryptText]. destruct (isAsciiLetter c) eqn:Ec.
    + pose proof (keyShift_bounds keyUpper keyIndex Hne Hi Hall) as Hs.
      cbn [decryptText].
      destruct (shiftForward_letter _ c Hs Ec) as [-> _].
      rewrite shiftBackward_shiftForward by assumption.
      now rewrite IH by lia.
    + cbn [decryptText]. rewrite Ec. now rewrite IH.
Qed.

Lemma encryptText_length (keyUpper text : jsstring) (keyIndex : Z) :
  List.length (encryptText keyUpper text keyIndex) = List.length text.
Proof.
  revert keyIndex. induction text as [|c rest IH]; intros keyIndex; [reflexivity|].
  cbn [encryptText]. destruct (isAsciiLetter c); cbn [List.length]; now rewrite IH.
Qed.

Lemma decryptText_length (keyUpper text : jsstring) (keyIndex : Z) :
  List.length (decryptText keyUpper text keyIndex) = List.length text.
Proof.
  revert keyIndex. induction text as [|c rest IH]; intros keyIndex; [reflexivity|].
  cbn [decryptText]. destruct (isAsciiLetter c); cbn [List.length]; now rewrite IH.
Qed.

Lemma jsLength_nonzero {A} (l : list A) : l <> [] -> (jsLength l =? 0) = false.
Proof.
  destruct l; [contradiction|]. intros _. apply Z.eqb_neq.
  unfold jsLength. cbn [List.length]. lia.
Qed.

(** With a non-empty key the key lookup never fails, whatever the key holds. *)
Lemma encrypt_closed (M : CaseMapping) (P K : jsstring) :
  K <> [] -> toUpperCase M K <> [] ->
  encrypt M (VString P) (VString K) = Return (encryptText (toUpperCase M K) P 0).
Proof.
  intros HK HU. unfold encrypt. rewrite (jsLength_nonzero K HK).
  now rewrite encryptLoop_closed by (assumption || lia).
Qed.

Lemma decrypt_closed (M : CaseMapping) (C K : jsstring) :
  K <> [] -> toUpperCase M K <> [] ->
  decrypt M (VString C) (VString K) = Return (decryptText (toUpperCase M K) C 0).
Proof.
  intros HK HU. unfold decrypt. rewrite (jsLength_nonzero K HK).
  now rewrite decryptLoop_closed by (assumption || lia).
Qed.

(** ** Round trip *)

(** C1: for every string P and every valid key K (a non-empty string of
    letters), encrypt(P, K) returns a ciphertext and decrypt(encrypt(P, K), K)
    returns P itself, whatever P holds (mixed case, digits, punctuation,
    whitespace) and whatever its length. *)
Theorem decrypt_encrypt_roundtrip (M : CaseMapping) (P K : jsstring) :
  validKey K = true ->
  exists C,
    encrypt M (VString P) (VString K) = Return C /\
    decrypt M (VString C) (VString K) = Return P.
Proof.
  intros HK.
  destruct (toUpperCase_validKey M K HK) as (_ & HU & Hall).
  destruct (validKey_inv K HK) as [Hne _].
  exists (encryptText (toUpperCase M K) P 0). split.
  - now apply encrypt_closed.
  - rewrite decrypt_closed by assumption.
    now rewrite decryptText_encryptText by (assumption || lia).
Qed.

Lemma decrypt_encrypt_roundtrip_witness :
  validKey (str "LongKey") = true /\
  exists C,
    encrypt excerptMapping (VString longMixedText) (VString (str "LongKey")) = Return C /\
    decrypt excerptMapping (VString C) (VString (str "LongKey")) = Return longMixedText.
Proof.
  split; [reflexivity|].
  apply (decrypt_encrypt_roundtrip excerptMapping longMixedText (str "LongKey")).
  reflexivity.
Defined.

Example roundtrip_thousand_letters :
  1000 <= jsLength longMixedText /\
  match encrypt excerptMapping (VString longMixedText) (VString (str "LongKey")) with
  | Return C => decrypt excerptMapping (VString C) (VString (str "LongKey"))
  | Throw e => Throw e
  end = Return longMixedText.
Proof. split; vm_compute; [discriminate | reflexivity]. Qed.

(** ** Characters that are not letters *)

Lemma letterCount_cons (c : Z) (s : jsstring) :
  letterCount (c :: s) = if isAsciiLetter c then letterCount s + 1 else letterCount s.
Proof.
  unfold letterCount, jsLength. cbn [filter].
  destruct (isAsciiLetter c); cbn [List.length]; lia.
Qed.

Lemma encryptText_app (keyUpper p1 p2 : jsstring) (keyIndex : Z) :
  encryptText keyUpper (p1 ++ p2) keyIndex
  = encryptText keyUpper p1 keyIndex
    ++ encryptText keyUpper p2 (keyIndex + letterCount p1).
Proof.
  revert keyIndex. induction p1 as [|c p1 IH]; intros keyIndex.
  - cbn. f_equal. unfold letterCount, jsLength. cbn. lia.
  - cbn [app encryptText]. rewrite letterCount_cons.
    destruct (isAsciiLetter c); cbn [app]; rewrite IH; do 3 f_equal; lia.
Qed.

Lemma nth_error_middle {A} (l1 l2 : list A) (x : A) :
  nth_error (l1 ++ x :: l2) (List.length l1) = Some x.
Proof. induction l1; [reflexivity | assumption]. Qed.

(** The character the loop writes at position [i]: the character itself when
    it is not a letter, and otherwise the letter shifted by the key letter
    under the cursor, which has advanced once per letter before [i]. *)
Lemma encryptText_nth (keyUpper P : jsstring) (i : nat) (c : Z) :
  nth_error P i = Some c ->
  nth_error (encryptText keyUpper P 0) i
  = Some (if isAsciiLetter c
          then shiftForward (keyShift keyUpper (letterCount (firstn i P))) c
          else c).
Proof.
  intros Hi. destruct (nth_error_split P i Hi) as (P1 & P2 & -> & <-).
  rewrite encryptText_app. cbn [encryptText].
  rewrite firstn_app, Nat.sub_diag, firstn_all, firstn_O, app_nil_r.
  rewrite <- (encryptText_length keyUpper P1 0) at 1.
  destruct (isAsciiLetter c); apply nth_error_middle.
Qed.

(** C2: under a valid key, a character of P that is not a letter stands
    unchanged at the same position of encrypt(P, K) and does not advance the
    key cursor: a letter at position i is shifted by the key letter whose
    index is the number of letters before i, and taking a non-letter out of P
    takes exactly that character out of the ciphertext.  In particular
    encrypt("HELLO, WORLD!", "KEY") is "RIJVS, UYVJN!". *)
Theorem encrypt_nonletters_unchanged (M : CaseMapping) (P K : jsstring) :
  validKey K = true ->
  exists C,
    encrypt M (VString P) (VString K) = Return C /\
    List.length C = List.length P /\
    (forall i c, nth_error P i = Some c -> isAsciiLetter c = false ->
                 nth_error C i = Some c) /\
    (forall i c, nth_error P i = Some c -> isAsciiLetter c = true ->
                 nth_error C i
                 = Some (shiftForward
                           (keyShift (toUpperCase M K) (letterCount (firstn i P))) c)) /\
    (forall P1 c P2, P = P1 ++ c :: P2 -> isAsciiLetter c = false ->
                     encrypt M (VString (P1 ++ P2)) (VString K)
                     = Return (firstn (List.length P1) C
                               ++ skipn (S (List.length P1)) C)) /\
    encrypt M (VString (str "HELLO, WORLD!")) (VString (str "KEY"))
    = Return (str "RIJVS, UYVJN!").
Proof.
  intros HK.
  destruct (toUpperCase_validKey M K HK) as (_ & HU & _).
  destruct (validKey_inv K HK) as [Hne _].
  exists (encryptText (toUpperCase M K) P 0).
  split; [now apply encrypt_closed|].
  split; [apply encryptText_length|].
  split; [|split; [|split; [|reflexivity]]].
  - intros i c Hi Hc. rewrite (encryptText_nth _ P i c Hi). now rewrite Hc.
  - intros i c Hi Hc. rewrite (encryptText_nth _ P i c Hi). now rewrite Hc.
  - intros P1 c P2 -> Hc. rewrite encrypt_closed by assumption.
    rewrite !encryptText_app. cbn [encryptText]. rewrite Hc.
    rewrite <- (encryptText_length (toUpperCase M K) P1 0).
    rewrite firstn_app, Nat.sub_diag, firstn_all, firstn_O, app_nil_r.
    change (S ?n) with (1 + n)%nat. rewrite <- skipn_skipn.
    rewrite skipn_app, Nat.sub_diag, skipn_all, skipn_O. reflexivity.
Qed.

Lemma encrypt_nonletters_unchanged_witness :
  validKey (str "Key") = true /\
  exists C,
    encrypt excerptMapping (VString (str "Hi, you: 2 of 3!")) (VString (str "Key"))
    = Return C /\
    nth_error C 2 = Some 44 /\
    nth_error C 4
    = Some (shiftForward (keyShift (toUpperCase excerptMapping (str "Key")) 2) 121).
Proof.
  split; [reflexivity|].
  destruct (encrypt_nonletters_unchanged excerptMapping
              (str "Hi, you: 2 of 3!") (str "Key") eq_refl)
    as (C & HC & _ & Hfix & Hshift & _).
  exists C. split; [exact HC|]. split.
  - apply Hfix; reflexivity.
  - apply (Hshift 4%nat 121); reflexivity.
Defined.

(** ** The case of the key *)

Lemma asciiUpper_asciiLower (c : Z) : asciiUpper (asciiLower c) = asciiUpper c.
Proof.
  unfold asciiUpper, asciiLower, isAsciiLower, isAsciiUpper.
  destruct ((65 <=? c) && (c <=? 90)) eqn:E1;
    destruct ((97 <=? c) && (c <=? 122)) eqn:E2;
    try rewrite E2;
    destruct ((97 <=? c + 32) && (c + 32 <=? 122)) eqn:E3; lia.
Qed.

Lemma asciiUpper_idempotent (c : Z) : asciiUpper (asciiUpper c) = asciiUpper c.
Proof.
  unfold asciiUpper, isAsciiLower.
  destruct ((97 <=? c) && (c <=? 122)) eqn:E1; [|now rewrite E1].
  destruct ((97 <=? c - 32) && (c - 32 <=? 122)) eqn:E2; lia.
Qed.

Lemma map_nonempty {A B} (f : A -> B) (l : list A) : l <> [] -> map f l <> [].
Proof. destruct l; [contradiction | discriminate]. Qed.

(** C5: the case of the letters of a valid key never affects the ciphertext:
    encrypt(P, K), encrypt(P, K.toLowerCase()) and encrypt(P, K.toUpperCase())
    return the same string. *)
Theorem encrypt_key_case_irrelevant (M : CaseMapping) (P K : jsstring) :
  validKey K = true ->
  exists C,
    encrypt M (VString P) (VString K) = Return C /\
    encrypt M (VString P) (VString (toLowerCase M K)) = Return C /\
    encrypt M (VString P) (VString (toUpperCase M K)) = Return C.
Proof.
  intros HK.
  pose proof (validKey_small K HK) as Hsmall.
  destruct (toUpperCase_validKey M K HK) as (HU & HUne & _).
  destruct (validKey_inv K HK) as [Hne _].
  assert (Hlow : toUpperCase M (toLowerCase M K) = toUpperCase M K).
  { rewrite (toLowerCase_ascii M K Hsmall), HU.
    rewrite toUpperCase_ascii
      by (apply Forall_map; eapply Forall_impl; [|exact Hsmall];
          auto using asciiLower_small).
    rewrite map_map. apply map_ext. apply asciiUpper_asciiLower. }
  assert (Hup : toUpperCase M (toUpperCase M K) = toUpperCase M K).
  { rewrite HU.
    rewrite toUpperCase_ascii
      by (apply Forall_map; eapply Forall_impl; [|exact Hsmall];
          auto using asciiUpper_small).
    rewrite map_map. apply map_ext. apply asciiUpper_idempotent. }
  exists (encryptText (toUpperCase M K) P 0).
  split; [now apply encrypt_closed|]. split.
  - rewrite encrypt_closed; rewrite ?Hlow; try assumption; [reflexivity|].
    rewrite (toLowerCase_ascii M K Hsmall). now apply map_nonempty.
  - rewrite encrypt_closed; rewrite ?Hup; try assumption; reflexivity.
Qed.

Lemma encrypt_key_case_irrelevant_witness :
  validKey (str "MixedKey") = true /\
  exists C,
    encrypt excerptMapping (VString (str "Attack at Dawn!")) (VString (str "MixedKey"))
    = Return C /\
    encrypt excerptMapping (VString (str "Attack at Dawn!"))
            (VString (toLowerCase excerptMapping (str "MixedKey"))) = Return C /\
    encrypt excerptMapping (VString (str "Attack at Dawn!"))
            (VString (toUpperCase excerptMapping (str "MixedKey"))) = Return C.
Proof.
  split; [reflexivity|].
  apply (encrypt_key_case_irrelevant excerptMapping
           (str "Attack at Dawn!") (str "MixedKey")).
  reflexivity.
Defined.

(** ** Validation of the arguments *)

Lemma stringToCodePoints_nonempty (s : jsstring) :
  s <> [] -> stringToCodePoints s <> [].
Proof.
  destruct s as [|u [|v rest]]; [contradiction | discriminate |].
  intros _. cbn [stringToCodePoints].
  destruct (isLeadSurrogate u && isTrailSurrogate v); discriminate.
Qed.

(** No string but the empty one has an empty uppercase form, whatever the
    Unicode tables hold. *)
Lemma toUpperCase_nonempty (M : CaseMapping) (s : jsstring) :
  s <> [] -> toUpperCase M s <> [].
Proof.
  intros Hs. apply stringToCodePoints_nonempty in Hs. unfold toUpperCase.
  destruct (stringToCodePoints s) as [|cp cps]; [contradiction|].
  cbn [flat_map]. unfold toUppercaseCP at 1.
  destruct (cp <? 128); [|destruct (upperMapping M cp)];
    cbn [app flat_map codePointsToString];
    unfold codePointToUnits at 1;
    match goal with |- context [if ?b then _ else _] => destruct b end;
    discriminate.
Qed.

(** C3, as the code has it: the key is validated only as a non-empty string.
    An empty key is rejected with the validation error; for every string P
    and every non-empty key K, also one that holds characters outside A-Z
    and a-z, encrypt and decrypt return a string of the length of P and do
    not fail. *)
Theorem nonempty_key_accepted (M : CaseMapping) (P K : jsstring) :
  (K = [] ->
   encrypt M (VString P) (VString K) = Throw (JsError "Key must be a non-empty string") /\
   decrypt M (VString P) (VString K) = Throw (JsError "Key must be a non-empty string")) /\
  (K <> [] ->
   (exists C, encrypt M (VString P) (VString K) = Return C /\
              List.length C = List.length P) /\
   (exists T, decrypt M (VString P) (VString K) = Return T /\
              List.length T = List.length P)).
Proof.
  split.
  - intros ->. split; reflexivity.
  - intros HK. pose proof (toUpperCase_nonempty M K HK) as HU. split.
    + exists (encryptText (toUpperCase M K) P 0).
      split; [now apply encrypt_closed | apply encryptText_length].
    + exists (decryptText (toUpperCase M K) P 0).
      split; [now apply decrypt_closed | apply decryptText_length].
Qed.

Lemma nonempty_key_accepted_witness :
  str "K3Y!" <> [] /\
  (exists C, encrypt excerptMapping (VString (str "Hello")) (VString (str "K3Y!")) = Return C /\
             List.length C = List.length (str "Hello")) /\
  (exists T, decrypt excerptMapping (VString (str "Hello")) (VString (str "K3Y!")) = Return T /\
             List.length T = List.length (str "Hello")).
Proof.
  split; [discriminate|].
  destruct (nonempty_key_accepted excerptMapping (str "Hello") (str "K3Y!"))
    as [_ Haccepted].
  apply Haccepted. discriminate.
Defined.

(** C3 as stated fails: the key "1" is not empty and holds a digit, and
    encrypt("A", "1") returns "1" where the claim has a validation error. *)
Lemma encrypt_digit_key_returns :
  str "1" <> [] /\
  existsb (fun c => negb (isAsciiLetter c)) (str "1") = true /\
  encrypt excerptMapping (VString (str "A")) (VString (str "1")) = Return (str "1") /\
  ~ (exists e, encrypt excerptMapping (VString (str "A")) (VString (str "1")) = Throw e).
Proof.
  split; [discriminate|]. split; [reflexivity|]. split; [reflexivity|].
  intros [e He]. discriminate He.
Qed.

(** C6: encrypt(P, K) throws exactly when P is not a string, or K is not a
    string, or K is empty.  The error is a TypeError when P is not a string,
    and the validation error otherwise; so encrypt("HELLO", "") and
    encrypt(123, "KEY") both throw, and a call that throws returns no text. *)
Theorem encrypt_throws_iff (M : CaseMapping) (P K : value) :
  ((exists e, encrypt M P K = Throw e)
   <-> (isString P = false \/ isString K = false \/ K = VString [])) /\
  (isString P = false ->
   encrypt M P K = Throw (JsTypeError "Plaintext must be a string")) /\
  (isString P = true -> isString K = false \/ K = VString [] ->
   encrypt M P K = Throw (JsError "Key must be a non-empty string")) /\
  encrypt M (VString (str "HELLO")) (VString (str ""))
  = Throw (JsError "Key must be a non-empty string") /\
  encrypt M (VNumber 123) (VString (str "KEY"))
  = Throw (JsTypeError "Plaintext must be a string").
Proof.
  split; [|split; [|split; [|split; reflexivity]]].
  - split.
    + intros [e He]. destruct P as [| | | |p|]; cbn; auto.
      destruct K as [| | | |k|]; cbn; auto.
      destruct k as [|u k]; auto.
      rewrite encrypt_closed in He
        by (try apply toUpperCase_nonempty; discriminate).
      discriminate He.
    + intros [HP | [HK | ->]].
      * destruct P; try discriminate HP; eexists; reflexivity.
      * destruct P; try (eexists; reflexivity).
        destruct K; try discriminate HK; eexists; reflexivity.
      * destruct P; eexists; reflexivity.
  - intros HP. destruct P; try discriminate HP; reflexivity.
  - intros HP [HK | ->].
    + destruct P; try discriminate HP. destruct K; try discriminate HK; reflexivity.
    + destruct P; try discriminate HP. reflexivity.
Qed.

Lemma encrypt_throws_iff_witness :
  encrypt excerptMapping (VString (str "HELLO")) VNull
  = Throw (JsError "Key must be a non-empty string") /\
  encrypt excerptMapping VUndefined (VString (str ""))
  = Throw (JsTypeError "Plaintext must be a string").
Proof.
  split.
  - destruct (encrypt_throws_iff excerptMapping (VString (str "HELLO")) VNull)
      as (_ & _ & H & _).
    apply H; [reflexivity | left; reflexivity].
  - destruct (encrypt_throws_iff excerptMapping VUndefined (VString (str "")))
      as (_ & H & _).
    apply H; reflexivity.
Defined.

(** ** verify *)

Lemma strictEqual_refl (a : jsstring) : strictEqual a a = true.
Proof. induction a as [|x a IH]; [reflexivity|]. cbn. now rewrite Z.eqb_refl. Qed.

Lemma sameModuloCase_surrogates (x y : Z) :
  sameModuloCase x y = true ->
  isLeadSurrogate x = isLeadSurrogate y /\
  isTrailSurrogate x = isTrailSurrogate y /\
  (isLeadSurrogate x = true \/ isTrailSurrogate x = true -> x = y).
Proof.
  unfold sameModuloCase. intros H. apply orb_true_iff in H as [H | H].
  - apply Z.eqb_eq in H. subst. auto.
  - apply andb_true_iff in H as [H _]. apply andb_true_iff in H as [Hx Hy].
    apply isAsciiLetter_small in Hx, Hy.
    unfold isLeadSurrogate, isTrailSurrogate. repeat split; lia.
Qed.

Lemma sameModuloCase_upper (M : CaseMapping) (x y : Z) :
  sameModuloCase x y = true -> toUppercaseCP M x = toUppercaseCP M y.
Proof.
  unfold sameModuloCase. intros H. apply orb_true_iff in H as [H | H].
  - apply Z.eqb_eq in H. now subst.
  - apply andb_true_iff in H as [H Hup]. apply andb_true_iff in H as [Hx Hy].
    apply isAsciiLetter_small in Hx, Hy. apply Z.eqb_eq in Hup.
    unfold toUppercaseCP.
    destruct (Z.ltb_spec x 128); [|lia]. destruct (Z.ltb_spec y 128); [|lia].
    now rewrite Hup.
Qed.

Lemma upper_codePoints_modulo_case (M : CaseMapping) (n : nat) :
  forall a b, (List.length a <= n)%nat -> equalModuloCase a b = true ->
    flat_map (toUppercaseCP M) (stringToCodePoints a)
    = flat_map (toUppercaseCP M) (stringToCodePoints b).
Proof.
  induction n as [|n IH]; intros a b Hlen Hab.
  - destruct a; [|cbn in Hlen; lia]. destruct b; [reflexivity | discriminate].
  - destruct a as [|x a]; destruct b as [|y b]; try discriminate; [reflexivity|].
    cbn [equalModuloCase] in Hab. apply andb_true_iff in Hab as [Hxy Hab].
    cbn [List.length] in Hlen.
    destruct a as [|x' a]; destruct b as [|y' b]; try discriminate.
    + cbn [stringToCodePoints flat_map]. now rewrite (sameModuloCase_upper M x y).
    + pose proof Hab as Hab'.
      cbn [equalModuloCase] in Hab'. apply andb_true_iff in Hab' as [Hxy' Hrest].
      destruct (sameModuloCase_surrogates x y Hxy) as (Hl & _ & Hx).
      destruct (sameModuloCase_surrogates x' y' Hxy') as (_ & Ht & Hx').
      cbn [stringToCodePoints List.length] in *. rewrite <- Hl, <- Ht.
      destruct (isLeadSurrogate x) eqn:El; destruct (isTrailSurrogate x') eqn:Et;
        cbn [andb flat_map].
      * rewrite <- (Hx (or_introl eq_refl)), <- (Hx' (or_intror eq_refl)).
        f_equal. apply IH; [lia | assumption].
      * rewrite (sameModuloCase_upper M x y Hxy). f_equal.
        apply (IH (x' :: a) (y' :: b)); [cbn; lia | assumption].
      * rewrite (sameModuloCase_upper M x y Hxy). f_equal.
        apply (IH (x' :: a) (y' :: b)); [cbn; lia | assumption].
      * rewrite (sameModuloCase_upper M x y Hxy). f_equal.
        apply (IH (x' :: a) (y' :: b)); [cbn; lia | assumption].
Qed.

(** Strings that differ only in the case of letters A-Z and a-z have one
    uppercase form. *)
Lemma toUpperCase_modulo_case (M : CaseMapping) (a b : jsstring) :
  equalModuloCase a b = true -> toUpperCase M a = toUpperCase M b.
Proof.
  intros H. unfold toUpperCase.
  now rewrite (upper_codePoints_modulo_case M (List.length a) a b (le_n _) H).
Qed.




(** ** Array.prototype.sort *)

Section ArraySort.
Context {A : Type} (comparefn : A -> A -> comparison).

Lemma insertSorted_perm (x : A) (l : list A) :
  Permutation (insertSorted comparefn x l) (x :: l).
Proof.
  induction l as [|y l IH]; [reflexivity|].
  cbn [insertSorted]. destruct (comparefn x y); try reflexivity.
  rewrite IH. apply perm_swap.
Qed.

Lemma arraySort_perm (l : list A) : Permutation (arraySort comparefn l) l.
Proof.
  induction l as [|x l IH]; [reflexivity|].
  cbn [arraySort fold_right]. fold (arraySort comparefn l).
  rewrite insertSorted_perm. now constructor.
Qed.

(** An element that need not go after any of the others stays in front. *)
Lemma arraySort_head (x : A) (l : list A) :
  (forall y, In y l -> comparefn x y <> Gt) ->
  arraySort comparefn (x :: l) = x :: arraySort comparefn l.
Proof.
  intros H. cbn [arraySort fold_right]. fold (arraySort comparefn l).
  pose proof (arraySort_perm l) as Hp.
  destruct (arraySort comparefn l) as [|y rest]; [reflexivity|].
  cbn [insertSorted].
  assert (Hy : In y l) by (eapply Permutation_in; [exact Hp | now left]).
  specialize (H y Hy). destruct (comparefn x y); congruence.
Qed.

(** Elements that the comparator orders strictly are never both in a
    class [p]; the elements of such a class keep their order. *)
Lemma insertSorted_filter (p : A -> bool) (x : A) (l : list A) :
  (forall y, comparefn x y = Gt -> p x = true -> p y = false) ->
  filter p (insertSorted comparefn x l) = filter p (x :: l).
Proof.
  intros H. induction l as [|y l IH]; [reflexivity|].
  cbn [insertSorted]. destruct (comparefn x y) eqn:E; try reflexivity.
  pose proof (H y E) as Hy. cbn [filter] in *. rewrite IH.
  destruct (p x); [|reflexivity].
  now rewrite (Hy eq_refl).
Qed.

Lemma arraySort_stable (p : A -> bool) (l : list A) :
  (forall x y, comparefn x y = Gt -> p x = true -> p y = false) ->
  filter p (arraySort comparefn l) = filter p l.
Proof.
  intros H. induction l as [|x l IH]; [reflexivity|].
  cbn [arraySort fold_right]. fold (arraySort comparefn l).
  rewrite insertSorted_filter by (intros y; apply H).
  cbn [filter]. now rewrite IH.
Qed.

Section Ordered.
Hypothesis asym : forall x y, comparefn x y = Gt -> comparefn y x <> Gt.
Hypothesis negtrans : forall x y z,
    comparefn x y <> Gt -> comparefn y z <> Gt -> comparefn x z <> Gt.

Lemma insertSorted_sorted (x : A) (l : list A) :
  StronglySorted (fun a b => comparefn a b <> Gt) l ->
  StronglySorted (fun a b => comparefn a b <> Gt) (insertSorted comparefn x l).
Proof.
  induction 1 as [|y l Hl IH Hy]; [repeat constructor|].
  cbn [insertSorted]. destruct (comparefn x y) eqn:E.
  - constructor; [now constructor|]. constructor; [congruence|].
    eapply Forall_impl; [|exact Hy]. intros z Hz. apply (negtrans x y z); congruence.
  - constructor; [now constructor|]. constructor; [congruence|].
    eapply Forall_impl; [|exact Hy]. intros z Hz. apply (negtrans x y z); congruence.
  - constructor; [exact IH|].
    eapply Permutation_Forall; [symmetry; apply insertSorted_perm|].
    constructor; [now apply asym | exact Hy].
Qed.

Lemma arraySort_sorted (l : list A) :
  StronglySorted (fun a b => comparefn a b <> Gt) (arraySort comparefn l).
Proof.
  induction l as [|x l IH]; [constructor|].
  cbn [arraySort fold_right]. now apply insertSorted_sorted.
Qed.
End Ordered.
End ArraySort.

Lemma StronglySorted_weaken {A} (R R' : A -> A -> Prop) (l : list A) :
  (forall a b, R a b -> R' a b) -> StronglySorted R l -> StronglySorted R' l.
Proof.
  intros H. induction 1 as [|x l Hl IH Hx]; constructor; [exact IH|].
  eapply Forall_impl; [|exact Hx]. auto.
Qed.

(** ** bruteForce *)

Lemma byScoreDescending_Gt (D : Doubles) (a b : BruteForceResult D) :
  OrderedDoubles D ->
  (byScoreDescending D a b = Gt <-> lessThan D (score a) (score b) = true).
Proof.
  intros [Hasym _]. unfold byScoreDescending, signOfDifference.
  destruct (lessThan D (score b) (score a)) eqn:Eba;
    destruct (lessThan D (score a) (score b)) eqn:Eab;
    split; try discriminate; try reflexivity.
  rewrite (Hasym _ _ Eba) in Eab. discriminate.
Qed.

Lemma byScoreDescending_not_Gt (D : Doubles) (a b : BruteForceResult D) :
  OrderedDoubles D ->
  (byScoreDescending D a b <> Gt <-> lessThan D (score a) (score b) = false).
Proof.
  intros HD. rewrite (byScoreDescending_Gt D a b HD).
  destruct (lessThan D (score a) (score b)); split; congruence.
Qed.

(** The records [forEach] collects when every candidate is a non-empty
    string: one per candidate, in the order of the candidates. *)
Lemma tryWord_all_usable (M : CaseMapping) (D : Doubles) (c : jsstring)
      (words : list value) :
  forallb usableKey words = true ->
  forall results,
  exists tried,
    fold_left (tryWord M D c) words results = results ++ tried /\
    Forall2 (fun w r => key r = w /\
                        decrypt M (VString c) w = Return (plaintext r) /\
                        score r = calculateTextScore M D (plaintext r))
            words tried.
Proof.
  induction words as [|w words IH]; intros Hall results.
  - exists []. split; [now rewrite app_nil_r | constructor].
  - cbn [forallb] in Hall. apply andb_true_iff in Hall as [Hw Hall].
    destruct w as [| | | |k|]; try discriminate Hw.
    cbn [usableKey] in Hw.
    assert (Hk : k <> []) by (intros ->; discriminate Hw).
    pose proof (decrypt_closed M c k Hk (toUpperCase_nonempty M k Hk)) as Hdec.
    cbn [fold_left]. unfold tryWord at 2. rewrite Hdec.
    destruct (IH Hall (results ++
      [{| key := VString k;
          plaintext := decryptText (toUpperCase M k) c 0;
          score := calculateTextScore M D (decryptText (toUpperCase M k) c 0) |}]))
      as (tried & Hfold & Htried).
    eexists (_ :: tried). split.
    + rewrite Hfold. now rewrite <- app_assoc.
    + constructor; [|exact Htried]. cbn. auto.
Qed.

(** C7: on a non-empty ciphertext and candidates that are non-empty strings,
    bruteForce returns one record {key, plaintext, score} per candidate (the
    given words, or the built-in ones when none is given), the plaintext
    being the decryption under that key and the score its frequency score;
    the records are in descending order of score, and records of equal score
    keep the order of their candidates.  In particular
    bruteForce(encrypt("HELLOWORLD", "KEY"), ["KEY"]) is a single record with
    key "KEY" and plaintext "HELLOWORLD". *)
Theorem bruteForce_sorted_stable (M : CaseMapping) (D : Doubles)
        (c : jsstring) (words : list value) :
  OrderedDoubles D ->
  c <> [] ->
  let wordsToTry := if jsLength words >? 0 then words else defaultWords in
  forallb usableKey wordsToTry = true ->
  (exists results tried,
    bruteForce M D (VString c) words = Return results /\
    Forall2 (fun w r => key r = w /\
                        decrypt M (VString c) w = Return (plaintext r) /\
                        score r = calculateTextScore M D (plaintext r))
            wordsToTry tried /\
    Permutation results tried /\
    StronglySorted (fun a b => lessThan D (score a) (score b) = false) results /\
    (forall s, filter (fun r => tied D (score r) s) results
               = filter (fun r => tied D (score r) s) tried)) /\
  encrypt M (VString (str "HELLOWORLD")) (VString (str "KEY"))
  = Return (str "RIJVSUYVJN") /\
  bruteForce M D (VString (str "RIJVSUYVJN")) [VString (str "KEY")]
  = Return [{| key := VString (str "KEY");
               plaintext := str "HELLOWORLD";
               score := calculateTextScore M D (str "HELLOWORLD") |}].
Proof.
  intros HD Hc wordsToTry Hall. split; [|split; reflexivity].
  destruct (tryWord_all_usable M D c wordsToTry Hall []) as (tried & Hfold & Htried).
  cbn [app] in Hfold.
  exists (arraySort (byScoreDescending D) tried), tried.
  split; [|split; [exact Htried|split; [apply arraySort_perm|split]]].
  - unfold bruteForce. rewrite (jsLength_nonzero c Hc).
    fold wordsToTry. now rewrite Hfold.
  - eapply StronglySorted_weaken;
      [|apply (arraySort_sorted (byScoreDescending D))].
    + intros a b H. now apply (byScoreDescending_not_Gt D a b HD).
    + intros x y H. apply (byScoreDescending_not_Gt D y x HD).
      apply (byScoreDescending_Gt D x y HD) in H.
      now apply (lessThan_asym D HD).
    + intros x y z Hxy Hyz.
      apply (byScoreDescending_not_Gt D x z HD).
      apply (byScoreDescending_not_Gt D x y HD) in Hxy.
      apply (byScoreDescending_not_Gt D y z HD) in Hyz.
      now apply (lessThan_negtrans D HD _ (score y)).
  - intros s. apply arraySort_stable. intros x y Hxy Hx.
    apply (byScoreDescending_Gt D x y HD) in Hxy.
    unfold tied in *. apply andb_true_iff in Hx as [Hxs Hsx].
    apply negb_true_iff in Hxs, Hsx.
    destruct (lessThan D (score y) s) eqn:Eys; [reflexivity|].
    destruct (lessThan D s (score y)) eqn:Esy; [reflexivity|]. exfalso.
    rewrite (lessThan_negtrans D HD _ s _ Hxs Esy) in Hxy. discriminate.
Qed.

Lemma exactHundredths_ordered : OrderedDoubles exactHundredths.
Proof. split; cbn; intros; lia. Qed.

Lemma bruteForce_sorted_stable_witness :
  OrderedDoubles exactHundredths /\
  str "RIJVSUYVJN" <> [] /\
  forallb usableKey [VString (str "PASSWORD"); VString (str "KEY"); VString (str "SECRET")]
  = true /\
  exists results,
    bruteForce excerptMapping exactHundredths (VString (str "RIJVSUYVJN"))
               [VString (str "PASSWORD"); VString (str "KEY"); VString (str "SECRET")]
    = Return results /\
    StronglySorted (fun a b => lessThan exactHundredths (score a) (score b) = false)
                   results.
Proof.
  split; [exact exactHundredths_ordered|].
  split; [discriminate|]. split; [reflexivity|].
  destruct (bruteForce_sorted_stable excerptMapping exactHundredths
              (str "RIJVSUYVJN")
              [VString (str "PASSWORD"); VString (str "KEY"); VString (str "SECRET")]
              exactHundredths_ordered ltac:(discriminate) eq_refl)
    as [(results & tried & Hrun & _ & _ & Hsorted & _) _].
  exists results. split; assumption.
Defined.

(** ** The Maps of analyze *)

Section MapFacts.
Context {K V : Type} (sameKey : K -> K -> bool).

Lemma mapGet_In (m : list (K * V)) (k : K) (v : V) :
  mapGet sameKey m k = Some v -> exists k', In (k', v) m.
Proof.
  induction m as [|[k' v'] m IH]; [discriminate|]. cbn [mapGet].
  destruct (sameKey k' k).
  - intros [= ->]. exists k'. now left.
  - intros H. destruct (IH H) as [k'' Hin]. exists k''. now right.
Qed.

Lemma mapSet_Forall (Q : V -> Prop) (m : list (K * V)) (k : K) (v : V) :
  Forall (fun e => Q (snd e)) m -> Q v ->
  Forall (fun e => Q (snd e)) (mapSet sameKey m k v).
Proof.
  intros Hm Hv. induction Hm as [|[k' v'] m He Hm IH]; cbn [mapSet].
  - repeat constructor. exact Hv.
  - destruct (sameKey k' k); constructor; auto.
Qed.
End MapFacts.

(** ** Repeat distances are positive *)

Lemma range_empty (lo hi : Z) : hi < lo -> range lo hi = [].
Proof. intros H. unfold range. now replace (Z.to_nat (hi - lo + 1)) with 0%nat by lia. Qed.

Lemma range_snoc (lo : Z) (n : nat) :
  range lo (lo + Z.of_nat n) = range lo (lo + Z.of_nat n - 1) ++ [lo + Z.of_nat n].
Proof.
  unfold range.
  replace (Z.to_nat (lo + Z.of_nat n - lo + 1)) with (S n) by lia.
  replace (Z.to_nat (lo + Z.of_nat n - 1 - lo + 1)) with n by lia.
  now rewrite seq_S, map_app.
Qed.

Lemma increasingBelow_push (i : Z) (positions : list Z) :
  increasingBelow i positions -> increasingBelow (i + 1) (positions ++ [i]).
Proof.
  intros [Hs Hb]. split.
  - induction Hs as [|p l Hl IH Hp]; [repeat constructor|].
    inversion Hb; subst. cbn. constructor; [now apply IH|].
    apply Forall_app. split; [exact Hp | repeat constructor; assumption].
  - apply Forall_app. split.
    + eapply Forall_impl; [|exact Hb]. cbn. lia.
    + repeat constructor. lia.
Qed.

Lemma recordSequence_increasing (W : jsstring) (n i : Z)
      (sequences : list (jsstring * list Z)) :
  Forall (fun e => increasingBelow i (snd e)) sequences ->
  Forall (fun e => increasingBelow (i + 1) (snd e)) (recordSequence W n sequences i).
Proof.
  intros H. unfold recordSequence.
  assert (H' : Forall (fun e => increasingBelow (i + 1) (snd e)) sequences).
  { eapply Forall_impl; [|exact H]. intros e [Hs Hb]. split; [exact Hs|].
    eapply Forall_impl; [|exact Hb]. cbn. lia. }
  destruct (mapGet strictEqual sequences _) as [positions|] eqn:E.
  - apply (mapSet_Forall strictEqual (increasingBelow (i + 1))); [exact H'|].
    apply increasingBelow_push.
    destruct (mapGet_In _ _ _ _ E) as [k' Hin].
    rewrite Forall_forall in H. exact (H _ Hin).
  - apply (mapSet_Forall strictEqual (increasingBelow (i + 1))); [exact H'|].
    split; repeat constructor. lia.
Qed.

Lemma findSequences_increasing (W : jsstring) (n : Z) :
  Forall (fun e => StronglySorted Z.lt (snd e)) (findSequences W n).
Proof.
  unfold findSequences.
  destruct (Z.ltb_spec (jsLength W - n) 0) as [Hneg | Hpos].
  - rewrite range_empty by lia. constructor.
  - assert (H : forall k : nat,
      Forall (fun e => increasingBelow (Z.of_nat k) (snd e))
             (fold_left (recordSequence W n) (range 0 (Z.of_nat k - 1)) [])).
    { induction k as [|k IH].
      - rewrite range_empty by lia. constructor.
      - replace (Z.of_nat (S k) - 1) with (0 + Z.of_nat k) by lia.
        rewrite range_snoc, fold_left_app. cbn [fold_left].
        replace (Z.of_nat (S k)) with (0 + Z.of_nat k + 1) by lia.
        apply recordSequence_increasing.
        replace (0 + Z.of_nat k - 1) with (Z.of_nat k - 1) by lia.
        exact IH. }
    specialize (H (Z.to_nat (jsLength W - n + 1))).
    replace (Z.of_nat (Z.to_nat (jsLength W - n + 1)) - 1)
      with (jsLength W - n) in H by lia.
    eapply Forall_impl; [|exact H]. now intros e [Hs _].
Qed.

Lemma gaps_positive (positions : list Z) :
  StronglySorted Z.lt positions -> Forall (fun d => 1 <= d) (gaps positions).
Proof.
  induction 1 as [|a l Hl IH Ha]; [constructor|].
  destruct l as [|b l]; [constructor|]. cbn [gaps].
  constructor; [|exact IH]. inversion Ha; subst. lia.
Qed.

(** The distances between repetitions are positive integers. *)
Lemma repeatDistances_positive (W : jsstring) (n : Z) :
  Forall (fun d => 1 <= d) (repeatDistances (findSequences W n)).
Proof.
  unfold repeatDistances.
  pose proof (findSequences_increasing W n) as H.
  induction H as [|e l He _ IH]; [constructor|].
  cbn [flat_map]. apply Forall_app. split; [|exact IH].
  destruct (jsLength (snd e) >? 1); [now apply gaps_positive | constructor].
Qed.

(** ** getDivisors *)

Lemma In_range (lo hi i : Z) : In i (range lo hi) <-> lo <= i <= hi.
Proof.
  unfold range. rewrite in_map_iff. split.
  - intros (k & <- & Hk). apply in_seq in Hk. lia.
  - intros H. exists (Z.to_nat (i - lo)). split; [lia|]. apply in_seq. lia.
Qed.

Lemma NoDup_map_inj {A B} (f : A -> B) (l : list A) :
  (forall a b, f a = f b -> a = b) -> NoDup l -> NoDup (map f l).
Proof.
  intros Hinj. induction 1 as [|a l Ha Hl IH]; cbn; constructor; [|exact IH].
  intros Hin. apply in_map_iff in Hin as (b & Hb & Hin).
  apply Hinj in Hb. now subst.
Qed.

Lemma NoDup_range (lo hi : Z) : NoDup (range lo hi).
Proof.
  unfold range. apply NoDup_map_inj; [|apply seq_NoDup].
  intros a b H. lia.
Qed.

Lemma NoDup_flat_map_disjoint {A B} (f : A -> list B) (l : list A) :
  NoDup l ->
  (forall a, In a l -> NoDup (f a)) ->
  (forall a b x, In a l -> In b l -> In x (f a) -> In x (f b) -> a = b) ->
  NoDup (flat_map f l).
Proof.
  induction 1 as [|a l Ha Hl IH]; intros Hf Hdis; [constructor|].
  cbn [flat_map]. apply NoDup_app.
  - apply Hf. now left.
  - apply IH; [intros; apply Hf; now right|].
    intros b c x Hb Hc. apply Hdis; now right.
  - intros x Hx Hx'. apply in_flat_map in Hx' as (b & Hb & Hxb).
    assert (a = b) by (apply (Hdis a b x); auto; [now left | now right]).
    subst. contradiction.
Qed.

Lemma pushDivisors_In (d i k : Z) :
  1 <= d -> 1 <= i ->
  In k (pushDivisors d i) <->
  d = i * (d / i) /\ (k = i \/ k = d / i).
Proof.
  intros Hd Hi. unfold pushDivisors.
  rewrite Z.rem_mod_nonneg by lia.
  pose proof (Z.div_mod d i ltac:(lia)) as Hdm.
  pose proof (Z.mod_pos_bound d i ltac:(lia)) as Hb.
  destruct (Z.eqb_spec (d mod i) 0) as [E | E].
  - destruct (Z.eqb_spec i (d / i)) as [E' | E']; cbn [negb In]; split.
    + intros [<- | []]. split; [lia | now left].
    + intros [_ [-> | ->]]; [now left | left; lia].
    + intros [<- | [<- | []]]; (split; [lia | auto]).
    + intros [_ [-> | ->]]; auto.
  - split; [intros [] | intros [H _]; lia].
Qed.

Lemma getDivisors_raw_In (d k : Z) :
  1 <= d ->
  In k (flat_map (pushDivisors d) (range 1 (Z.sqrt d))) <-> divides k d = true.
Proof.
  intros Hd. pose proof (Z.sqrt_spec d ltac:(lia)) as Hs.
  assert (Hs0 : 0 <= Z.sqrt d) by apply Z.sqrt_nonneg.
  unfold divides. rewrite in_flat_map, andb_true_iff, Z.leb_le, Z.eqb_eq. split.
  - intros (i & Hi & Hk). apply In_range in Hi.
    apply pushDivisors_In in Hk as [Hdi [-> | ->]]; try lia.
    + split; [lia|]. rewrite Hdi at 1. rewrite Z.mul_comm. apply Z.mod_mul; lia.
    + assert (1 <= d / i) by nia.
      split; [lia|]. rewrite Hdi at 1. apply Z.mod_mul; lia.
  - intros [Hk Hmod].
    pose proof (Z.div_mod d k ltac:(lia)) as Hdk. rewrite Hmod, Z.add_0_r in Hdk.
    assert (Hq : 1 <= d / k) by nia.
    destruct (Z_le_gt_dec k (Z.sqrt d)) as [Hle | Hgt].
    + exists k. split; [apply In_range; lia|].
      apply pushDivisors_In; lia.
    + assert (Hqs : d / k <= Z.sqrt d).
      { destruct (Z_le_gt_dec (d / k) (Z.sqrt d)) as [|Hq']; [assumption|].
        exfalso. cbv zeta in Hs. unfold Z.succ in Hs.
        assert ((Z.sqrt d + 1) * (Z.sqrt d + 1) <= k * (d / k))
          by (apply Z.mul_le_mono_nonneg; lia).
        lia. }
      exists (d / k). split; [apply In_range; lia|].
      assert (E : d / (d / k) = k).
      { symmetry. apply (Z.div_unique_exact d (d / k) k); lia. }
      apply pushDivisors_In; lia.
Qed.

Lemma small_factors_equal (i j s d : Z) :
  1 <= i <= s -> 1 <= j <= s -> s * s <= d -> d = i * j -> i = j.
Proof.
  intros Hi Hj Hs Hd.
  assert (H1 : i * j <= s * j) by (apply Z.mul_le_mono_nonneg_r; lia).
  assert (H2 : s * j <= s * s) by (apply Z.mul_le_mono_nonneg_l; lia).
  assert (E1 : s * j = s * s) by lia.
  assert (E2 : i * j = s * j) by lia.
  apply Z.mul_cancel_l in E1; [|lia]. apply Z.mul_cancel_r in E2; lia.
Qed.

Lemma same_cofactor_equal (i j q d : Z) :
  1 <= q -> d = i * q -> d = j * q -> i = j.
Proof.
  intros Hq Hi Hj. assert (E : i * q = j * q) by lia.
  apply Z.mul_cancel_r in E; lia.
Qed.

Lemma getDivisors_raw_NoDup (d : Z) :
  1 <= d -> NoDup (flat_map (pushDivisors d) (range 1 (Z.sqrt d))).
Proof.
  intros Hd. pose proof (Z.sqrt_spec d ltac:(lia)) as Hs.
  apply NoDup_flat_map_disjoint; [apply NoDup_range | |].
  - intros i Hi. unfold pushDivisors.
    destruct (Z.rem d i =? 0); [|constructor].
    destruct (Z.eqb_spec i (d / i)); cbn [negb]; repeat constructor; cbn; intuition.
  - intros i j x Hi Hj Hxi Hxj. apply In_range in Hi, Hj.
    apply pushDivisors_In in Hxi as [Hdi Hxi]; try lia.
    apply pushDivisors_In in Hxj as [Hdj Hxj]; try lia.
    cbv zeta in Hs.
    destruct Hxi as [-> | ->]; destruct Hxj as [Hx | Hx].
    + exact Hx.
    + apply (small_factors_equal i j (Z.sqrt d) d); lia.
    + symmetry. apply (small_factors_equal j i (Z.sqrt d) d); lia.
    + assert (1 <= d / i) by nia.
      apply (same_cofactor_equal i j (d / i) d); lia.
Qed.

Lemma ascending_comparator_asym (x y : Z) :
  signZ (x - y) = Gt -> signZ (y - x) <> Gt.
Proof. unfold signZ. rewrite !Z.compare_gt_iff. lia. Qed.

Lemma ascending_comparator_negtrans (x y z : Z) :
  signZ (x - y) <> Gt -> signZ (y - z) <> Gt -> signZ (x - z) <> Gt.
Proof. unfold signZ. rewrite !Z.compare_gt_iff. lia. Qed.

Lemma getDivisors_perm (d : Z) :
  Permutation (getDivisors d) (flat_map (pushDivisors d) (range 1 (Z.sqrt d))).
Proof. apply arraySort_perm. Qed.

(** For a positive [d], [getDivisors d] holds the positive divisors of [d],
    each once, in ascending order. *)
Lemma getDivisors_In (d k : Z) :
  1 <= d -> In k (getDivisors d) <-> divides k d = true.
Proof.
  intros Hd. rewrite <- (getDivisors_raw_In d k Hd). split; apply Permutation_in.
  - apply getDivisors_perm.
  - symmetry. apply getDivisors_perm.
Qed.

Lemma getDivisors_NoDup (d : Z) : 1 <= d -> NoDup (getDivisors d).
Proof.
  intros Hd. eapply Permutation_NoDup; [symmetry; apply getDivisors_perm|].
  now apply getDivisors_raw_NoDup.
Qed.

Lemma getDivisors_ascending (d : Z) : StronglySorted Z.le (getDivisors d).
Proof.
  eapply StronglySorted_weaken;
    [|apply (arraySort_sorted (fun a b => signZ (a - b)));
      [apply ascending_comparator_asym | apply ascending_comparator_negtrans]].
  intros a b. unfold signZ. rewrite Z.compare_gt_iff. lia.
Qed.

Lemma getDivisors_strictly_ascending (d : Z) :
  1 <= d -> StronglySorted Z.lt (getDivisors d).
Proof.
  intros Hd. pose proof (getDivisors_NoDup d Hd) as Hnd.
  pose proof (getDivisors_ascending d) as Hs.
  induction Hs as [|x l Hl IH Hx]; [constructor|].
  inversion Hnd as [|? ? Hnotin Hnd']; subst.
  constructor; [now apply IH|].
  rewrite Forall_forall in *. intros y Hy. specialize (Hx y Hy).
  assert (x <> y) by (intros ->; contradiction). lia.
Qed.

Lemma getDivisors_head (d : Z) :
  1 <= d -> exists rest, getDivisors d = 1 :: rest.
Proof.
  intros Hd.
  assert (H1 : In 1 (getDivisors d)).
  { apply getDivisors_In; [exact Hd|]. unfold divides. rewrite Z.mod_1_r. reflexivity. }
  pose proof (getDivisors_ascending d) as Hs.
  assert (Hpos : forall k, In k (getDivisors d) -> 1 <= k).
  { intros k Hk. apply getDivisors_In in Hk; [|exact Hd]. unfold divides in Hk. lia. }
  destruct (getDivisors d) as [|h rest]; [contradiction|].
  exists rest. f_equal.
  specialize (Hpos h (or_introl eq_refl)).
  destruct H1 as [-> | H1]; [reflexivity|].
  apply StronglySorted_inv in Hs as [_ Hh]. rewrite Forall_forall in Hh.
  specialize (Hh 1 H1). lia.
Qed.

(** ** Tallies *)

Lemma occurrences_cons (k x : Z) (l : list Z) :
  occurrences k (x :: l) = (if k =? x then 1 else 0) + occurrences k l.
Proof.
  unfold occurrences, jsLength. cbn [filter].
  destruct (k =? x); cbn [List.length]; lia.
Qed.

Lemma occurrences_app (k : Z) (l1 l2 : list Z) :
  occurrences k (l1 ++ l2) = occurrences k l1 + occurrences k l2.
Proof.
  unfold occurrences, jsLength. rewrite filter_app, length_app. lia.
Qed.

Lemma occurrences_notin (k : Z) (l : list Z) : ~ In k l -> occurrences k l = 0.
Proof.
  induction l as [|x l IH]; intros H; [reflexivity|].
  rewrite occurrences_cons, IH by (intros Hin; apply H; now right).
  destruct (Z.eqb_spec k x); [|reflexivity]. exfalso. apply H. now left.
Qed.

Lemma occurrences_NoDup (k : Z) (l : list Z) :
  NoDup l -> In k l -> occurrences k l = 1.
Proof.
  induction 1 as [|x l Hx Hl IH]; intros Hin; [contradiction|].
  rewrite occurrences_cons. destruct (Z.eqb_spec k x) as [-> | Hne].
  - now rewrite occurrences_notin.
  - destruct Hin as [-> | Hin]; [contradiction|]. now rewrite IH.
Qed.

Lemma occurrences_getDivisors (d k : Z) :
  1 <= d -> occurrences k (getDivisors d) = if divides k d then 1 else 0.
Proof.
  intros Hd. destruct (divides k d) eqn:E.
  - apply occurrences_NoDup; [now apply getDivisors_NoDup | now apply getDivisors_In].
  - apply occurrences_notin. rewrite getDivisors_In by exact Hd. congruence.
Qed.

(** Over positive distances, the number of times a divisor is counted is the
    number of distances it divides. *)
Lemma occurrences_divisorTally (ds : list Z) (k : Z) :
  Forall (fun d => 1 <= d) ds ->
  occurrences k (flat_map getDivisors ds) = divisorTally ds k.
Proof.
  induction 1 as [|d ds Hd _ IH]; [reflexivity|].
  cbn [flat_map]. rewrite occurrences_app, IH, (occurrences_getDivisors d k Hd).
  unfold divisorTally, jsLength. cbn [filter].
  destruct (divides k d); cbn [List.length]; lia.
Qed.

Lemma In_firstOccurrences (k : Z) (l : list Z) :
  In k (firstOccurrences l) <-> In k l.
Proof.
  induction l as [|x l IH]; [reflexivity|]. cbn [firstOccurrences In].
  rewrite filter_In, IH, negb_true_iff, Z.eqb_neq.
  destruct (Z.eq_dec x k); intuition congruence.
Qed.

Lemma NoDup_firstOccurrences (l : list Z) : NoDup (firstOccurrences l).
Proof.
  induction l as [|x l IH]; [constructor|]. cbn [firstOccurrences]. constructor.
  - rewrite filter_In, negb_true_iff, Z.eqb_neq. intros [_ H]. congruence.
  - now apply NoDup_filter.
Qed.

Lemma existsb_eqb_In (x : Z) (l : list Z) :
  existsb (Z.eqb x) l = true <-> In x l.
Proof.
  rewrite existsb_exists. split.
  - intros (y & Hy & E). apply Z.eqb_eq in E. now subst.
  - intros H. exists x. split; [exact H | apply Z.eqb_refl].
Qed.

Lemma firstOccurrences_snoc (l : list Z) (x : Z) :
  firstOccurrences (l ++ [x])
  = firstOccurrences l ++ (if existsb (Z.eqb x) l then [] else [x]).
Proof.
  induction l as [|a l IH]; [reflexivity|].
  cbn [app firstOccurrences existsb]. rewrite IH, filter_app. f_equal. f_equal.
  destruct (Z.eqb_spec x a) as [-> | Hne]; cbn [orb].
  - destruct (existsb (Z.eqb a) l); cbn [filter]; [reflexivity|].
    now rewrite Z.eqb_refl.
  - destruct (existsb (Z.eqb x) l); cbn [filter]; [reflexivity|].
    destruct (Z.eqb_spec x a); [contradiction | reflexivity].
Qed.

Lemma mapGet_tally (g : Z -> Z) (keys : list Z) (x : Z) :
  mapGet Z.eqb (map (fun k => (k, g k)) keys) x
  = if existsb (Z.eqb x) keys then Some (g x) else None.
Proof.
  induction keys as [|a keys IH]; [reflexivity|].
  cbn [map mapGet existsb]. rewrite (Z.eqb_sym x a).
  destruct (Z.eqb_spec a x) as [-> | Hne]; [reflexivity | exact IH].
Qed.

Lemma mapSet_tally (g : Z -> Z) (keys : list Z) (x v : Z) :
  NoDup keys ->
  mapSet Z.eqb (map (fun k => (k, g k)) keys) x v
  = map (fun k => (k, if k =? x then v else g k)) keys
    ++ (if existsb (Z.eqb x) keys then [] else [(x, v)]).
Proof.
  induction 1 as [|a keys Ha Hk IH]; [reflexivity|].
  cbn [map mapSet existsb app]. rewrite (Z.eqb_sym x a).
  destruct (Z.eqb_spec a x) as [-> | Hne]; cbn [orb].
  - rewrite app_nil_r. f_equal. apply map_ext_in. intros k Hin.
    destruct (Z.eqb_spec k x); [subst; contradiction | reflexivity].
  - now rewrite IH.
Qed.

Lemma countFactor_tallyOf (l : list Z) (x : Z) :
  countFactor (tallyOf l) x = tallyOf (l ++ [x]).
Proof.
  unfold countFactor, tallyOf.
  rewrite mapGet_tally, mapSet_tally by apply NoDup_firstOccurrences.
  assert (Hsame : existsb (Z.eqb x) (firstOccurrences l) = existsb (Z.eqb x) l).
  { apply eq_true_iff_eq. rewrite !existsb_eqb_In. apply In_firstOccurrences. }
  assert (Hocc : orElse (if existsb (Z.eqb x) (firstOccurrences l)
                         then Some (occurrences x l) else None) 0
                 = occurrences x l).
  { rewrite Hsame. destruct (existsb (Z.eqb x) l) eqn:E; cbn [orElse].
    - destruct (Z.eqb_spec (occurrences x l) 0); congruence.
    - symmetry. apply occurrences_notin. rewrite <- existsb_eqb_In. congruence. }
  rewrite Hocc, firstOccurrences_snoc, map_app, Hsame. f_equal.
  - apply map_ext. intros k. rewrite occurrences_app, occurrences_cons.
    change (occurrences k []) with 0.
    destruct (Z.eqb_spec k x) as [-> | Hne]; apply f_equal; lia.
  - destruct (existsb (Z.eqb x) l); [reflexivity|]. cbn [map].
    rewrite occurrences_app, occurrences_cons, Z.eqb_refl.
    change (occurrences x []) with 0. now rewrite Z.add_0_r.
Qed.

Lemma fold_countFactor (l l0 : list Z) :
  fold_left countFactor l (tallyOf l0) = tallyOf (l0 ++ l).
Proof.
  revert l0. induction l as [|x l IH]; intros l0.
  - now rewrite app_nil_r.
  - cbn [fold_left]. rewrite countFactor_tallyOf, IH, <- app_assoc. reflexivity.
Qed.

Lemma fold_left_flat_map {A B C} (g : A -> C -> A) (f : B -> list C)
      (l : list B) (a : A) :
  fold_left (fun acc x => fold_left g (f x) acc) l a
  = fold_left g (flat_map f l) a.
Proof.
  revert a. induction l as [|x l IH]; intros a; [reflexivity|].
  cbn [fold_left flat_map]. now rewrite IH, fold_left_app.
Qed.

(** The [factors] map holds each divisor once, in the order of insertion,
    with the number of times it was counted. *)
Lemma countFactors_tallyOf (ds : list Z) :
  countFactors ds = tallyOf (flat_map getDivisors ds).
Proof.
  unfold countFactors. rewrite fold_left_flat_map.
  exact (fold_countFactor (flat_map getDivisors ds) []).
Qed.

(** ** The ranking of the divisors *)

Lemma insertSorted_map {A B} (g : A -> B) (comparefn : B -> B -> comparison)
      (x : A) (l : list A) :
  insertSorted comparefn (g x) (map g l)
  = map g (insertSorted (fun a b => comparefn (g a) (g b)) x l).
Proof.
  induction l as [|y l IH]; [reflexivity|].
  cbn [map insertSorted]. destruct (comparefn (g x) (g y)); try reflexivity.
  cbn [map]. now rewrite IH.
Qed.

Lemma arraySort_map {A B} (g : A -> B) (comparefn : B -> B -> comparison)
      (l : list A) :
  arraySort comparefn (map g l)
  = map g (arraySort (fun a b => comparefn (g a) (g b)) l).
Proof.
  induction l as [|x l IH]; [reflexivity|].
  cbn [map arraySort fold_right]. fold (arraySort comparefn (map g l)).
  rewrite IH. apply insertSorted_map.
Qed.

Lemma arraySort_ext {A} (f g : A -> A -> comparison) (l : list A) :
  (forall a b, f a b = g a b) -> arraySort f l = arraySort g l.
Proof.
  intros H. induction l as [|x l IH]; [reflexivity|].
  cbn [arraySort fold_right]. fold (arraySort f l) (arraySort g l). rewrite IH.
  generalize (arraySort g l). intros s.
  induction s as [|y s IHs]; [reflexivity|].
  cbn [insertSorted]. rewrite H, IHs. reflexivity.
Qed.

(** The sorted entries of [factors], read by their keys: the divisors in
    insertion order, sorted stably by descending tally. *)
Lemma ranked_divisors (ds : list Z) :
  Forall (fun d => 1 <= d) ds ->
  map fst (arraySort byCountDescending (countFactors ds))
  = arraySort (byTallyDescending ds) (insertionOrder ds).
Proof.
  intros Hds. rewrite countFactors_tallyOf. unfold tallyOf.
  rewrite arraySort_map, map_map. cbn [fst]. rewrite map_id.
  apply arraySort_ext. intros a b. unfold byCountDescending, byTallyDescending.
  cbn [snd]. now rewrite !occurrences_divisorTally.
Qed.

Lemma byTallyDescending_not_Gt (ds : list Z) (a b : Z) :
  byTallyDescending ds a b <> Gt <-> divisorTally ds b <= divisorTally ds a.
Proof. unfold byTallyDescending, signZ. rewrite Z.compare_gt_iff. lia. Qed.

Lemma divisorTally_one (ds : list Z) (k : Z) :
  divisorTally ds k <= divisorTally ds 1.
Proof.
  unfold divisorTally, jsLength. induction ds as [|d ds IH]; [reflexivity|].
  cbn [filter]. replace (divides 1 d) with true
    by (unfold divides; now rewrite Z.mod_1_r).
  destruct (divides k d); cbn [List.length]; lia.
Qed.

Lemma insertionOrder_In (ds : list Z) (k : Z) :
  Forall (fun d => 1 <= d) ds ->
  In k (insertionOrder ds) <-> exists d, In d ds /\ divides k d = true.
Proof.
  intros Hds. unfold insertionOrder. rewrite In_firstOccurrences, in_flat_map.
  rewrite Forall_forall in Hds.
  split; intros (d & Hd & Hk); exists d; (split; [exact Hd|]).
  - now apply getDivisors_In; auto.
  - now apply getDivisors_In; auto.
Qed.

(** With a repetition found, the ranking starts with 1. *)
Lemma ranked_head_one (d : Z) (ds : list Z) :
  Forall (fun d => 1 <= d) (d :: ds) ->
  exists rest, arraySort (byTallyDescending (d :: ds)) (insertionOrder (d :: ds))
               = 1 :: rest.
Proof.
  intros Hds. inversion Hds as [|? ? Hd _]; subst.
  destruct (getDivisors_head d Hd) as [rest Hrest].
  unfold insertionOrder. cbn [flat_map]. rewrite Hrest. cbn [app firstOccurrences].
  eexists. apply arraySort_head.
  intros y _. apply byTallyDescending_not_Gt. apply divisorTally_one.
Qed.

(** What analyze returns when it does not throw. *)
Lemma analyze_returns (M : CaseMapping) (c : jsstring) (n : Z) (r : AnalysisResult) :
  analyze M (VString c) n = Return r ->
  n <= jsLength c /\
  let ds := repeatDistances (findSequences (lettersOnly M c) n) in
  keyLengths r = firstn 5 (arraySort (byTallyDescending ds) (insertionOrder ds)) /\
  distances r = firstn 10 ds /\
  likelyKeyLength r = orNull (hd_error (keyLengths r)) /\
  repetitionCount r = jsLength ds.
Proof.
  unfold analyze. destruct (Z.ltb_spec (jsLength c) n); [discriminate|].
  intros Hr. split; [lia|].
  apply (f_equal (fun x => match x with Return a => a | Throw _ => r end)) in Hr.
  subst r. cbv zeta. cbn [keyLengths distances likelyKeyLength repetitionCount].
  rewrite <- ranked_divisors by apply repeatDistances_positive.
  rewrite firstn_map. repeat split.
Qed.

(** C9: whenever analyze finds a repeated sequence (repetitionCount > 0),
    likelyKeyLength is exactly 1, the first of keyLengths: 1 divides every
    distance, so no tally exceeds its own, and it is the first divisor to
    enter the tally, so the stable sort leaves it in front. *)
Theorem analyze_likelyKeyLength_one (M : CaseMapping) (c : jsstring) (n : Z)
        (r : AnalysisResult) :
  analyze M (VString c) n = Return r ->
  0 < repetitionCount r ->
  likelyKeyLength r = Some 1 /\ hd_error (keyLengths r) = Some 1.
Proof.
  intros Hrun Hcount.
  destruct (analyze_returns M c n r Hrun) as (_ & Hkeys & _ & Hlikely & Hrep).
  cbv zeta in *. rewrite Hlikely.
  pose proof (repeatDistances_positive (lettersOnly M c) n) as Hpos.
  destruct (repeatDistances (findSequences (lettersOnly M c) n)) as [|d ds].
  - rewrite Hrep in Hcount. cbn in Hcount. lia.
  - destruct (ranked_head_one d ds Hpos) as [rest Hrest].
    rewrite Hkeys, Hrest. cbn. auto.
Qed.

Lemma analyze_likelyKeyLength_one_witness :
  exists r,
    analyze excerptMapping (VString (str "To be, or not to be: to be!")) 3 = Return r /\
    0 < repetitionCount r /\
    likelyKeyLength r = Some 1.
Proof.
  destruct (analyze excerptMapping (VString (str "To be, or not to be: to be!")) 3)
    as [r|e] eqn:Hrun; [|vm_compute in Hrun; discriminate Hrun].
  exists r.
  assert (Hcount : 0 < repetitionCount r)
    by (vm_compute in Hrun; injection Hrun as <-; reflexivity).
  split; [reflexivity|]. split; [exact Hcount|].
  apply (analyze_likelyKeyLength_one excerptMapping
           (str "To be, or not to be: to be!") 3 r Hrun Hcount).
Defined.

Lemma orNull_positive (l : list Z) :
  Forall (fun k => 1 <= k) l -> orNull (hd_error l) = hd_error l.
Proof.
  intros [|k l' Hk _]; [reflexivity|]. cbn.
  destruct (Z.eqb_spec k 0); [lia | reflexivity].
Qed.

Lemma In_firstn {A} (n : nat) (l : list A) (x : A) :
  In x (firstn n l) -> In x l.
Proof.
  intros H. rewrite <- (firstn_skipn n l). apply in_or_app. now left.
Qed.

Lemma hd_error_firstn_succ {A} (n : nat) (l : list A) :
  hd_error (firstn (S n) l) = hd_error l.
Proof. destruct l; reflexivity. Qed.

(** C4, as the code has it: keyLengths holds the first five of the divisors
    of the repeat distances, ranked by descending tally (the number of
    distances a divisor divides); divisors of equal tally keep the order in
    which they entered the tally, that of the first distance they divide and
    ascending within one distance (the distances are positive and the
    divisors of each are counted once, in strictly ascending order).
    likelyKeyLength is the first of the ranking (null when there is no
    repetition), distances holds the first ten distances and repetitionCount
    is their number. *)
Theorem analyze_ranking (M : CaseMapping) (c : jsstring) (n : Z)
        (r : AnalysisResult) :
  analyze M (VString c) n = Return r ->
  let ds := repeatDistances (findSequences (lettersOnly M c) n) in
  exists ranked,
    keyLengths r = firstn 5 ranked /\
    Permutation ranked (insertionOrder ds) /\
    (forall k, In k ranked <-> exists d, In d ds /\ divides k d = true) /\
    StronglySorted (fun a b => divisorTally ds b <= divisorTally ds a) ranked /\
    (forall m, filter (fun k => divisorTally ds k =? m) ranked
               = filter (fun k => divisorTally ds k =? m) (insertionOrder ds)) /\
    Forall (fun d => 1 <= d /\ StronglySorted Z.lt (getDivisors d)) ds /\
    likelyKeyLength r = hd_error ranked /\
    (ds = [] -> likelyKeyLength r = None) /\
    distances r = firstn 10 ds /\
    repetitionCount r = jsLength ds.
Proof.
  intros Hrun ds.
  destruct (analyze_returns M c n r Hrun) as (_ & Hkeys & Hdist & Hlikely & Hrep).
  fold ds in Hkeys, Hdist, Hrep.
  assert (Hpos : Forall (fun d => 1 <= d) ds) by apply repeatDistances_positive.
  set (ranked := arraySort (byTallyDescending ds) (insertionOrder ds)) in *.
  assert (Hperm : Permutation ranked (insertionOrder ds)) by apply arraySort_perm.
  assert (Hin : forall k, In k ranked <-> exists d, In d ds /\ divides k d = true).
  { intros k. rewrite <- (insertionOrder_In ds k Hpos).
    split; apply Permutation_in; [exact Hperm | now symmetry]. }
  assert (Hhead : likelyKeyLength r = hd_error ranked).
  { rewrite Hlikely, Hkeys, orNull_positive; [apply hd_error_firstn_succ|].
    apply Forall_forall. intros k Hk. apply In_firstn, Hin in Hk.
    destruct Hk as (d & _ & Hk). unfold divides in Hk. lia. }
  exists ranked.
  split; [exact Hkeys|]. split; [exact Hperm|]. split; [exact Hin|].
  split; [|split; [|split; [|split; [exact Hhead|split; [|split; [exact Hdist | exact Hrep]]]]]].
  - eapply StronglySorted_weaken; [|apply (arraySort_sorted (byTallyDescending ds))].
    + intros a b. apply byTallyDescending_not_Gt.
    + intros x y. rewrite byTallyDescending_not_Gt.
      unfold byTallyDescending, signZ. rewrite Z.compare_gt_iff. lia.
    + intros x y z. rewrite !byTallyDescending_not_Gt. lia.
  - intros m. apply arraySort_stable. intros x y Hxy Hx.
    unfold byTallyDescending, signZ in Hxy. rewrite Z.compare_gt_iff in Hxy. lia.
  - eapply Forall_impl; [|exact Hpos]. intros d Hd.
    split; [exact Hd | now apply getDivisors_strictly_ascending].
  - intros Hnil. rewrite Hhead. subst ranked. now rewrite Hnil.
Qed.

Lemma analyze_ranking_witness :
  exists r ranked,
    analyze excerptMapping (VString (str "ABCXABCDEFDEF")) 3 = Return r /\
    keyLengths r = firstn 5 ranked /\
    StronglySorted (fun a b => divisorTally [4; 3] b <= divisorTally [4; 3] a) ranked /\
    likelyKeyLength r = hd_error ranked.
Proof.
  destruct (analyze excerptMapping (VString (str "ABCXABCDEFDEF")) 3)
    as [r|e] eqn:Hrun; [|vm_compute in Hrun; discriminate Hrun].
  destruct (analyze_ranking excerptMapping (str "ABCXABCDEFDEF") 3 r Hrun)
    as (ranked & Hkeys & _ & _ & Hsorted & _ & _ & Hlikely & _).
  exists r, ranked. repeat split; assumption.
Defined.

(** C4 as stated fails: in analyze("ABCXABCDEFDEF", 3) the distances are 4
    and 3, the divisors 2, 4 and 3 are tied with one count each, and 4 stands
    before 3 in keyLengths. *)
Lemma analyze_ties_keep_insertion_order :
  exists r,
    analyze excerptMapping (VString (str "ABCXABCDEFDEF")) 3 = Return r /\
    distances r = [4; 3] /\
    keyLengths r = [1; 2; 4; 3] /\
    divisorTally (distances r) 4 = divisorTally (distances r) 3 /\
    rankedByTallyThenValue (divisorTally (distances r)) (keyLengths r) = false.
Proof. eexists. split; [vm_compute; reflexivity|]. repeat split. Qed.

(** ** Short working sequences *)

Lemma lettersOnly_ascii (M : CaseMapping) (c : jsstring) :
  Forall (fun u => u < 128) c ->
  jsLength (lettersOnly M c) = letterCount c.
Proof.
  intros H. unfold lettersOnly, letterCount, jsLength.
  rewrite (toUpperCase_ascii M c H). f_equal. clear H.
  induction c as [|x c IH]; [reflexivity|]. cbn [map filter].
  assert (E : isAsciiUpper (asciiUpper x) = isAsciiLetter x).
  { unfold isAsciiLetter, asciiUpper, isAsciiUpper, isAsciiLower.
    destruct ((97 <=? x) && (x <=? 122)) eqn:E1; lia. }
  rewrite E. destruct (isAsciiLetter x); cbn [List.length]; now rewrite IH.
Qed.

(** C10, as the code has it: analyze checks the length of the raw ciphertext
    and throws only when that is below sequenceLength.  When the raw length is
    at least sequenceLength while the working sequence, the uppercased text
    stripped to A-Z, is shorter than sequenceLength (as it is for an ASCII
    ciphertext with fewer than sequenceLength letters), analyze does not
    throw and returns the empty analysis. *)
Theorem analyze_short_working_sequence (M : CaseMapping) (c : jsstring) (n : Z) :
  (jsLength c < n ->
   analyze M (VString c) n = Throw (JsError "Ciphertext too short for analysis")) /\
  (n <= jsLength c ->
   jsLength (lettersOnly M c) < n \/
   (Forall (fun u => u < 128) c /\ letterCount c < n) ->
   analyze M (VString c) n
   = Return {| keyLengths := []; distances := [];
               likelyKeyLength := None; repetitionCount := 0 |}).
Proof.
  split.
  - intros Hraw. unfold analyze.
    destruct (Z.ltb_spec (jsLength c) n); [reflexivity | lia].
  - intros Hraw Hfew.
    assert (Hshort : jsLength (lettersOnly M c) < n).
    { destruct Hfew as [H | [Hascii H]]; [exact H|].
      now rewrite (lettersOnly_ascii M c Hascii). }
    unfold analyze. destruct (Z.ltb_spec (jsLength c) n); [lia|].
    unfold findSequences. rewrite range_empty by lia. reflexivity.
Qed.

Lemma analyze_short_working_sequence_witness :
  3 <= jsLength (str "!!!!!") /\
  (Forall (fun u => u < 128) (str "!!!!!") /\ letterCount (str "!!!!!") < 3) /\
  analyze excerptMapping (VString (str "!!!!!")) 3
  = Return {| keyLengths := []; distances := [];
              likelyKeyLength := None; repetitionCount := 0 |}.
Proof.
  assert (Hraw : 3 <= jsLength (str "!!!!!")) by (vm_compute; discriminate).
  assert (Hfew : Forall (fun u => u < 128) (str "!!!!!") /\ letterCount (str "!!!!!") < 3)
    by (split; [repeat constructor | reflexivity]).
  split; [exact Hraw|]. split; [exact Hfew|].
  destruct (analyze_short_working_sequence excerptMapping (str "!!!!!") 3)
    as [_ Hempty].
  apply (Hempty Hraw). right. exact Hfew.
Defined.

(** C10 as stated fails: the text of two sharp s (U+00DF) and "!" has three
    characters, none of them a letter A-Z or a-z (and two letters at most, if
    the sharp s counts as one), yet it uppercases to "SSSS!", in which "SSS"
    occurs twice. *)
Lemma analyze_sharp_s_repeats :
  3 <= jsLength [0xDF; 0xDF; 33] /\
  letterCount [0xDF; 0xDF; 33] < 3 /\
  letterCount [0xDF; 0xDF; 33] + occurrences 0xDF [0xDF; 0xDF; 33] < 3 /\
  toUpperCase excerptMapping [0xDF; 0xDF; 33] = str "SSSS!" /\
  analyze excerptMapping (VString [0xDF; 0xDF; 33]) 3
  = Return {| keyLengths := [1]; distances := [1];
              likelyKeyLength := Some 1; repetitionCount := 1 |}.
Proof. repeat split. vm_compute. discriminate. Qed.

(** * Further properties of the module *)

(** ** decrypt: errors and the inverse round trip *)

Lemma shiftBackward_letter (shift c : Z) :
  0 <= shift <= 25 -> isAsciiLetter c = true ->
  isAsciiLetter (shiftBackward shift c) = true /\
  isAsciiUpper (shiftBackward shift c) = isAsciiUpper c.
Proof.
  intros Hs Hc. unfold shiftBackward, fromCharCode.
  unfold isAsciiLetter in Hc.
  destruct (isAsciiUpper c) eqn:Eu.
  - unfold isAsciiUpper in Eu.
    assert (0 <= Z.rem (c - 65 - shift + 26) 26 < 26) by (apply Z.rem_bound_pos; lia).
    rewrite Z.mod_small by lia.
    unfold isAsciiLetter, isAsciiUpper, isAsciiLower. lia.
  - cbn [orb] in Hc. unfold isAsciiLower in Hc.
    assert (0 <= Z.rem (c - 97 - shift + 26) 26 < 26) by (apply Z.rem_bound_pos; lia).
    rewrite Z.mod_small by lia.
    unfold isAsciiLetter, isAsciiUpper, isAsciiLower. lia.
Qed.

Lemma shiftForward_shiftBackward (shift c : Z) :
  0 <= shift <= 25 -> isAsciiLetter c = true ->
  shiftForward shift (shiftBackward shift c) = c.
Proof.
  intros Hs Hc. unfold shiftForward.
  destruct (shiftBackward_letter shift c Hs Hc) as [_ ->].
  unfold shiftBackward, fromCharCode. unfold isAsciiLetter in Hc.
  destruct (isAsciiUpper c) eqn:Eu.
  - unfold isAsciiUpper in Eu.
    assert (0 <= Z.rem (c - 65 - shift + 26) 26 < 26) by (apply Z.rem_bound_pos; lia).
    rewrite (Z.mod_small (Z.rem (c - 65 - shift + 26) 26 + 65)) by lia.
    rewrite !Z.rem_mod_nonneg in * by lia.
    rewrite Z.mod_small by (pose proof (Z.mod_pos_bound
      ((c - 65 - shift + 26) mod 26 + 65 - 65 + shift) 26); lia).
    Z.div_mod_to_equations. lia.
  - cbn [orb] in Hc. unfold isAsciiLower in Hc.
    assert (0 <= Z.rem (c - 97 - shift + 26) 26 < 26) by (apply Z.rem_bound_pos; lia).
    rewrite (Z.mod_small (Z.rem (c - 97 - shift + 26) 26 + 97)) by lia.
    rewrite !Z.rem_mod_nonneg in * by lia.
    rewrite Z.mod_small by (pose proof (Z.mod_pos_bound
      ((c - 97 - shift + 26) mod 26 + 97 - 97 + shift) 26); lia).
    Z.div_mod_to_equations. lia.
Qed.

Lemma encryptText_decryptText (keyUpper text : jsstring) :
  keyUpper <> [] ->
  Forall (fun c => isAsciiUpper c = true) keyUpper ->
  forall keyIndex, 0 <= keyIndex ->
    encryptText keyUpper (decryptText keyUpper text keyIndex) keyIndex = text.
Proof.
  intros Hne Hall. induction text as [|c rest IH]; intros keyIndex Hi.
  - reflexivity.
  - cbn [decryptText]. destruct (isAsciiLetter c) eqn:Ec.
    + pose proof (keyShift_bounds keyUpper keyIndex Hne Hi Hall) as Hs.
      cbn [encryptText].
      destruct (shiftBackward_letter _ c Hs Ec) as [-> _].
      rewrite shiftForward_shiftBackward by assumption.
      now rewrite IH by lia.
    + cbn [encryptText]. rewrite Ec. now rewrite IH.
Qed.

(** X1: decrypt(C, K) throws exactly when C is not a string, or K is not a
    string, or K is empty: a TypeError when C is not a string, the validation
    error otherwise. *)
Theorem decrypt_throws_iff (M : CaseMapping) (C K : value) :
  ((exists e, decrypt M C K = Throw e)
   <-> (isString C = false \/ isString K = false \/ K = VString [])) /\
  (isString C = false ->
   decrypt M C K = Throw (JsTypeError "Ciphertext must be a string")) /\
  (isString C = true -> isString K = false \/ K = VString [] ->
   decrypt M C K = Throw (JsError "Key must be a non-empty string")).
Proof.
  split; [|split].
  - split.
    + intros [e He]. destruct C as [| | | |c|]; cbn; auto.
      destruct K as [| | | |k|]; cbn; auto.
      destruct k as [|u k]; auto.
      rewrite decrypt_closed in He
        by (try apply toUpperCase_nonempty; discriminate).
      discriminate He.
    + intros [HC | [HK | ->]].
      * destruct C; try discriminate HC; eexists; reflexivity.
      * destruct C; try (eexists; reflexivity).
        destruct K; try discriminate HK; eexists; reflexivity.
      * destruct C; eexists; reflexivity.
  - intros HC. destruct C; try discriminate HC; reflexivity.
  - intros HC [HK | ->].
    + destruct C; try discriminate HC. destruct K; try discriminate HK; reflexivity.
    + destruct C; try discriminate HC. reflexivity.
Qed.

Lemma decrypt_throws_iff_witness :
  decrypt excerptMapping (VNumber 123) (VString (str "KEY"))
  = Throw (JsTypeError "Ciphertext must be a string") /\
  decrypt excerptMapping (VString (str "RIJVS")) (VString (str ""))
  = Throw (JsError "Key must be a non-empty string").
Proof.
  split.
  - destruct (decrypt_throws_iff excerptMapping (VNumber 123) (VString (str "KEY")))
      as (_ & H & _).
    apply H; reflexivity.
  - destruct (decrypt_throws_iff excerptMapping (VString (str "RIJVS")) (VString (str "")))
      as (_ & _ & H).
    apply H; [reflexivity | right; reflexivity].
Defined.

(** X2: under a valid key encrypt undoes decrypt: decrypt(C, K) returns a
    text whose encryption under K is C again, for every string C. *)
Theorem encrypt_decrypt_roundtrip (M : CaseMapping) (C K : jsstring) :
  validKey K = true ->
  exists P,
    decrypt M (VString C) (VString K) = Return P /\
    encrypt M (VString P) (VString K) = Return C.
Proof.
  intros HK.
  destruct (toUpperCase_validKey M K HK) as (_ & HU & Hall).
  destruct (validKey_inv K HK) as [Hne _].
  exists (decryptText (toUpperCase M K) C 0). split.
  - now apply decrypt_closed.
  - rewrite encrypt_closed by assumption.
    now rewrite encryptText_decryptText by (assumption || lia).
Qed.

Lemma encrypt_decrypt_roundtrip_witness :
  validKey (str "Lime") = true /\
  exists P,
    decrypt excerptMapping (VString (str "Not a ciphertext, 42!")) (VString (str "Lime"))
    = Return P /\
    encrypt excerptMapping (VString P) (VString (str "Lime"))
    = Return (str "Not a ciphertext, 42!").
Proof.
  split; [reflexivity|].
  apply (encrypt_decrypt_roundtrip excerptMapping (str "Not a ciphertext, 42!") (str "Lime")).
  reflexivity.
Defined.

(** ** The kind of every character is kept *)

Lemma encryptText_sameKind (keyUpper text : jsstring) :
  keyUpper <> [] ->
  Forall (fun c => isAsciiUpper c = true) keyUpper ->
  forall keyIndex, 0 <= keyIndex ->
    Forall2 sameKind text (encryptText keyUpper text keyIndex).
Proof.
  intros Hne Hall. induction text as [|c rest IH]; intros keyIndex Hi; [constructor|].
  cbn [encryptText]. destruct (isAsciiLetter c) eqn:Ec.
  - constructor; [|apply IH; lia].
    pose proof (keyShift_bounds keyUpper keyIndex Hne Hi Hall) as Hs.
    destruct (shiftForward_letter _ c Hs Ec) as [Hl Hu]. split; [exact Hu|].
    unfold isAsciiLetter in Hl, Ec. rewrite Hu in Hl.
    destruct (isAsciiUpper c) eqn:E; cbn [orb] in *.
    + unfold isAsciiUpper in Hu, E. unfold isAsciiLower. lia.
    + congruence.
  - constructor; [split; reflexivity | now apply IH].
Qed.

Lemma decryptText_sameKind (keyUpper text : jsstring) :
  keyUpper <> [] ->
  Forall (fun c => isAsciiUpper c = true) keyUpper ->
  forall keyIndex, 0 <= keyIndex ->
    Forall2 sameKind text (decryptText keyUpper text keyIndex).
Proof.
  intros Hne Hall. induction text as [|c rest IH]; intros keyIndex Hi; [constructor|].
  cbn [decryptText]. destruct (isAsciiLetter c) eqn:Ec.
  - constructor; [|apply IH; lia].
    pose proof (keyShift_bounds keyUpper keyIndex Hne Hi Hall) as Hs.
    destruct (shiftBackward_letter _ c Hs Ec) as [Hl Hu]. split; [exact Hu|].
    unfold isAsciiLetter in Hl, Ec. rewrite Hu in Hl.
    destruct (isAsciiUpper c) eqn:E; cbn [orb] in *.
    + unfold isAsciiUpper in Hu, E. unfold isAsciiLower. lia.
    + congruence.
  - constructor; [split; reflexivity | now apply IH].
Qed.

(** X3: under a valid key encrypt and decrypt keep the kind of every
    character: a capital stays a capital, a small letter a small letter, and
    what is no letter stays no letter, position by position. *)
Theorem cipher_keeps_letter_case (M : CaseMapping) (P K : jsstring) :
  validKey K = true ->
  exists C T,
    encrypt M (VString P) (VString K) = Return C /\
    decrypt M (VString P) (VString K) = Return T /\
    Forall2 sameKind P C /\
    Forall2 sameKind P T.
Proof.
  intros HK.
  destruct (toUpperCase_validKey M K HK) as (_ & HU & Hall).
  destruct (validKey_inv K HK) as [Hne _].
  exists (encryptText (toUpperCase M K) P 0), (decryptText (toUpperCase M K) P 0).
  split; [now apply encrypt_closed|]. split; [now apply decrypt_closed|]. split.
  - apply encryptText_sameKind; (assumption || lia).
  - apply decryptText_sameKind; (assumption || lia).
Qed.

Lemma cipher_keeps_letter_case_witness :
  validKey (str "Key") = true /\
  exists C T,
    encrypt excerptMapping (VString (str "Zebra, zoo: 9")) (VString (str "Key")) = Return C /\
    decrypt excerptMapping (VString (str "Zebra, zoo: 9")) (VString (str "Key")) = Return T /\
    Forall2 sameKind (str "Zebra, zoo: 9") C /\
    Forall2 sameKind (str "Zebra, zoo: 9") T.
Proof.
  split; [reflexivity|].
  apply (cipher_keeps_letter_case excerptMapping (str "Zebra, zoo: 9") (str "Key")).
  reflexivity.
Defined.

(** ** How the text depends on the key: only through its shifts *)

Lemma encryptText_ext (ku ku' text : jsstring) :
  forall i j,
    (forall k, 0 <= k -> keyShift ku (i + k) = keyShift ku' (j + k)) ->
    encryptText ku text i = encryptText ku' text j.
Proof.
  induction text as [|c rest IH]; intros i j H; [reflexivity|].
  cbn [encryptText]. destruct (isAsciiLetter c).
  - pose proof (H 0 ltac:(lia)) as H0. rewrite !Z.add_0_r in H0. rewrite H0.
    f_equal. apply IH. intros k Hk.
    replace (i + 1 + k) with (i + (k + 1)) by lia.
    replace (j + 1 + k) with (j + (k + 1)) by lia. apply H. lia.
  - f_equal. now apply IH.
Qed.

Lemma decryptText_ext (ku ku' text : jsstring) :
  forall i j,
    (forall k, 0 <= k -> keyShift ku (i + k) = keyShift ku' (j + k)) ->
    decryptText ku text i = decryptText ku' text j.
Proof.
  induction text as [|c rest IH]; intros i j H; [reflexivity|].
  cbn [decryptText]. destruct (isAsciiLetter c).
  - pose proof (H 0 ltac:(lia)) as H0. rewrite !Z.add_0_r in H0. rewrite H0.
    f_equal. apply IH. intros k Hk.
    replace (i + 1 + k) with (i + (k + 1)) by lia.
    replace (j + 1 + k) with (j + (k + 1)) by lia. apply H. lia.
  - f_equal. now apply IH.
Qed.

Lemma shiftForward_zero (c : Z) :
  isAsciiLetter c = true -> shiftForward 0 c = c.
Proof.
  intros Hc. unfold shiftForward, fromCharCode. unfold isAsciiLetter in Hc.
  destruct (isAsciiUpper c) eqn:Eu.
  - unfold isAsciiUpper in Eu. rewrite Z.rem_small by lia.
    rewrite Z.mod_small by lia. lia.
  - cbn [orb] in Hc. unfold isAsciiLower in Hc. rewrite Z.rem_small by lia.
    rewrite Z.mod_small by lia. lia.
Qed.

Lemma shiftBackward_zero (c : Z) :
  isAsciiLetter c = true -> shiftBackward 0 c = c.
Proof.
  intros Hc. unfold shiftBackward, fromCharCode. unfold isAsciiLetter in Hc.
  destruct (isAsciiUpper c) eqn:Eu.
  - unfold isAsciiUpper in Eu.
    rewrite Z.rem_mod_nonneg by lia. rewrite Z.mod_small by
      (pose proof (Z.mod_pos_bound (c - 65 - 0 + 26) 26); lia).
    Z.div_mod_to_equations. lia.
  - cbn [orb] in Hc. unfold isAsciiLower in Hc.
    rewrite Z.rem_mod_nonneg by lia. rewrite Z.mod_small by
      (pose proof (Z.mod_pos_bound (c - 97 - 0 + 26) 26); lia).
    Z.div_mod_to_equations. lia.
Qed.

Lemma keyShift_In (ku : jsstring) (i : Z) :
  ku <> [] -> 0 <= i -> In (keyShift ku i + 65) ku.
Proof.
  intros Hne Hi. unfold keyShift, jsLength.
  assert (Hlen : 0 < Z.of_nat (List.length ku))
    by (destruct ku; [contradiction | cbn [List.length]; lia]).
  pose proof (Z.rem_bound_pos i _ Hi Hlen) as [Hlo Hhi].
  replace (nth (Z.to_nat (Z.rem i (Z.of_nat (List.length ku)))) ku 0 - 65 + 65)
    with (nth (Z.to_nat (Z.rem i (Z.of_nat (List.length ku)))) ku 0) by lia.
  apply nth_In. lia.
Qed.

(** X4: a key made of the letter A alone (in either case) is the zero shift:
    encrypt and decrypt return the text as it is. *)
Theorem key_of_A_changes_nothing (M : CaseMapping) (P K : jsstring) :
  K <> [] ->
  forallb (fun c => (c =? 65) || (c =? 97)) K = true ->
  encrypt M (VString P) (VString K) = Return P /\
  decrypt M (VString P) (VString K) = Return P.
Proof.
  intros Hne HA.
  assert (Hall : Forall (fun c => c = 65 \/ c = 97) K).
  { apply Forall_forall. intros c Hc.
    pose proof (proj1 (forallb_forall _ K) HA c Hc) as H. cbv beta in H. lia. }
  assert (HK : validKey K = true).
  { unfold validKey. rewrite (jsLength_nonzero K Hne). cbn [negb andb].
    apply forallb_forall. intros c Hc. rewrite Forall_forall in Hall.
    destruct (Hall c Hc) as [-> | ->]; reflexivity. }
  destruct (toUpperCase_validKey M K HK) as (HU & HUne & _).
  assert (Hshift : forall i, 0 <= i -> keyShift (toUpperCase M K) i = 0).
  { intros i Hi. pose proof (keyShift_In (toUpperCase M K) i HUne Hi) as Hin.
    rewrite HU in Hin at 2. apply in_map_iff in Hin as (c & Hc & Hin).
    rewrite Forall_forall in Hall.
    destruct (Hall c Hin) as [-> | ->]; cbn in Hc; lia. }
  assert (Henc : forall text i, 0 <= i -> encryptText (toUpperCase M K) text i = text).
  { induction text as [|c rest IH]; intros i Hi; [reflexivity|].
    cbn [encryptText]. destruct (isAsciiLetter c) eqn:Ec.
    - now rewrite Hshift, shiftForward_zero, IH by (assumption || lia).
    - now rewrite IH. }
  assert (Hdec : forall text i, 0 <= i -> decryptText (toUpperCase M K) text i = text).
  { induction text as [|c rest IH]; intros i Hi; [reflexivity|].
    cbn [decryptText]. destruct (isAsciiLetter c) eqn:Ec.
    - now rewrite Hshift, shiftBackward_zero, IH by (assumption || lia).
    - now rewrite IH. }
  split.
  - rewrite encrypt_closed by assumption. now rewrite Henc.
  - rewrite decrypt_closed by assumption. now rewrite Hdec.
Qed.

Lemma key_of_A_changes_nothing_witness :
  str "AaA" <> [] /\
  encrypt excerptMapping (VString (str "Hello, World!")) (VString (str "AaA"))
  = Return (str "Hello, World!") /\
  decrypt excerptMapping (VString (str "Hello, World!")) (VString (str "AaA"))
  = Return (str "Hello, World!").
Proof.
  split; [discriminate|].
  apply (key_of_A_changes_nothing excerptMapping (str "Hello, World!") (str "AaA"));
    [discriminate | reflexivity].
Defined.

(** ** A key written several times over *)

Lemma nth_concat_repeat (l : list Z) (m j : nat) :
  (j < m * List.length l)%nat ->
  nth j (List.concat (repeat l m)) 0 = nth (j mod List.length l) l 0.
Proof.
  revert j. induction m as [|m IH]; intros j Hj; [lia|].
  cbn [repeat List.concat].
  destruct (Nat.lt_ge_cases j (List.length l)) as [Hlt | Hge].
  - rewrite app_nth1 by exact Hlt. now rewrite Nat.mod_small.
  - rewrite app_nth2 by exact Hge. rewrite IH by lia.
    f_equal.
    replace j with ((j - List.length l) + 1 * List.length l)%nat at 2 by lia.
    rewrite Nat.Div0.mod_add. reflexivity.
Qed.

Lemma length_concat_repeat (l : list Z) (m : nat) :
  List.length (List.concat (repeat l m)) = (m * List.length l)%nat.
Proof.
  induction m as [|m IH]; [reflexivity|].
  cbn [repeat List.concat]. rewrite length_app, IH. lia.
Qed.

Lemma keyShift_concat_repeat (ku : jsstring) (m : nat) (i : Z) :
  ku <> [] -> (1 <= m)%nat -> 0 <= i ->
  keyShift (List.concat (repeat ku m)) i = keyShift ku i.
Proof.
  intros Hne Hm Hi. unfold keyShift, jsLength.
  assert (Hlen : (0 < List.length ku)%nat)
    by (destruct ku; [contradiction | cbn [List.length]; lia]).
  rewrite length_concat_repeat.
  rewrite !Z.rem_mod_nonneg by lia.
  assert (Hb : 0 <= i mod Z.of_nat (m * List.length ku) < Z.of_nat (m * List.length ku))
    by (apply Z.mod_pos_bound; lia).
  rewrite nth_concat_repeat by lia. f_equal. f_equal.
  assert (Hb' : 0 <= i mod Z.of_nat (List.length ku) < Z.of_nat (List.length ku))
    by (apply Z.mod_pos_bound; lia).
  apply Nat2Z.inj. rewrite Nat2Z.inj_mod, !Z2Nat.id by lia.
  apply Z.mod_mod_divide. exists (Z.of_nat m). lia.
Qed.

Lemma map_concat_repeat {A B} (f : A -> B) (l : list A) (m : nat) :
  map f (List.concat (repeat l m)) = List.concat (repeat (map f l) m).
Proof.
  induction m as [|m IH]; [reflexivity|].
  cbn [repeat List.concat]. now rewrite map_app, IH.
Qed.

(** X5: a valid key written several times in a row is the same key:
    encrypt and decrypt under K.repeat(m), m at least 1, return what they
    return under K. *)
Theorem repeated_key_is_same_key (M : CaseMapping) (P K : jsstring) (m : nat) :
  validKey K = true ->
  (1 <= m)%nat ->
  exists C T,
    encrypt M (VString P) (VString K) = Return C /\
    encrypt M (VString P) (VString (List.concat (repeat K m))) = Return C /\
    decrypt M (VString P) (VString K) = Return T /\
    decrypt M (VString P) (VString (List.concat (repeat K m))) = Return T.
Proof.
  intros HK Hm.
  pose proof (validKey_small K HK) as Hsmall.
  destruct (toUpperCase_validKey M K HK) as (HU & HUne & _).
  destruct (validKey_inv K HK) as [Hne _].
  assert (Hsmall' : Forall (fun u => u < 128) (List.concat (repeat K m))).
  { apply Forall_forall. intros u Hu. apply in_concat in Hu as (l & Hl & Hu).
    apply repeat_spec in Hl. subst l. rewrite Forall_forall in Hsmall. auto. }
  assert (Hne' : List.concat (repeat K m) <> []).
  { intros E. apply (f_equal (@List.length Z)) in E.
    rewrite length_concat_repeat in E. destruct K; [contradiction|].
    cbn [List.length] in E. lia. }
  assert (HU' : toUpperCase M (List.concat (repeat K m))
                = List.concat (repeat (toUpperCase M K) m)).
  { rewrite (toUpperCase_ascii M _ Hsmall'), HU. apply map_concat_repeat. }
  assert (HUne' : toUpperCase M (List.concat (repeat K m)) <> [])
    by (now apply toUpperCase_nonempty).
  exists (encryptText (toUpperCase M K) P 0), (decryptText (toUpperCase M K) P 0).
  split; [now apply encrypt_closed|]. split; [|split; [now apply decrypt_closed|]].
  - rewrite encrypt_closed by assumption. f_equal. rewrite HU'.
    apply encryptText_ext. intros k Hk.
    apply keyShift_concat_repeat; (assumption || lia).
  - rewrite decrypt_closed by assumption. f_equal. rewrite HU'.
    apply decryptText_ext. intros k Hk.
    apply keyShift_concat_repeat; (assumption || lia).
Qed.

Lemma repeated_key_is_same_key_witness :
  validKey (str "Key") = true /\ (1 <= 3)%nat /\
  exists C T,
    encrypt excerptMapping (VString (str "Attack at dawn")) (VString (str "Key")) = Return C /\
    encrypt excerptMapping (VString (str "Attack at dawn"))
            (VString (List.concat (repeat (str "Key") 3))) = Return C /\
    decrypt excerptMapping (VString (str "Attack at dawn")) (VString (str "Key")) = Return T /\
    decrypt excerptMapping (VString (str "Attack at dawn"))
            (VString (List.concat (repeat (str "Key") 3))) = Return T.
Proof.
  split; [reflexivity|]. split; [lia|].
  apply (repeated_key_is_same_key excerptMapping (str "Attack at dawn") (str "Key") 3);
    [reflexivity | lia].
Defined.

(** ** Two keys, one after the other *)

Lemma shiftForward_compose (s1 s2 c : Z) :
  0 <= s1 <= 25 -> 0 <= s2 <= 25 -> isAsciiLetter c = true ->
  shiftForward s2 (shiftForward s1 c) = shiftForward ((s1 + s2) mod 26) c.
Proof.
  intros H1 H2 Hc. unfold shiftForward at 1.
  destruct (shiftForward_letter s1 c H1 Hc) as [_ ->].
  unfold shiftForward, fromCharCode. unfold isAsciiLetter in Hc.
  pose proof (Z.mod_pos_bound (s1 + s2) 26 ltac:(lia)) as Hs.
  destruct (isAsciiUpper c) eqn:Eu.
  - unfold isAsciiUpper in Eu.
    assert (0 <= Z.rem (c - 65 + s1) 26 < 26) by (apply Z.rem_bound_pos; lia).
    rewrite (Z.mod_small (Z.rem (c - 65 + s1) 26 + 65)) by lia.
    rewrite !Z.rem_mod_nonneg in * by lia.
    f_equal. Z.div_mod_to_equations. lia.
  - cbn [orb] in Hc. unfold isAsciiLower in Hc.
    assert (0 <= Z.rem (c - 97 + s1) 26 < 26) by (apply Z.rem_bound_pos; lia).
    rewrite (Z.mod_small (Z.rem (c - 97 + s1) 26 + 97)) by lia.
    rewrite !Z.rem_mod_nonneg in * by lia.
    f_equal. Z.div_mod_to_equations. lia.
Qed.

Lemma encryptText_commute (ku1 ku2 text : jsstring) :
  ku1 <> [] -> Forall (fun c => isAsciiUpper c = true) ku1 ->
  ku2 <> [] -> Forall (fun c => isAsciiUpper c = true) ku2 ->
  forall i j, 0 <= i -> 0 <= j ->
    encryptText ku2 (encryptText ku1 text i) j
    = encryptText ku1 (encryptText ku2 text j) i.
Proof.
  intros Hne1 Hall1 Hne2 Hall2.
  induction text as [|c rest IH]; intros i j Hi Hj; [reflexivity|].
  cbn [encryptText]. destruct (isAsciiLetter c) eqn:Ec.
  - pose proof (keyShift_bounds ku1 i Hne1 Hi Hall1) as Hs1.
    pose proof (keyShift_bounds ku2 j Hne2 Hj Hall2) as Hs2.
    cbn [encryptText].
    destruct (shiftForward_letter _ c Hs1 Ec) as [-> _].
    destruct (shiftForward_letter _ c Hs2 Ec) as [-> _].
    rewrite !shiftForward_compose by assumption.
    rewrite (Z.add_comm (keyShift ku2 j)). f_equal. apply IH; lia.
  - cbn [encryptText]. rewrite Ec. f_equal. now apply IH.
Qed.

(** X6: encryptions under two valid keys commute: encrypting under K1 and
    then under K2 returns the text that encrypting under K2 and then under
    K1 returns, whatever the lengths of the two keys. *)
Theorem encrypt_twice_commutes (M : CaseMapping) (P K1 K2 : jsstring) :
  validKey K1 = true ->
  validKey K2 = true ->
  exists C1 C2 C,
    encrypt M (VString P) (VString K1) = Return C1 /\
    encrypt M (VString P) (VString K2) = Return C2 /\
    encrypt M (VString C1) (VString K2) = Return C /\
    encrypt M (VString C2) (VString K1) = Return C.
Proof.
  intros HK1 HK2.
  destruct (toUpperCase_validKey M K1 HK1) as (_ & HU1 & Hall1).
  destruct (toUpperCase_validKey M K2 HK2) as (_ & HU2 & Hall2).
  destruct (validKey_inv K1 HK1) as [Hne1 _].
  destruct (validKey_inv K2 HK2) as [Hne2 _].
  exists (encryptText (toUpperCase M K1) P 0), (encryptText (toUpperCase M K2) P 0),
         (encryptText (toUpperCase M K2) (encryptText (toUpperCase M K1) P 0) 0).
  split; [now apply encrypt_closed|]. split; [now apply encrypt_closed|].
  split; [now apply encrypt_closed|].
  rewrite encrypt_closed by assumption. f_equal.
  symmetry. apply encryptText_commute; (assumption || lia).
Qed.

Lemma encrypt_twice_commutes_witness :
  validKey (str "Lime") = true /\ validKey (str "secret") = true /\
  exists C1 C2 C,
    encrypt excerptMapping (VString (str "Attack at dawn!")) (VString (str "Lime")) = Return C1 /\
    encrypt excerptMapping (VString (str "Attack at dawn!")) (VString (str "secret")) = Return C2 /\
    encrypt excerptMapping (VString C1) (VString (str "secret")) = Return C /\
    encrypt excerptMapping (VString C2) (VString (str "Lime")) = Return C.
Proof.
  split; [reflexivity|]. split; [reflexivity|].
  apply (encrypt_twice_commutes excerptMapping (str "Attack at dawn!")
           (str "Lime") (str "secret")); reflexivity.
Defined.

(** ** Decryption is encryption under the complementary key *)

Lemma shiftBackward_as_forward (s c : Z) :
  0 <= s <= 25 -> isAsciiLetter c = true ->
  shiftBackward s c = shiftForward ((26 - s) mod 26) c.
Proof.
  intros Hs Hc. unfold shiftBackward, shiftForward, fromCharCode.
  unfold isAsciiLetter in Hc.
  pose proof (Z.mod_pos_bound (26 - s) 26 ltac:(lia)) as Hb.
  destruct (isAsciiUpper c) eqn:Eu.
  - unfold isAsciiUpper in Eu. rewrite !Z.rem_mod_nonneg by lia.
    f_equal. Z.div_mod_to_equations. lia.
  - cbn [orb] in Hc. unfold isAsciiLower in Hc. rewrite !Z.rem_mod_nonneg by lia.
    f_equal. Z.div_mod_to_equations. lia.
Qed.

Lemma keyShift_map (f : Z -> Z) (ku : jsstring) (i : Z) :
  ku <> [] -> 0 <= i ->
  keyShift (map f ku) i = f (keyShift ku i + 65) - 65.
Proof.
  intros Hne Hi. unfold keyShift, jsLength. rewrite length_map.
  assert (Hlen : 0 < Z.of_nat (List.length ku))
    by (destruct ku; [contradiction | cbn [List.length]; lia]).
  pose proof (Z.rem_bound_pos i _ Hi Hlen) as [Hlo Hhi].
  rewrite (nth_indep (map f ku) 0 (f 0)) by (rewrite length_map; lia).
  rewrite map_nth. do 2 f_equal. lia.
Qed.

Lemma inverseKey_upper (K : jsstring) :
  Forall (fun c => isAsciiLetter c = true) K ->
  Forall (fun c => isAsciiUpper c = true) (inverseKey K) /\
  map asciiUpper (inverseKey K) = inverseKey K.
Proof.
  intros H. unfold inverseKey.
  assert (Hup : Forall (fun c => isAsciiUpper c = true)
                       (map (fun c => (26 - (asciiUpper c - 65)) mod 26 + 65) K)).
  { apply Forall_map. eapply Forall_impl; [|exact H]. intros c Hc.
    pose proof (Z.mod_pos_bound (26 - (asciiUpper c - 65)) 26 ltac:(lia)).
    unfold isAsciiUpper. lia. }
  split; [exact Hup|].
  rewrite <- (map_id (map _ K)) at 2. apply map_ext_in. intros c Hc.
  rewrite Forall_forall in Hup. specialize (Hup c Hc).
  unfold asciiUpper, isAsciiLower. unfold isAsciiUpper in Hup.
  destruct ((97 <=? c) && (c <=? 122)) eqn:E; lia.
Qed.

(** X7: decrypting under a valid key K is encrypting under its complementary
    key, the key whose letters stand for the shifts 26 - k (mod 26): that key
    is valid, and decrypt(C, K) and encrypt(C, inverseKey(K)) return one
    text. *)
Theorem decrypt_is_encrypt_with_inverse_key (M : CaseMapping) (C K : jsstring) :
  validKey K = true ->
  validKey (inverseKey K) = true /\
  exists P,
    decrypt M (VString C) (VString K) = Return P /\
    encrypt M (VString C) (VString (inverseKey K)) = Return P.
Proof.
  intros HK.
  destruct (toUpperCase_validKey M K HK) as (HU & HUne & Hall).
  destruct (validKey_inv K HK) as [Hne Hletters].
  destruct (inverseKey_upper K Hletters) as [Hinv Hfix].
  assert (Hne' : inverseKey K <> []) by (now apply map_nonempty).
  assert (HK' : validKey (inverseKey K) = true).
  { unfold validKey. rewrite (jsLength_nonzero _ Hne'). cbn [negb andb].
    apply forallb_forall. intros c Hc. rewrite Forall_forall in Hinv.
    unfold isAsciiLetter. now rewrite (Hinv c Hc). }
  split; [exact HK'|].
  destruct (toUpperCase_validKey M (inverseKey K) HK') as (HU' & HUne' & Hall').
  exists (decryptText (toUpperCase M K) C 0).
  split; [now apply decrypt_closed|].
  rewrite encrypt_closed by assumption. f_equal.
  rewrite HU', Hfix.
  assert (E : inverseKey K
              = map (fun c => (26 - (c - 65)) mod 26 + 65) (toUpperCase M K))
    by (rewrite HU, map_map; reflexivity).
  rewrite E.
  assert (Hgen : forall text i, 0 <= i ->
    encryptText (map (fun c => (26 - (c - 65)) mod 26 + 65) (toUpperCase M K)) text i
    = decryptText (toUpperCase M K) text i).
  { induction text as [|c rest IH]; intros i Hi; [reflexivity|].
    cbn [encryptText decryptText]. destruct (isAsciiLetter c) eqn:Ec.
    - pose proof (keyShift_bounds (toUpperCase M K) i HUne Hi Hall) as Hs.
      rewrite keyShift_map by assumption.
      rewrite shiftBackward_as_forward by assumption.
      rewrite IH by lia. do 2 f_equal.
      replace (keyShift (toUpperCase M K) i + 65 - 65)
        with (keyShift (toUpperCase M K) i) by lia.
      pose proof (Z.mod_pos_bound (26 - keyShift (toUpperCase M K) i) 26 ltac:(lia)).
      lia.
    - now rewrite IH. }
  apply Hgen. lia.
Qed.

Lemma decrypt_is_encrypt_with_inverse_key_witness :
  validKey (str "Key") = true /\
  inverseKey (str "Key") = str "QWC" /\
  exists P,
    decrypt excerptMapping (VString (str "Rijvs, Uyvjn!")) (VString (str "Key")) = Return P /\
    encrypt excerptMapping (VString (str "Rijvs, Uyvjn!")) (VString (str "QWC")) = Return P.
Proof.
  split; [reflexivity|]. split; [reflexivity|].
  destruct (decrypt_is_encrypt_with_inverse_key excerptMapping
              (str "Rijvs, Uyvjn!") (str "Key") eq_refl) as [_ H].
  exact H.
Defined.

(** ** Texts in several pieces *)

Lemma letterCount_nonneg (s : jsstring) : 0 <= letterCount s.
Proof. unfold letterCount, jsLength. lia. Qed.

Lemma keyShift_period (ku : jsstring) (m k : Z) :
  ku <> [] -> 0 <= m -> 0 <= k -> m mod jsLength ku = 0 ->
  keyShift ku (m + k) = keyShift ku k.
Proof.
  intros Hne Hm Hk Hmod. unfold keyShift.
  assert (Hlen : 0 < jsLength ku)
    by (unfold jsLength; destruct ku; [contradiction | cbn [List.length]; lia]).
  rewrite !Z.rem_mod_nonneg by lia.
  rewrite <- Z.add_mod_idemp_l, Hmod by lia. reflexivity.
Qed.

(** X8: under a valid key, when the first piece of a text holds a number of
    letters that is a multiple of the length of the key, the encryption of
    the whole is the encryption of the first piece followed by the
    encryption of the rest. *)
Theorem encrypt_piecewise (M : CaseMapping) (P1 P2 K : jsstring) :
  validKey K = true ->
  letterCount P1 mod jsLength K = 0 ->
  exists C1 C2,
    encrypt M (VString P1) (VString K) = Return C1 /\
    encrypt M (VString P2) (VString K) = Return C2 /\
    encrypt M (VString (P1 ++ P2)) (VString K) = Return (C1 ++ C2).
Proof.
  intros HK Hmod.
  destruct (toUpperCase_validKey M K HK) as (HU & HUne & _).
  destruct (validKey_inv K HK) as [Hne _].
  exists (encryptText (toUpperCase M K) P1 0), (encryptText (toUpperCase M K) P2 0).
  split; [now apply encrypt_closed|]. split; [now apply encrypt_closed|].
  rewrite encrypt_closed by assumption. f_equal.
  rewrite encryptText_app. f_equal. apply encryptText_ext. intros k Hk.
  rewrite !Z.add_0_l. apply keyShift_period; try (assumption || lia).
  - apply letterCount_nonneg.
  - rewrite HU. unfold jsLength in *. now rewrite length_map.
Qed.

Lemma encrypt_piecewise_witness :
  validKey (str "Key") = true /\
  letterCount (str "Hello, W") mod jsLength (str "Key") = 0 /\
  exists C1 C2,
    encrypt excerptMapping (VString (str "Hello, W")) (VString (str "Key")) = Return C1 /\
    encrypt excerptMapping (VString (str "orld!")) (VString (str "Key")) = Return C2 /\
    encrypt excerptMapping (VString (str "Hello, W" ++ str "orld!")) (VString (str "Key"))
    = Return (C1 ++ C2).
Proof.
  split; [reflexivity|]. split; [reflexivity|].
  apply (encrypt_piecewise excerptMapping (str "Hello, W") (str "orld!") (str "Key"));
    reflexivity.
Defined.

(** ** verify: errors, and what a true answer means *)

(** X9: verify throws exactly when one of its three arguments is not a string
    (a TypeError, whatever the others are) or when all are strings and the
    key is empty (the validation error of encrypt); in every other case it
    returns a boolean. *)
Theorem verify_throws_iff (M : CaseMapping) (P C K : value) :
  (isString P && isString C && isString K = false ->
   verify M P C K = Throw (JsTypeError "All parameters must be strings")) /\
  (isString P && isString C = true -> K = VString [] ->
   verify M P C K = Throw (JsError "Key must be a non-empty string")) /\
  ((exists e, verify M P C K = Throw e)
   <-> (isString P && isString C && isString K = false \/ K = VString [])).
Proof.
  assert (Hok : forall p c k, k <> [] ->
            exists b, verify M (VString p) (VString c) (VString k) = Return b).
  { intros p c k Hk. unfold verify.
    rewrite encrypt_closed by (try apply toUpperCase_nonempty; assumption).
    eexists. reflexivity. }
  split; [|split].
  - intros H. destruct P, C, K; try discriminate H; reflexivity.
  - intros H ->. destruct P, C; try discriminate H; reflexivity.
  - split.
    + intros [e He].
      destruct P as [| | | |p|], C as [| | | |c|], K as [| | | |k|]; cbn; auto.
      destruct k as [|u k]; auto.
      destruct (Hok p c (u :: k)) as [b Hb]; [discriminate|].
      rewrite Hb in He. discriminate He.
    + intros [H | ->].
      * destruct P, C, K; try discriminate H; eexists; reflexivity.
      * destruct P, C; eexists; reflexivity.
Qed.

Lemma verify_throws_iff_witness :
  verify excerptMapping (VString (str "HELLO")) (VNumber 123) (VString (str "KEY"))
  = Throw (JsTypeError "All parameters must be strings") /\
  verify excerptMapping (VString (str "HELLO")) (VString (str "RIJVS")) (VString (str ""))
  = Throw (JsError "Key must be a non-empty string").
Proof.
  split.
  - destruct (verify_throws_iff excerptMapping (VString (str "HELLO")) (VNumber 123)
                                (VString (str "KEY"))) as (H & _).
    apply H. reflexivity.
  - destruct (verify_throws_iff excerptMapping (VString (str "HELLO"))
                                (VString (str "RIJVS")) (VString (str ""))) as (_ & H & _).
    apply H; reflexivity.
Defined.

Lemma strictEqual_eq (a b : jsstring) : strictEqual a b = true <-> a = b.
Proof.
  split; [|intros ->; apply strictEqual_refl].
  revert b. induction a as [|x a IH]; intros [|y b] H; try discriminate; [reflexivity|].
  cbn in H. apply andb_true_iff in H as [Hxy H]. apply Z.eqb_eq in Hxy.
  f_equal; [exact Hxy | now apply IH].
Qed.

Lemma flat_map_flat_map {A B C} (f : B -> list C) (g : A -> list B) (l : list A) :
  flat_map f (flat_map g l) = flat_map (fun x => flat_map f (g x)) l.
Proof.
  induction l as [|x l IH]; [reflexivity|].
  cbn [flat_map]. now rewrite flat_map_app, IH.
Qed.

Lemma sameOrSameCase_surrogates (x y : Z) :
  sameOrSameCase x y ->
  isLeadSurrogate x = isLeadSurrogate y /\
  isTrailSurrogate x = isTrailSurrogate y /\
  (isLeadSurrogate x = true \/ isTrailSurrogate x = true -> x = y).
Proof.
  intros [-> | (Hx & Hy & _)]; [auto|].
  apply isAsciiLetter_small in Hx, Hy.
  unfold isLeadSurrogate, isTrailSurrogate. repeat split; lia.
Qed.

(** The uppercase image of a character decides it among the characters of
    its own case. *)
Lemma upper_units_cancel (M : CaseMapping) (x y : Z) (ra rb : jsstring) :
  sameOrSameCase x y ->
  codePointsToString (toUppercaseCP M x) ++ ra
  = codePointsToString (toUppercaseCP M y) ++ rb ->
  x = y /\ ra = rb.
Proof.
  intros [-> | (Hx & Hy & Hcase)] H.
  - split; [reflexivity|]. now apply app_inv_head in H.
  - pose proof (isAsciiLetter_small x Hx) as Hsx.
    pose proof (isAsciiLetter_small y Hy) as Hsy.
    unfold toUppercaseCP in H.
    destruct (Z.ltb_spec x 128); [|lia]. destruct (Z.ltb_spec y 128); [|lia].
    cbn [codePointsToString flat_map app] in H. unfold codePointToUnits in H.
    pose proof (asciiUpper_small x Hsx). pose proof (asciiUpper_small y Hsy).
    destruct (Z.leb_spec (asciiUpper x) 0xFFFF); [|lia].
    destruct (Z.leb_spec (asciiUpper y) 0xFFFF); [|lia].
    cbn [app] in H. injection H as Hup Hr. split; [|exact Hr].
    unfold isAsciiLetter in Hx, Hy. unfold asciiUpper in Hup.
    unfold isAsciiUpper, isAsciiLower in *.
    destruct ((97 <=? x) && (x <=? 122)) eqn:Ex;
      destruct ((97 <=? y) && (y <=? 122)) eqn:Ey; lia.
Qed.

Lemma toUpperCase_injective_same_case (M : CaseMapping) (n : nat) :
  forall a b, (List.length a <= n)%nat -> Forall2 sameOrSameCase a b ->
    toUpperCase M a = toUpperCase M b -> a = b.
Proof.
  unfold toUpperCase, codePointsToString.
  induction n as [|n IH]; intros a b Hlen Hab.
  - destruct a; [|cbn in Hlen; lia]. inversion Hab. reflexivity.
  - destruct Hab as [|x y a b Hxy Hab]; [reflexivity|].
    cbn [List.length] in Hlen.
    destruct Hab as [|x' y' a b Hxy' Hab].
    + cbn [stringToCodePoints flat_map]. rewrite !app_nil_r. intros H.
      destruct (upper_units_cancel M x y [] [] Hxy) as [-> _];
        [unfold codePointsToString; now rewrite !app_nil_r | reflexivity].
    + destruct (sameOrSameCase_surrogates x y Hxy) as (Hl & _ & Hx).
      destruct (sameOrSameCase_surrogates x' y' Hxy') as (_ & Ht & Hx').
      cbn [stringToCodePoints List.length] in *. rewrite <- Hl, <- Ht.
      destruct (isLeadSurrogate x) eqn:El; destruct (isTrailSurrogate x') eqn:Et;
        cbn [andb flat_map]; rewrite !flat_map_app; intros H.
      * rewrite <- (Hx (or_introl eq_refl)), <- (Hx' (or_intror eq_refl)) in *.
        apply app_inv_head in H. do 2 f_equal. apply IH; [lia | exact Hab | exact H].
      * destruct (upper_units_cancel M x y _ _ Hxy H) as [-> Hr]. f_equal.
        apply (IH (x' :: a) (y' :: b)); [cbn; lia | now constructor | exact Hr].
      * destruct (upper_units_cancel M x y _ _ Hxy H) as [-> Hr]. f_equal.
        apply (IH (x' :: a) (y' :: b)); [cbn; lia | now constructor | exact Hr].
      * destruct (upper_units_cancel M x y _ _ Hxy H) as [-> Hr]. f_equal.
        apply (IH (x' :: a) (y' :: b)); [cbn; lia | now constructor | exact Hr].
Qed.

Lemma encryptText_same_case (ku ku' text : jsstring) :
  ku <> [] -> Forall (fun c => isAsciiUpper c = true) ku ->
  ku' <> [] -> Forall (fun c => isAsciiUpper c = true) ku' ->
  forall i j, 0 <= i -> 0 <= j ->
    Forall2 sameOrSameCase (encryptText ku text i) (encryptText ku' text j).
Proof.
  intros Hne Hall Hne' Hall'.
  induction text as [|c rest IH]; intros i j Hi Hj; [constructor|].
  cbn [encryptText]. destruct (isAsciiLetter c) eqn:Ec.
  - constructor; [|apply IH; lia]. right.
    destruct (shiftForward_letter _ c (keyShift_bounds ku i Hne Hi Hall) Ec) as [H1 H2].
    destruct (shiftForward_letter _ c (keyShift_bounds ku' j Hne' Hj Hall') Ec) as [H3 H4].
    repeat split; congruence.
  - constructor; [now left | now apply IH].
Qed.

(** X10: the comparison without case brings no false agreement between
    keys: for valid keys K and K2, verify(P, encrypt(P, K), K2) is true
    exactly when K2 encrypts P to the very text K encrypts it to. *)
Theorem verify_other_key (M : CaseMapping) (P K K2 : jsstring) :
  validKey K = true ->
  validKey K2 = true ->
  exists E E2,
    encrypt M (VString P) (VString K) = Return E /\
    encrypt M (VString P) (VString K2) = Return E2 /\
    (verify M (VString P) (VString E) (VString K2) = Return true <-> E2 = E) /\
    (verify M (VString P) (VString E) (VString K2) = Return false <-> E2 <> E).
Proof.
  intros HK HK2.
  destruct (toUpperCase_validKey M K HK) as (_ & HU & Hall).
  destruct (toUpperCase_validKey M K2 HK2) as (_ & HU2 & Hall2).
  destruct (validKey_inv K HK) as [Hne _].
  destruct (validKey_inv K2 HK2) as [Hne2 _].
  set (E := encryptText (toUpperCase M K) P 0).
  set (E2 := encryptText (toUpperCase M K2) P 0).
  exists E, E2.
  split; [now apply encrypt_closed|]. split; [now apply encrypt_closed|].
  assert (Hv : verify M (VString P) (VString E) (VString K2)
               = Return (strictEqual (toUpperCase M E2) (toUpperCase M E))).
  { unfold verify. now rewrite encrypt_closed by assumption. }
  assert (Hiff : strictEqual (toUpperCase M E2) (toUpperCase M E) = true <-> E2 = E).
  { rewrite strictEqual_eq. split; [|now intros ->].
    apply (toUpperCase_injective_same_case M (List.length E2) E2 E (le_n _)).
    apply encryptText_same_case; (assumption || lia). }
  rewrite Hv. split.
  - rewrite <- Hiff. split; [now intros [= ->] | now intros ->].
  - rewrite <- Hiff.
    destruct (strictEqual (toUpperCase M E2) (toUpperCase M E));
      split; congruence.
Qed.

Lemma verify_other_key_witness :
  validKey (str "SECRET") = true /\ validKey (str "WRONGKEY") = true /\
  verify excerptMapping (VString (str "HELLOWORLD")) (VString (str "ZINCSPGVNU"))
         (VString (str "WRONGKEY")) = Return false.
Proof.
  split; [reflexivity|]. split; [reflexivity|].
  destruct (verify_other_key excerptMapping (str "HELLOWORLD") (str "SECRET")
                             (str "WRONGKEY") eq_refl eq_refl)
    as (E & E2 & HE & HE2 & _ & Hfalse).
  injection HE as <-. injection HE2 as <-.
  apply Hfalse. discriminate.
Defined.

(** ** bruteForce: candidates that cannot be keys, and the key that is there *)

Lemma decrypt_usable (M : CaseMapping) (c : jsstring) (w : value) :
  (usableKey w = true ->
   exists k, w = VString k /\ k <> [] /\
             decrypt M (VString c) w = Return (decryptText (toUpperCase M k) c 0)) /\
  (usableKey w = false -> exists e, decrypt M (VString c) w = Throw e).
Proof.
  split; intros Hw.
  - destruct w as [| | | |k|]; try discriminate Hw. cbn [usableKey] in Hw.
    assert (Hk : k <> []) by (intros ->; discriminate Hw).
    exists k. split; [reflexivity|]. split; [exact Hk|].
    apply decrypt_closed; [exact Hk | now apply toUpperCase_nonempty].
  - destruct w as [| | | |k|]; try (eexists; reflexivity).
    cbn [usableKey] in Hw. destruct k; [eexists; reflexivity | discriminate Hw].
Qed.

(** What [forEach] collects, whatever the candidates are: one record for
    each candidate that is a non-empty string, in their order. *)
Lemma tryWord_any (M : CaseMapping) (D : Doubles) (c : jsstring)
      (words : list value) :
  forall results,
  exists tried,
    fold_left (tryWord M D c) words results = results ++ tried /\
    map key tried = filter usableKey words /\
    Forall (fun r => decrypt M (VString c) (key r) = Return (plaintext r) /\
                     score r = calculateTextScore M D (plaintext r)) tried.
Proof.
  induction words as [|w words IH]; intros results.
  - exists []. split; [now rewrite app_nil_r|]. split; [reflexivity | constructor].
  - cbn [fold_left filter]. unfold tryWord at 2.
    destruct (usableKey w) eqn:Hw.
    + destruct (proj1 (decrypt_usable M c w) Hw) as (k & -> & Hk & Hdec).
      rewrite Hdec.
      destruct (IH (results ++
        [{| key := VString k;
            plaintext := decryptText (toUpperCase M k) c 0;
            score := calculateTextScore M D (decryptText (toUpperCase M k) c 0) |}]))
        as (tried & Hfold & Hkeys & Hrec).
      eexists (_ :: tried). split; [rewrite Hfold; now rewrite <- app_assoc|].
      split; [cbn [map key]; now rewrite Hkeys|].
      constructor; [cbn; auto | exact Hrec].
    + destruct (proj2 (decrypt_usable M c w) Hw) as [e He]. rewrite He.
      apply IH.
Qed.

(** X11: bruteForce throws exactly when the ciphertext is not a string or is
    empty, never because of a candidate.  Otherwise it returns one record
    for each candidate that is a non-empty string, skipping every other
    candidate, and each record holds the decryption under its key and the
    score of that decryption. *)
Theorem bruteForce_skips_bad_candidates (M : CaseMapping) (D : Doubles)
        (ciphertext : value) (words : list value) :
  ((exists e, bruteForce M D ciphertext words = Throw e)
   <-> (isString ciphertext = false \/ ciphertext = VString [])) /\
  (forall c, ciphertext = VString c -> c <> [] ->
     let wordsToTry := if jsLength words >? 0 then words else defaultWords in
     exists results,
       bruteForce M D ciphertext words = Return results /\
       Permutation (map key results) (filter usableKey wordsToTry) /\
       Forall (fun r => decrypt M (VString c) (key r) = Return (plaintext r) /\
                        score r = calculateTextScore M D (plaintext r)) results).
Proof.
  assert (Hrun : forall c, c <> [] ->
    let wordsToTry := if jsLength words >? 0 then words else defaultWords in
    exists results,
      bruteForce M D (VString c) words = Return results /\
      Permutation (map key results) (filter usableKey wordsToTry) /\
      Forall (fun r => decrypt M (VString c) (key r) = Return (plaintext r) /\
                       score r = calculateTextScore M D (plaintext r)) results).
  { intros c Hc wordsToTry.
    destruct (tryWord_any M D c wordsToTry []) as (tried & Hfold & Hkeys & Hrec).
    cbn [app] in Hfold.
    exists (arraySort (byScoreDescending D) tried). split; [|split].
    - unfold bruteForce. rewrite (jsLength_nonzero c Hc).
      fold wordsToTry. now rewrite Hfold.
    - rewrite <- Hkeys. apply Permutation_map. apply arraySort_perm.
    - eapply Permutation_Forall; [symmetry; apply arraySort_perm | exact Hrec]. }
  split.
  - split.
    + intros [e He]. destruct ciphertext as [| | | |c|]; cbn; auto.
      destruct c as [|u c]; auto.
      destruct (Hrun (u :: c)) as (results & Hres & _); [discriminate|].
      rewrite Hres in He. discriminate He.
    + intros [H | ->].
      * destruct ciphertext; try discriminate H; eexists; reflexivity.
      * eexists; reflexivity.
  - intros c -> Hc. now apply Hrun.
Qed.

Lemma bruteForce_skips_bad_candidates_witness :
  exists results,
    bruteForce excerptMapping exactHundredths (VString (str "RIJVSUYVJN"))
               [VString (str ""); VNumber 7; VString (str "KEY"); VNull]
    = Return results /\
    Permutation (map key results) [VString (str "KEY")].
Proof.
  destruct (bruteForce_skips_bad_candidates excerptMapping exactHundredths
              (VString (str "RIJVSUYVJN"))
              [VString (str ""); VNumber 7; VString (str "KEY"); VNull]) as [_ H].
  destruct (H (str "RIJVSUYVJN") eq_refl ltac:(discriminate))
    as (results & Hrun & Hperm & _).
  exists results. split; [exact Hrun | exact Hperm].
Defined.

(** X12: when the key that made a ciphertext is among the candidates,
    bruteForce returns a record with that key and the plaintext: for a
    non-empty P and a valid key K, bruteForce(encrypt(P, K), words) holds
    {key: K, plaintext: P} whenever words holds K. *)
Theorem bruteForce_finds_listed_key (M : CaseMapping) (D : Doubles)
        (P K : jsstring) (words : list value) :
  validKey K = true ->
  P <> [] ->
  In (VString K) words ->
  exists C results r,
    encrypt M (VString P) (VString K) = Return C /\
    bruteForce M D (VString C) words = Return results /\
    In r results /\ key r = VString K /\ plaintext r = P.
Proof.
  intros HK HP Hin.
  destruct (toUpperCase_validKey M K HK) as (_ & HU & Hall).
  destruct (validKey_inv K HK) as [Hne _].
  set (C := encryptText (toUpperCase M K) P 0).
  assert (HC : C <> []).
  { intros E. apply (f_equal (@List.length Z)) in E. unfold C in E.
    rewrite encryptText_length in E. destruct P; [contradiction | discriminate]. }
  assert (Hwords : (jsLength words >? 0) = true).
  { destruct words; [contradiction|]. apply Z.gtb_lt.
    unfold jsLength. cbn [List.length]. lia. }
  destruct (tryWord_any M D C words []) as (tried & Hfold & Hkeys & Hrec).
  cbn [app] in Hfold.
  assert (Hk : In (VString K) (map key tried)).
  { rewrite Hkeys. apply filter_In. split; [exact Hin|].
    cbn [usableKey]. now rewrite (jsLength_nonzero K Hne). }
  apply in_map_iff in Hk as (r & Hkey & Hr).
  exists C, (arraySort (byScoreDescending D) tried), r.
  split; [now apply encrypt_closed|]. split; [|split; [|split; [exact Hkey|]]].
  - unfold bruteForce. rewrite (jsLength_nonzero C HC), Hwords. now rewrite Hfold.
  - eapply Permutation_in; [symmetry; apply arraySort_perm | exact Hr].
  - rewrite Forall_forall in Hrec. destruct (Hrec r Hr) as [Hdec _].
    rewrite Hkey, decrypt_closed in Hdec by assumption.
    injection Hdec as <-. unfold C.
    now rewrite decryptText_encryptText by (assumption || lia).
Qed.

Lemma bruteForce_finds_listed_key_witness :
  validKey (str "Lime") = true /\
  exists C results r,
    encrypt excerptMapping (VString (str "Attack at dawn!")) (VString (str "Lime")) = Return C /\
    bruteForce excerptMapping exactHundredths (VString C)
               [VString (str "KEY"); VString (str "Lime"); VString (str "SECRET")]
    = Return results /\
    In r results /\ key r = VString (str "Lime") /\ plaintext r = str "Attack at dawn!".
Proof.
  split; [reflexivity|].
  apply (bruteForce_finds_listed_key excerptMapping exactHundredths
           (str "Attack at dawn!") (str "Lime")
           [VString (str "KEY"); VString (str "Lime"); VString (str "SECRET")]);
    [reflexivity | discriminate | right; left; reflexivity].
Defined.

(** ** calculateTextScore *)

Lemma score_fold_letters (D : Doubles) (f : Z -> number D) (t : jsstring) :
  forall acc,
    fold_left (fun score char =>
                 if isAsciiUpper char then plus D score (f char) else score)
              (map asciiUpper t) acc
    = fold_left (fun score char =>
                   if isAsciiUpper char then plus D score (f char) else score)
                (map asciiUpper (filter isAsciiLetter t)) acc.
Proof.
  induction t as [|c t IH]; intros acc; [reflexivity|].
  cbn [map filter fold_left].
  assert (E : isAsciiUpper (asciiUpper c) = isAsciiLetter c).
  { unfold isAsciiLetter, asciiUpper, isAsciiUpper, isAsciiLower.
    destruct ((97 <=? c) && (c <=? 122)) eqn:E1; lia. }
  destruct (isAsciiLetter c) eqn:Ec; rewrite E.
  - cbn [map fold_left]. rewrite E. apply IH.
  - apply IH.
Qed.

(** X13: calculateTextScore looks at the letters only and not at their case:
    two texts that differ only in the case of letters have one score, and an
    ASCII text has the score of its letters alone, which is 0 when it has
    none. *)
Theorem score_ignores_case_and_nonletters (M : CaseMapping) (D : Doubles)
        (a b : jsstring) :
  (equalModuloCase a b = true ->
   calculateTextScore M D a = calculateTextScore M D b) /\
  (Forall (fun u => u < 128) a ->
   calculateTextScore M D a = calculateTextScore M D (filter isAsciiLetter a)) /\
  (Forall (fun u => u < 128) a -> letterCount a = 0 ->
   calculateTextScore M D a = zero D).
Proof.
  assert (Hletters : Forall (fun u => u < 128) a ->
            calculateTextScore M D a = calculateTextScore M D (filter isAsciiLetter a)).
  { intros Ha. unfold calculateTextScore.
    rewrite (toUpperCase_ascii M a Ha).
    rewrite (toUpperCase_ascii M (filter isAsciiLetter a))
      by (apply Forall_forall; intros u Hu; apply filter_In in Hu as [Hu _];
          rewrite Forall_forall in Ha; auto).
    apply score_fold_letters. }
  split; [|split].
  - intros Hab. unfold calculateTextScore.
    now rewrite (toUpperCase_modulo_case M a b Hab).
  - exact Hletters.
  - intros Ha Hcount. rewrite (Hletters Ha).
    unfold letterCount, jsLength in Hcount.
    destruct (filter isAsciiLetter a); [reflexivity | cbn [List.length] in Hcount; lia].
Qed.

Lemma score_ignores_case_and_nonletters_witness :
  equalModuloCase (str "Hello, World!") (str "hELLO, wORLD!") = true /\
  calculateTextScore excerptMapping exactHundredths (str "Hello, World!")
  = calculateTextScore excerptMapping exactHundredths (str "hELLO, wORLD!") /\
  calculateTextScore excerptMapping exactHundredths (str "Hello, World!")
  = calculateTextScore excerptMapping exactHundredths (str "HelloWorld") /\
  calculateTextScore excerptMapping exactHundredths (str "12:30, 7/8!") = 0.
Proof.
  split; [reflexivity|].
  destruct (score_ignores_case_and_nonletters excerptMapping exactHundredths
              (str "Hello, World!") (str "hELLO, wORLD!")) as (Hcase & Hlet & _).
  destruct (score_ignores_case_and_nonletters excerptMapping exactHundredths
              (str "12:30, 7/8!") []) as (_ & _ & Hzero).
  split; [apply Hcase; reflexivity|]. split.
  - apply Hlet. repeat constructor.
  - apply Hzero; [repeat constructor | reflexivity].
Defined.

(** ** getDivisors on its own *)

Lemma divides_iff (k d : Z) : divides k d = true <-> 1 <= k /\ (k | d).
Proof.
  unfold divides. rewrite andb_true_iff, Z.leb_le, Z.eqb_eq. split.
  - intros [Hk Hmod]. split; [exact Hk|]. apply Z.mod_divide; [lia | exact Hmod].
  - intros [Hk Hdiv]. split; [exact Hk|]. apply Z.mod_divide; [lia | exact Hdiv].
Qed.

Lemma last_of_ascending (l : list Z) (x : Z) :
  In x l -> (forall y, In y l -> y <= x) -> StronglySorted Z.lt l -> last l 0 = x.
Proof.
  intros Hin Hmax Hs. induction Hs as [|a l Hl IH Ha]; [contradiction|].
  destruct l as [|b l'].
  - destruct Hin as [-> | []]. reflexivity.
  - change (last (a :: b :: l') 0) with (last (b :: l') 0). apply IH.
    + destruct Hin as [-> | Hin]; [|exact Hin]. exfalso.
      inversion Ha as [|? ? Hab _]; subst.
      specialize (Hmax b (or_intror (or_introl eq_refl))). lia.
    + intros y Hy. apply Hmax. now right.
Qed.

(** X14: getDivisors(d) is the list of the positive divisors of d, each once
    and in ascending order, from 1 to d itself, when d is a positive
    integer; it is empty when d is zero or negative. *)
Theorem getDivisors_lists_the_divisors (d : Z) :
  (d <= 0 -> getDivisors d = []) /\
  (1 <= d ->
   StronglySorted Z.lt (getDivisors d) /\
   (forall k, In k (getDivisors d) <-> 1 <= k /\ (k | d)) /\
   hd_error (getDivisors d) = Some 1 /\
   last (getDivisors d) 0 = d).
Proof.
  split.
  - intros Hd. unfold getDivisors.
    assert (Z.sqrt d = 0) as ->.
    { destruct (Z.eq_dec d 0) as [-> | Hne]; [reflexivity | apply Z.sqrt_neg; lia]. }
    reflexivity.
  - intros Hd.
    assert (Hin : forall k, In k (getDivisors d) <-> 1 <= k /\ (k | d))
      by (intros k; rewrite getDivisors_In by exact Hd; apply divides_iff).
    pose proof (getDivisors_strictly_ascending d Hd) as Hs.
    split; [exact Hs|]. split; [exact Hin|]. split.
    + destruct (getDivisors_head d Hd) as [rest ->]. reflexivity.
    + apply last_of_ascending; [| |exact Hs].
      * apply Hin. split; [exact Hd | apply Z.divide_refl].
      * intros y Hy. apply Hin in Hy as [Hy Hdiv].
        apply Z.divide_pos_le; [lia | exact Hdiv].
Qed.

Lemma getDivisors_lists_the_divisors_witness :
  getDivisors (-4) = [] /\
  StronglySorted Z.lt (getDivisors 36) /\
  (In 9 (getDivisors 36) <-> 1 <= 9 /\ (9 | 36)) /\
  hd_error (getDivisors 36) = Some 1 /\
  last (getDivisors 36) 0 = 36.
Proof.
  destruct (getDivisors_lists_the_divisors (-4)) as [Hneg _].
  destruct (getDivisors_lists_the_divisors 36) as [_ Hpos].
  destruct (Hpos ltac:(lia)) as (Hs & Hin & Hhd & Hlast).
  split; [apply Hneg; lia|]. split; [exact Hs|]. split; [apply Hin|].
  split; [exact Hhd | exact Hlast].
Defined.

(** ** The [sequences] map of analyze *)

Lemma mapGet_some_split (m : list (jsstring * list Z)) (k : jsstring) (v0 : list Z) :
  mapGet strictEqual m k = Some v0 ->
  exists m1 m2,
    m = m1 ++ (k, v0) :: m2 /\
    forall v, mapSet strictEqual m k v = m1 ++ (k, v) :: m2.
Proof.
  induction m as [|[k' v'] m IH]; [discriminate|]. cbn [mapGet mapSet].
  destruct (strictEqual k' k) eqn:E.
  - apply strictEqual_eq in E. subst k'. intros [= ->].
    exists [], m. split; [reflexivity | reflexivity].
  - intros H. destruct (IH H) as (m1 & m2 & -> & Hset).
    exists ((k', v') :: m1), m2. split; [reflexivity|].
    intros v. cbn [app]. now rewrite Hset.
Qed.

Lemma mapGet_none_append (m : list (jsstring * list Z)) (k : jsstring) :
  mapGet strictEqual m k = None ->
  ~ In k (map fst m) /\
  forall v, mapSet strictEqual m k v = m ++ [(k, v)].
Proof.
  induction m as [|[k' v'] m IH]; [intros _; split; [intros [] | reflexivity]|].
  cbn [mapGet mapSet]. destruct (strictEqual k' k) eqn:E; [discriminate|].
  intros H. destruct (IH H) as [Hnotin Hset]. split.
  - cbn [map fst In]. intros [-> | Hin]; [|contradiction].
    rewrite strictEqual_refl in E. discriminate.
  - intros v. cbn [app]. now rewrite Hset.
Qed.

Lemma positionsCount_app (a b : list (jsstring * list Z)) :
  positionsCount (a ++ b) = positionsCount a + positionsCount b.
Proof.
  unfold positionsCount. induction a as [|e a IH]; [reflexivity|].
  cbn [app fold_right]. rewrite IH. lia.
Qed.

Lemma sorted_push (i : Z) (positions : list Z) :
  StronglySorted Z.lt positions -> Forall (fun p => p < i) positions ->
  StronglySorted Z.lt (positions ++ [i]).
Proof.
  intros Hs Hb. induction Hs as [|p l Hl IH Hp]; [repeat constructor|].
  inversion Hb; subst. cbn. constructor; [now apply IH|].
  apply Forall_app. split; [exact Hp | repeat constructor; assumption].
Qed.

Lemma recordSequence_upTo (W : jsstring) (n i : Z)
      (sequences : list (jsstring * list Z)) :
  0 <= i ->
  sequencesUpTo W n i sequences ->
  sequencesUpTo W n (i + 1) (recordSequence W n sequences i).
Proof.
  intros Hi (Hent & Hnd & Hcov & Hcount). unfold recordSequence.
  remember (substring W i (i + n)) as sq eqn:Hsq.
  assert (Hent' : Forall (fun entry =>
            snd entry <> [] /\ StronglySorted Z.lt (snd entry) /\
            Forall (fun p => 0 <= p < i + 1 /\ substring W p (p + n) = fst entry)
                   (snd entry)) sequences).
  { eapply Forall_impl; [|exact Hent]. intros e (H1 & H2 & H3).
    split; [exact H1|]. split; [exact H2|].
    eapply Forall_impl; [|exact H3]. cbn. intros p [Hp Hs]. split; [lia | exact Hs]. }
  destruct (mapGet strictEqual sequences sq) as [positions|] eqn:E.
  - destruct (mapGet_some_split sequences sq positions E) as (m1 & m2 & Hm & Hset).
    rewrite Hset. subst sequences.
    apply Forall_app in Hent as [_ Hold].
    apply Forall_inv in Hold as (Hne & Hs & Hp).
    apply Forall_app in Hent' as [H1 H2].
    pose proof (Forall_inv_tail H2) as H2'.
    apply Forall_inv in H2 as (_ & _ & Hp').
    cbn [snd fst] in *.
    split; [|split; [|split]].
    + apply Forall_app. split; [exact H1|]. constructor; [|exact H2']. cbn [snd fst].
      split; [destruct positions; discriminate|]. split.
      * apply sorted_push; [exact Hs|].
        eapply Forall_impl; [|exact Hp]. cbn. lia.
      * apply Forall_app. split; [exact Hp'|].
        constructor; [split; [lia | now rewrite Hsq] | constructor].
    + rewrite map_app in *. exact Hnd.
    + intros j Hj. rewrite map_app in *. cbn [map fst] in *.
      destruct (Z.eq_dec j i) as [-> | Hne'].
      * apply in_or_app. right. now left.
      * apply Hcov. lia.
    + rewrite positionsCount_app in *. unfold positionsCount in *.
      cbn [fold_right snd] in *. unfold jsLength in *. rewrite length_app.
      cbn [List.length]. lia.
  - destruct (mapGet_none_append sequences sq E) as [Hnotin Hset].
    rewrite Hset. split; [|split; [|split]].
    + apply Forall_app. split; [exact Hent'|].
      constructor; [|constructor]. cbn [snd fst].
      split; [discriminate|]. split; [repeat constructor|].
      constructor; [split; [lia | now rewrite Hsq] | constructor].
    + rewrite map_app. cbn [map fst].
      apply NoDup_app; [exact Hnd | repeat constructor; intros [] |].
      intros x Hx [<- | []]. contradiction.
    + intros j Hj. rewrite map_app. cbn [map fst].
      destruct (Z.eq_dec j i) as [-> | Hne'].
      * apply in_or_app. right. now left.
      * apply in_or_app. left. apply Hcov. lia.
    + rewrite positionsCount_app, Hcount. unfold positionsCount.
      cbn [fold_right snd]. unfold jsLength. cbn [List.length]. lia.
Qed.

(** When the loop ends the map describes all the windows. *)
Lemma findSequences_upTo (W : jsstring) (n : Z) :
  sequencesUpTo W n (windowCount W n) (findSequences W n).
Proof.
  unfold findSequences, windowCount.
  assert (H : forall k : nat,
    sequencesUpTo W n (Z.of_nat k)
                  (fold_left (recordSequence W n) (range 0 (Z.of_nat k - 1)) [])).
  { induction k as [|k IH].
    - rewrite range_empty by lia. cbn [fold_left].
      split; [constructor|]. split; [constructor|]. split; [intros i Hi; lia | reflexivity].
    - replace (Z.of_nat (S k) - 1) with (0 + Z.of_nat k) by lia.
      rewrite range_snoc, fold_left_app. cbn [fold_left].
      replace (Z.of_nat (S k)) with (0 + Z.of_nat k + 1) by lia.
      apply recordSequence_upTo; [lia|].
      replace (0 + Z.of_nat k - 1) with (Z.of_nat k - 1) by lia.
      replace (0 + Z.of_nat k) with (Z.of_nat k) by lia.
      exact IH. }
  specialize (H (Z.to_nat (jsLength W - n + 1))).
  replace (Z.of_nat (Z.to_nat (jsLength W - n + 1))) with (Z.max 0 (jsLength W - n + 1))
    in H by lia.
  destruct (Z.ltb_spec (jsLength W - n + 1) 0) as [Hneg | Hpos].
  - rewrite range_empty by lia. rewrite range_empty in H by lia. exact H.
  - replace (Z.max 0 (jsLength W - n + 1) - 1) with (jsLength W - n) in H by lia.
    exact H.
Qed.

Lemma gaps_In (positions : list Z) (d : Z) :
  StronglySorted Z.lt positions ->
  In d (gaps positions) ->
  exists a b, In a positions /\ In b positions /\ a < b /\ d = b - a.
Proof.
  induction 1 as [|a l Hl IH Ha]; [intros []|].
  destruct l as [|b l']; [intros []|]. cbn [gaps].
  intros [<- | Hin].
  - exists a, b. inversion Ha; subst.
    split; [now left|]. split; [right; now left|]. split; [assumption | reflexivity].
  - destruct (IH Hin) as (x & y & Hx & Hy & Hxy & Hd).
    exists x, y. split; [now right|]. split; [now right|]. auto.
Qed.

Lemma gaps_length (positions : list Z) :
  positions <> [] -> jsLength (gaps positions) = jsLength positions - 1.
Proof.
  induction positions as [|a l IH]; [contradiction|]. intros _.
  destruct l as [|b l']; [reflexivity|].
  change (gaps (a :: b :: l')) with ((b - a) :: gaps (b :: l')).
  unfold jsLength in *. cbn [List.length] in *.
  specialize (IH ltac:(discriminate)). lia.
Qed.

Lemma repeatDistances_count (sequences : list (jsstring * list Z)) :
  Forall (fun entry => snd entry <> []) sequences ->
  jsLength (repeatDistances sequences)
  = positionsCount sequences - jsLength sequences.
Proof.
  unfold repeatDistances, positionsCount.
  induction 1 as [|e l He _ IH]; [reflexivity|].
  cbn [flat_map fold_right]. unfold jsLength in *.
  rewrite length_app. cbn [List.length].
  pose proof (gaps_length (snd e) He) as Hg. unfold jsLength in Hg.
  destruct (Z.gtb_spec (Z.of_nat (List.length (snd e))) 1) as [Hgt | Hle].
  - lia.
  - destruct (snd e) as [|a [|b l']]; [contradiction | cbn [List.length] in *; lia |].
    cbn [List.length] in Hle. lia.
Qed.

(** ** analyze: what the distances and the counts stand for *)

(** Every distance separates two windows that hold the same sequence. *)
Lemma repeatDistances_sound (W : jsstring) (n : Z) :
  Forall (fun d => 1 <= d /\
                   exists i, 0 <= i /\ i + d < windowCount W n /\
                             substring W i (i + n) = substring W (i + d) (i + d + n))
         (repeatDistances (findSequences W n)).
Proof.
  destruct (findSequences_upTo W n) as (Hent & _).
  apply Forall_forall. intros d Hd. unfold repeatDistances in Hd.
  apply in_flat_map in Hd as (e & He & Hd).
  rewrite Forall_forall in Hent. destruct (Hent e He) as (_ & Hs & Hp).
  destruct (jsLength (snd e) >? 1); [|contradiction].
  destruct (gaps_In (snd e) d Hs Hd) as (a & b & Ha & Hb & Hab & ->).
  rewrite Forall_forall in Hp.
  destruct (Hp a Ha) as [Ha' Hsa]. destruct (Hp b Hb) as [Hb' Hsb].
  split; [lia|]. exists a. split; [lia|]. split; [lia|].
  replace (a + (b - a)) with b by lia. congruence.
Qed.

Lemma Forall_firstn {A} (Q : A -> Prop) (k : nat) (l : list A) :
  Forall Q l -> Forall Q (firstn k l).
Proof.
  intros H. apply Forall_forall. intros x Hx. apply In_firstn in Hx.
  rewrite Forall_forall in H. auto.
Qed.

(** X15: every distance analyze reports is a true repeat distance: it is at
    least 1, and the working sequence (the uppercased text stripped to A-Z)
    holds the same sequence of sequenceLength letters at two offsets that
    far apart. *)
Theorem analyze_distances_are_repeats (M : CaseMapping) (c : jsstring) (n : Z)
        (r : AnalysisResult) :
  analyze M (VString c) n = Return r ->
  let W := lettersOnly M c in
  Forall (fun d => 1 <= d /\
                   exists i, 0 <= i /\ i + d < windowCount W n /\
                             substring W i (i + n) = substring W (i + d) (i + d + n))
         (distances r).
Proof.
  intros Hrun W.
  destruct (analyze_returns M c n r Hrun) as (_ & _ & Hdist & _).
  cbv zeta in Hdist. rewrite Hdist. apply Forall_firstn. apply repeatDistances_sound.
Qed.

Lemma analyze_distances_are_repeats_witness :
  exists r,
    analyze excerptMapping (VString (str "abc-xyz-ABC!")) 3 = Return r /\
    Forall (fun d => 1 <= d /\
                     exists i, 0 <= i /\
                               i + d < windowCount (lettersOnly excerptMapping (str "abc-xyz-ABC!")) 3 /\
                               substring (lettersOnly excerptMapping (str "abc-xyz-ABC!")) i (i + 3)
                               = substring (lettersOnly excerptMapping (str "abc-xyz-ABC!"))
                                           (i + d) (i + d + 3))
           (distances r).
Proof.
  destruct (analyze excerptMapping (VString (str "abc-xyz-ABC!")) 3)
    as [r|e] eqn:Hrun; [|vm_compute in Hrun; discriminate Hrun].
  exists r. split; [reflexivity|].
  apply (analyze_distances_are_repeats excerptMapping (str "abc-xyz-ABC!") 3 r Hrun).
Defined.

(** X16: repetitionCount is the number of windows less the number of
    distinct sequences seen in them: the [sequences] map has one entry for
    each distinct sequence of sequenceLength letters of the working
    sequence, and every window beyond the first of its sequence counts
    once.  So the count is never negative and stays below the number of
    windows. *)
Theorem analyze_counts_repeated_windows (M : CaseMapping) (c : jsstring) (n : Z)
        (r : AnalysisResult) :
  analyze M (VString c) n = Return r ->
  let W := lettersOnly M c in
  let sequences := findSequences W n in
  repetitionCount r = windowCount W n - jsLength sequences /\
  NoDup (map fst sequences) /\
  (forall s, In s (map fst sequences)
             <-> exists i, 0 <= i < windowCount W n /\ s = substring W i (i + n)) /\
  0 <= repetitionCount r /\
  (1 <= windowCount W n -> repetitionCount r < windowCount W n).
Proof.
  intros Hrun W sequences.
  destruct (analyze_returns M c n r Hrun) as (_ & _ & _ & _ & Hrep).
  cbv zeta in Hrep. fold W in Hrep. fold sequences in Hrep.
  destruct (findSequences_upTo W n) as (Hent & Hnd & Hcov & Hcount).
  fold sequences in Hent, Hnd, Hcov, Hcount.
  assert (Hne : Forall (fun entry => snd entry <> []) sequences)
    by (eapply Forall_impl; [|exact Hent]; now intros e (H & _)).
  assert (Hformula : repetitionCount r = windowCount W n - jsLength sequences)
    by (rewrite Hrep, (repeatDistances_count sequences Hne), Hcount; reflexivity).
  split; [exact Hformula|]. split; [exact Hnd|]. split; [|split].
  - intros s. split.
    + intros Hs. apply in_map_iff in Hs as ([k positions] & <- & He).
      rewrite Forall_forall in Hent. destruct (Hent _ He) as (Hpos & _ & Hp).
      cbn [fst snd] in *. destruct positions as [|p rest]; [contradiction|].
      apply Forall_inv in Hp as [Hp Hs]. exists p. split; [exact Hp | now symmetry].
    + intros (i & Hi & ->). now apply Hcov.
  - rewrite Hrep. unfold jsLength. lia.
  - intros Hw. rewrite Hformula.
    specialize (Hcov 0 ltac:(lia)).
    destruct sequences; [contradiction|]. unfold jsLength. cbn [List.length]. lia.
Qed.

Lemma analyze_counts_repeated_windows_witness :
  exists r,
    analyze excerptMapping (VString (str "ABCABCAB")) 3 = Return r /\
    repetitionCount r
    = windowCount (lettersOnly excerptMapping (str "ABCABCAB")) 3
      - jsLength (findSequences (lettersOnly excerptMapping (str "ABCABCAB")) 3) /\
    repetitionCount r = 3.
Proof.
  destruct (analyze excerptMapping (VString (str "ABCABCAB")) 3)
    as [r|e] eqn:Hrun; [|vm_compute in Hrun; discriminate Hrun].
  exists r. split; [reflexivity|].
  destruct (analyze_counts_repeated_windows excerptMapping (str "ABCABCAB") 3 r Hrun)
    as (Hformula & _).
  split; [exact Hformula|].
  vm_compute in Hrun. injection Hrun as <-. reflexivity.
Defined.

Lemma NoDup_firstn {A} (k : nat) (l : list A) : NoDup l -> NoDup (firstn k l).
Proof.
  intros H. rewrite <- (firstn_skipn k l) in H. now apply NoDup_app_remove_r in H.
Qed.

(** X17: the shape of an analysis: keyLengths holds at most five lengths, all
    different, each at least 1 and below the number of windows; distances
    holds at most ten distances and never more than repetitionCount; and
    keyLengths is empty, and likelyKeyLength null, exactly when
    repetitionCount is 0. *)
Theorem analyze_result_shape (M : CaseMapping) (c : jsstring) (n : Z)
        (r : AnalysisResult) :
  analyze M (VString c) n = Return r ->
  (List.length (keyLengths r) <= 5)%nat /\
  NoDup (keyLengths r) /\
  Forall (fun k => 1 <= k < windowCount (lettersOnly M c) n) (keyLengths r) /\
  (List.length (distances r) <= 10)%nat /\
  jsLength (distances r) <= repetitionCount r /\
  (keyLengths r = [] <-> repetitionCount r = 0) /\
  (likelyKeyLength r = None <-> repetitionCount r = 0).
Proof.
  intros Hrun.
  destruct (analyze_returns M c n r Hrun) as (_ & Hkeys & Hdist & Hlikely & Hrep).
  cbv zeta in *.
  pose proof (repeatDistances_positive (lettersOnly M c) n) as Hpos.
  pose proof (repeatDistances_sound (lettersOnly M c) n) as Hsound.
  set (ds := repeatDistances (findSequences (lettersOnly M c) n)) in *.
  assert (Hperm : Permutation (arraySort (byTallyDescending ds) (insertionOrder ds))
                              (insertionOrder ds)) by apply arraySort_perm.
  assert (Hempty : keyLengths r = [] <-> repetitionCount r = 0).
  { rewrite Hkeys, Hrep. destruct ds as [|d ds'] eqn:Eds.
    - split; reflexivity.
    - destruct (ranked_head_one d ds' Hpos) as [rest ->].
      split; [discriminate|]. unfold jsLength. cbn [List.length]. lia. }
  assert (Hbound : Forall (fun k => 1 <= k < windowCount (lettersOnly M c) n)
                          (keyLengths r)).
  { rewrite Hkeys. apply Forall_firstn. apply Forall_forall. intros k Hk.
    apply (Permutation_in _ Hperm) in Hk.
    apply (insertionOrder_In ds k Hpos) in Hk as (d & Hd & Hk).
    apply divides_iff in Hk as [Hk Hdiv].
    rewrite Forall_forall in Hsound. destruct (Hsound d Hd) as (Hd1 & i & Hi & Hw & _).
    pose proof (Z.divide_pos_le k d ltac:(lia) Hdiv). lia. }
  split; [rewrite Hkeys; apply firstn_le_length|].
  split; [rewrite Hkeys; apply NoDup_firstn;
          eapply Permutation_NoDup; [symmetry; exact Hperm|];
          apply NoDup_firstOccurrences|].
  split; [exact Hbound|].
  split; [rewrite Hdist; apply firstn_le_length|]. split; [|split; [exact Hempty|]].
  - rewrite Hdist, Hrep. unfold jsLength. rewrite length_firstn. lia.
  - rewrite Hlikely, <- Hempty. clear Hkeys Hempty Hlikely.
    destruct (keyLengths r) as [|k l].
    + split; reflexivity.
    + apply Forall_inv in Hbound. cbn [hd_error orNull].
      destruct (Z.eqb_spec k 0); [lia|]. split; discriminate.
Qed.

Lemma analyze_result_shape_witness :
  exists r,
    analyze excerptMapping (VString (str "To be, or not to be: to be!")) 2 = Return r /\
    (List.length (keyLengths r) <= 5)%nat /\
    NoDup (keyLengths r) /\
    (List.length (distances r) <= 10)%nat.
Proof.
  destruct (analyze excerptMapping (VString (str "To be, or not to be: to be!")) 2)
    as [r|e] eqn:Hrun; [|vm_compute in Hrun; discriminate Hrun].
  exists r. split; [reflexivity|].
  destruct (analyze_result_shape excerptMapping (str "To be, or not to be: to be!") 2 r Hrun)
    as (H1 & H2 & _ & H4 & _).
  split; [exact H1|]. split; [exact H2 | exact H4].
Defined.

(** ** analyze on ASCII text: the case of letters and the other characters *)

Lemma equalModuloCase_length (a b : jsstring) :
  equalModuloCase a b = true -> List.length a = List.length b.
Proof.
  revert b. induction a as [|x a IH]; intros [|y b] H; try discriminate; [reflexivity|].
  cbn [equalModuloCase] in H. apply andb_true_iff in H as [_ H].
  cbn [List.length]. f_equal. now apply IH.
Qed.

Lemma lettersOnly_ascii_text (M : CaseMapping) (a : jsstring) :
  Forall (fun u => u < 128) a ->
  lettersOnly M a = map asciiUpper (filter isAsciiLetter a).
Proof.
  intros H. unfold lettersOnly. rewrite (toUpperCase_ascii M a H). clear H.
  induction a as [|x a IH]; [reflexivity|]. cbn [map filter].
  assert (E : isAsciiUpper (asciiUpper x) = isAsciiLetter x).
  { unfold isAsciiLetter, asciiUpper, isAsciiUpper, isAsciiLower.
    destruct ((97 <=? x) && (x <=? 122)) eqn:E1; lia. }
  rewrite E. destruct (isAsciiLetter x); cbn [map]; now rewrite IH.
Qed.

Lemma lettersOnly_capitals (M : CaseMapping) (a : jsstring) :
  Forall (fun c => isAsciiUpper c = true) a -> lettersOnly M a = a.
Proof.
  intros H.
  rewrite lettersOnly_ascii_text
    by (eapply Forall_impl; [|exact H]; intros c Hc; unfold isAsciiUpper in Hc; lia).
  induction H as [|x a Hx _ IH]; [reflexivity|]. cbn [filter].
  assert (Hl : isAsciiLetter x = true) by (unfold isAsciiLetter; now rewrite Hx).
  rewrite Hl. cbn [map]. rewrite IH. f_equal.
  unfold asciiUpper, isAsciiLower. unfold isAsciiUpper in Hx.
  destruct ((97 <=? x) && (x <=? 122)) eqn:E; lia.
Qed.

(** X18: of the letters A-Z and a-z analyze does not read the case, and of an
    ASCII text it reads the letters only.  Two texts that differ only in the
    case of letters A-Z and a-z, every other character being the same, have
    the same analysis; and an ASCII text (all code units below 128) with at
    least sequenceLength letters has the analysis of its letters alone,
    written in capitals, which is a result and no error.  Neither part
    extends to characters outside ASCII, whose uppercase form may hold
    letters A-Z. *)
Theorem analyze_ignores_ascii_case_and_nonletters (M : CaseMapping) (a b : jsstring) (n : Z) :
  (equalModuloCase a b = true ->
   analyze M (VString a) n = analyze M (VString b) n) /\
  (Forall (fun u => u < 128) a -> n <= letterCount a ->
   analyze M (VString a) n
   = analyze M (VString (map asciiUpper (filter isAsciiLetter a))) n /\
   exists r, analyze M (VString a) n = Return r).
Proof.
  split.
  - intros Hab. unfold analyze, lettersOnly, jsLength.
    rewrite (equalModuloCase_length a b Hab).
    now rewrite (toUpperCase_modulo_case M a b Hab).
  - intros Ha Hn.
    assert (Hraw : n <= jsLength a).
    { unfold letterCount, jsLength in *.
      pose proof (filter_length_le isAsciiLetter a). lia. }
    assert (Hcap : Forall (fun c => isAsciiUpper c = true)
                          (map asciiUpper (filter isAsciiLetter a))).
    { apply Forall_map. apply Forall_forall. intros c Hc.
      apply filter_In in Hc as [_ Hc]. now apply asciiUpper_letter. }
    assert (Hraw' : n <= jsLength (map asciiUpper (filter isAsciiLetter a))).
    { unfold letterCount, jsLength in *. now rewrite length_map. }
    unfold analyze.
    destruct (Z.ltb_spec (jsLength a) n); [lia|].
    destruct (Z.ltb_spec (jsLength (map asciiUpper (filter isAsciiLetter a))) n); [lia|].
    rewrite (lettersOnly_capitals M _ Hcap), (lettersOnly_ascii_text M a Ha).
    split; [reflexivity | eexists; reflexivity].
Qed.

Lemma analyze_ignores_ascii_case_and_nonletters_witness :
  equalModuloCase (str "abc abc, abc") (str "ABC Abc, aBC") = true /\
  analyze excerptMapping (VString (str "abc abc, abc")) 3
  = analyze excerptMapping (VString (str "ABC Abc, aBC")) 3 /\
  analyze excerptMapping (VString (str "abc abc, abc")) 3
  = analyze excerptMapping (VString (str "ABCABCABC")) 3.
Proof.
  split; [reflexivity|].
  destruct (analyze_ignores_ascii_case_and_nonletters excerptMapping
              (str "abc abc, abc") (str "ABC Abc, aBC") 3) as [Hcase Hletters].
  split; [apply Hcase; reflexivity|].
  apply Hletters; [repeat constructor | vm_compute; discriminate].
Defined.

(** Outside A-Z and a-z the case of a letter can change the analysis: three
    capital sharp s (U+1E9E) lowercase to three sharp s (U+00DF); the former
    hold no letter A-Z after uppercasing and have the empty analysis, the
    latter uppercase to "SSSSSS", in which "SSS" stands at four offsets. *)
Example analyze_sharp_s_case_matters :
  toLowerCase excerptWithCapitalSharpS [0x1E9E; 0x1E9E; 0x1E9E] = [0xDF; 0xDF; 0xDF] /\
  analyze excerptWithCapitalSharpS (VString [0x1E9E; 0x1E9E; 0x1E9E]) 3
  = Return {| keyLengths := []; distances := [];
              likelyKeyLength := None; repetitionCount := 0 |} /\
  analyze excerptWithCapitalSharpS (VString [0xDF; 0xDF; 0xDF]) 3
  = Return {| keyLengths := [1]; distances := [1; 1; 1];
              likelyKeyLength := Some 1; repetitionCount := 3 |}.
Proof. repeat split. Qed.

(** ** generateKey *)

Lemma fold_left_append {A} (f : Z -> list A) (l : list Z) (acc : list A) :
  fold_left (fun key i => key ++ f i) l acc = acc ++ flat_map f l.
Proof.
  revert acc. induction l as [|x l IH]; intros acc.
  - now rewrite app_nil_r.
  - cbn [fold_left flat_map]. now rewrite IH, <- app_assoc.
Qed.

Lemma alphabet_charAt (j : Z) :
  0 <= j < 26 ->
  stringCharAt (str "ABCDEFGHIJKLMNOPQRSTUVWXYZ") j = [65 + j].
Proof.
  intros Hj.
  assert (H : forallb (fun j => match stringCharAt (str "ABCDEFGHIJKLMNOPQRSTUVWXYZ") j with
                               | [c] => c =? 65 + j
                               | _ => false
                               end) (range 0 25) = true) by (vm_compute; reflexivity).
  rewrite forallb_forall in H. specialize (H j (proj2 (In_range 0 25 j) ltac:(lia))).
  destruct (stringCharAt _ j) as [|c [|? ?]]; try discriminate.
  apply Z.eqb_eq in H. now subst.
Qed.

Lemma length_range (lo hi : Z) : jsLength (range lo hi) = Z.max 0 (hi - lo + 1).
Proof. unfold range, jsLength. rewrite length_map, length_seq. lia. Qed.

(** X19: generateKey(n) for an integer n of at least 1 returns a key of
    exactly n capitals A-Z, whatever the random draws are, and such a key is
    fit for use: what is encrypted under it decrypts to the plaintext.  A
    call without argument is generateKey(8); a length below 1, or a length
    that is no number, is rejected with an error. *)
Theorem generateKey_makes_valid_key (draw : nat -> Z) (length : value) :
  (forall k, 0 <= draw k < 26) ->
  (forall n, length = VNumber n -> 1 <= n ->
     exists key,
       generateKey draw length = Return key /\
       jsLength key = n /\
       Forall (fun c => isAsciiUpper c = true) key /\
       validKey key = true /\
       forall M P, exists C,
           encrypt M (VString P) (VString key) = Return C /\
           decrypt M (VString C) (VString key) = Return P) /\
  (forall n, length = VNumber n -> n < 1 ->
     generateKey draw length = Throw (JsError "Key length must be a positive number")) /\
  (length = VUndefined -> generateKey draw length = generateKey draw (VNumber 8)) /\
  (match length with VNumber _ | VUndefined => False | _ => True end ->
   generateKey draw length = Throw (JsError "Key length must be a positive number")).
Proof.
  intros Hdraw. split; [|split; [|split]].
  - intros n -> Hn. unfold generateKey.
    destruct (Z.ltb_spec n 1); [lia|].
    rewrite fold_left_append. cbn [app].
    set (key := flat_map (fun i => stringCharAt (str "ABCDEFGHIJKLMNOPQRSTUVWXYZ")
                                                (draw (Z.to_nat i))) (range 0 (n - 1))).
    assert (Hkey : key = map (fun i => 65 + draw (Z.to_nat i)) (range 0 (n - 1))).
    { unfold key. induction (range 0 (n - 1)) as [|i l IH]; [reflexivity|].
      cbn [flat_map map]. rewrite IH, alphabet_charAt by apply Hdraw. reflexivity. }
    assert (Hlen : jsLength key = n).
    { rewrite Hkey. unfold jsLength. rewrite length_map.
      pose proof (length_range 0 (n - 1)) as Hr. unfold jsLength in Hr. lia. }
    assert (Hup : Forall (fun c => isAsciiUpper c = true) key).
    { rewrite Hkey. apply Forall_map. apply Forall_forall. intros i _.
      pose proof (Hdraw (Z.to_nat i)). unfold isAsciiUpper. lia. }
    assert (Hvalid : validKey key = true).
    { unfold validKey. apply andb_true_iff. split.
      - rewrite Hlen. apply negb_true_iff, Z.eqb_neq. lia.
      - apply forallb_forall. intros c Hc. rewrite Forall_forall in Hup.
        unfold isAsciiLetter. now rewrite (Hup c Hc). }
    exists key. split; [reflexivity|]. split; [exact Hlen|].
    split; [exact Hup|]. split; [exact Hvalid|].
    intros M P.
    destruct (toUpperCase_validKey M key Hvalid) as (_ & HU & Hall).
    destruct (validKey_inv key Hvalid) as [Hne _].
    exists (encryptText (toUpperCase M key) P 0). split.
    + now apply encrypt_closed.
    + rewrite decrypt_closed by assumption.
      now rewrite decryptText_encryptText by (assumption || lia).
  - intros n -> Hn. unfold generateKey. destruct (Z.ltb_spec n 1); [reflexivity | lia].
  - intros ->. reflexivity.
  - intros H. destruct length; try contradiction; reflexivity.
Qed.

Lemma generateKey_makes_valid_key_witness :
  (forall k, 0 <= (fun k => Z.of_nat ((7 * k + 3) mod 26)) k < 26) /\
  exists key,
    generateKey (fun k => Z.of_nat ((7 * k + 3) mod 26)) (VNumber 10) = Return key /\
    jsLength key = 10 /\
    validKey key = true.
Proof.
  assert (Hdraw : forall k, 0 <= (fun k => Z.of_nat ((7 * k + 3) mod 26)) k < 26).
  { intros k. cbv beta. pose proof (Nat.mod_upper_bound (7 * k + 3) 26). lia. }
  split; [exact Hdraw|].
  destruct (generateKey_makes_valid_key (fun k => Z.of_nat ((7 * k + 3) mod 26))
                                        (VNumber 10) Hdraw) as (Hok & _).
  destruct (Hok 10 eq_refl ltac:(lia)) as (key & Hrun & Hlen & _ & Hvalid & _).
  exists key. split; [exact Hrun|]. split; [exact Hlen | exact Hvalid].
Defined.

(** ** Repetitions that survive encryption (the ground of the Kasiski test) *)

Lemma asciiUpper_isLetter (c : Z) : isAsciiLetter (asciiUpper c) = isAsciiLetter c.
Proof.
  unfold isAsciiLetter, asciiUpper, isAsciiUpper, isAsciiLower.
  destruct ((97 <=? c) && (c <=? 122)) eqn:E; lia.
Qed.

Lemma asciiUpper_shiftForward (s c : Z) :
  0 <= s <= 25 -> isAsciiLetter c = true ->
  asciiUpper (shiftForward s c) = shiftForward s (asciiUpper c).
Proof.
  intros Hs Hc. unfold isAsciiLetter in Hc.
  destruct (isAsciiUpper c) eqn:Eu.
  - assert (El : isAsciiLower c = false) by (unfold isAsciiUpper in Eu; unfold isAsciiLower; lia).
    assert (Hup : asciiUpper c = c) by (unfold asciiUpper; now rewrite El).
    rewrite Hup.
    destruct (shiftForward_letter s c Hs) as [_ Hu]; [unfold isAsciiLetter; now rewrite Eu|].
    rewrite Eu in Hu. unfold asciiUpper.
    assert (isAsciiLower (shiftForward s c) = false) as ->
      by (unfold isAsciiUpper in Hu; unfold isAsciiLower; lia).
    reflexivity.
  - cbn [orb] in Hc.
    assert (Hup : asciiUpper c = c - 32) by (unfold asciiUpper; now rewrite Hc).
    rewrite Hup.
    destruct (shiftForward_letter s c Hs) as [Hl Hu]; [unfold isAsciiLetter; now rewrite Eu, Hc|].
    rewrite Eu in Hu. unfold isAsciiLetter in Hl. rewrite Hu in Hl. cbn [orb] in Hl.
    unfold asciiUpper. rewrite Hl.
    unfold shiftForward, fromCharCode. rewrite Eu.
    unfold isAsciiLower in Hc.
    assert (isAsciiUpper (c - 32) = true) as -> by (unfold isAsciiUpper; lia).
    assert (0 <= Z.rem (c - 97 + s) 26 < 26) by (apply Z.rem_bound_pos; lia).
    replace (c - 32 - 65 + s) with (c - 97 + s) by lia.
    rewrite !Z.mod_small by lia. lia.
Qed.

Section ValidKeyText.
Variable ku : jsstring.
Hypothesis ku_nonempty : ku <> [].
Hypothesis ku_capitals : Forall (fun c => isAsciiUpper c = true) ku.

Lemma filter_encryptText (text : jsstring) :
  forall i, 0 <= i ->
    filter isAsciiLetter (encryptText ku text i)
    = encryptText ku (filter isAsciiLetter text) i.
Proof.
  induction text as [|c rest IH]; intros i Hi; [reflexivity|].
  cbn [encryptText filter]. destruct (isAsciiLetter c) eqn:Ec.
  - cbn [filter encryptText]. rewrite Ec.
    destruct (shiftForward_letter _ c (keyShift_bounds ku i ku_nonempty Hi ku_capitals) Ec)
      as [-> _].
    f_equal. apply IH. lia.
  - cbn [filter]. rewrite Ec. now apply IH.
Qed.

Lemma upper_encryptText (text : jsstring) :
  forall i, 0 <= i ->
    map asciiUpper (encryptText ku text i) = encryptText ku (map asciiUpper text) i.
Proof.
  induction text as [|c rest IH]; intros i Hi; [reflexivity|].
  cbn [encryptText map]. rewrite asciiUpper_isLetter.
  destruct (isAsciiLetter c) eqn:Ec; cbn [map].
  - rewrite asciiUpper_shiftForward
      by (apply keyShift_bounds || assumption; assumption).
    f_equal. apply IH. lia.
  - f_equal. now apply IH.
Qed.

Lemma encryptText_small (text : jsstring) :
  Forall (fun u => u < 128) text ->
  forall i, 0 <= i -> Forall (fun u => u < 128) (encryptText ku text i).
Proof.
  induction 1 as [|c rest Hc _ IH]; intros i Hi; [constructor|].
  cbn [encryptText]. destruct (isAsciiLetter c) eqn:Ec.
  - constructor; [|apply IH; lia].
    destruct (shiftForward_letter _ c (keyShift_bounds ku i ku_nonempty Hi ku_capitals) Ec)
      as [Hl _].
    now apply isAsciiLetter_small.
  - constructor; [exact Hc | now apply IH].
Qed.

Lemma firstn_encryptText (k : nat) (text : jsstring) :
  forall i, firstn k (encryptText ku text i) = encryptText ku (firstn k text) i.
Proof.
  revert k. induction text as [|c rest IH]; intros k i.
  - now rewrite !firstn_nil.
  - destruct k as [|k]; [reflexivity|].
    cbn [encryptText firstn]. destruct (isAsciiLetter c); cbn [firstn]; now rewrite IH.
Qed.

Lemma skipn_encryptText (k : nat) (text : jsstring) :
  Forall (fun c => isAsciiLetter c = true) text ->
  (k <= List.length text)%nat ->
  forall i, skipn k (encryptText ku text i)
            = encryptText ku (skipn k text) (i + Z.of_nat k).
Proof.
  intros Hall. revert k. induction Hall as [|c rest Hc _ IH]; intros k Hk i.
  - destruct k; cbn; [f_equal; lia | cbn in Hk; lia].
  - destruct k as [|k]; [cbn [skipn]; f_equal; lia|].
    cbn [encryptText]. rewrite Hc. cbn [skipn List.length] in *.
    rewrite IH by lia. f_equal. lia.
Qed.

(** A window of the encrypted letters is the encryption of the window, with
    the cursor at the offset of the window. *)
Lemma substring_encryptText (text : jsstring) (a b : Z) :
  Forall (fun c => isAsciiLetter c = true) text ->
  0 <= a <= b -> b <= jsLength text ->
  substring (encryptText ku text 0) a b = encryptText ku (substring text a b) a.
Proof.
  intros Hall Hab Hb. unfold substring, jsLength in *.
  rewrite encryptText_length.
  replace (Z.min (Z.min (Z.max a 0) (Z.of_nat (List.length text)))
                 (Z.min (Z.max b 0) (Z.of_nat (List.length text)))) with a by lia.
  replace (Z.max (Z.min (Z.max a 0) (Z.of_nat (List.length text)))
                 (Z.min (Z.max b 0) (Z.of_nat (List.length text)))) with b by lia.
  rewrite skipn_encryptText by (assumption || lia).
  rewrite firstn_encryptText. f_equal. lia.
Qed.
End ValidKeyText.

(** X20: a repetition in the plaintext at a distance that is a multiple of
    the length of the key is still there after encryption.  For an ASCII
    plaintext P and a valid key K, if the letters of P hold the same
    sequence of n letters at the offsets i and i + d, and the length of K
    divides d, then the letters of encrypt(P, K) hold one sequence at i and
    at i + d as well: the repetitions analyze looks for. *)
Theorem encrypt_keeps_aligned_repeats (M : CaseMapping) (P K : jsstring)
        (i d n : Z) :
  validKey K = true ->
  Forall (fun u => u < 128) P ->
  0 <= i -> 0 <= d -> 0 <= n ->
  i + d + n <= letterCount P ->
  d mod jsLength K = 0 ->
  substring (lettersOnly M P) i (i + n)
  = substring (lettersOnly M P) (i + d) (i + d + n) ->
  exists C,
    encrypt M (VString P) (VString K) = Return C /\
    substring (lettersOnly M C) i (i + n)
    = substring (lettersOnly M C) (i + d) (i + d + n).
Proof.
  intros HK HP Hi Hd Hn Hfit Hmod Hrep.
  destruct (toUpperCase_validKey M K HK) as (HU & HUne & Hall).
  destruct (validKey_inv K HK) as [Hne _].
  exists (encryptText (toUpperCase M K) P 0).
  split; [now apply encrypt_closed|].
  assert (HW : lettersOnly M (encryptText (toUpperCase M K) P 0)
               = encryptText (toUpperCase M K) (lettersOnly M P) 0).
  { rewrite (lettersOnly_ascii_text M P HP).
    rewrite lettersOnly_ascii_text by (apply encryptText_small; assumption || lia).
    rewrite filter_encryptText by (assumption || lia).
    apply upper_encryptText; assumption || lia. }
  assert (Hletters : Forall (fun c => isAsciiLetter c = true) (lettersOnly M P)).
  { rewrite (lettersOnly_ascii_text M P HP). apply Forall_map.
    apply Forall_forall. intros c Hc. apply filter_In in Hc as [_ Hc].
    now rewrite asciiUpper_isLetter. }
  assert (Hlen : jsLength (lettersOnly M P) = letterCount P)
    by (now apply lettersOnly_ascii).
  rewrite HW.
  rewrite !substring_encryptText by (assumption || lia).
  rewrite <- Hrep. apply encryptText_ext. intros k Hk.
  rewrite (Z.add_comm i d), <- Z.add_assoc. symmetry.
  apply keyShift_period; try (assumption || lia).
  rewrite HU. unfold jsLength in *. now rewrite length_map.
Qed.

Lemma encrypt_keeps_aligned_repeats_witness :
  validKey (str "Key") = true /\
  substring (lettersOnly excerptMapping (str "the cat, the dog")) 0 3
  = substring (lettersOnly excerptMapping (str "the cat, the dog")) 6 9 /\
  exists C,
    encrypt excerptMapping (VString (str "the cat, the dog")) (VString (str "Key"))
    = Return C /\
    substring (lettersOnly excerptMapping C) 0 3
    = substring (lettersOnly excerptMapping C) 6 9.
Proof.
  split; [reflexivity|]. split; [reflexivity|].
  apply (encrypt_keeps_aligned_repeats excerptMapping
           (str "the cat, the dog") (str "Key") 0 6 3);
    try reflexivity; try lia; try (vm_compute; discriminate).
  repeat constructor.
Defined.
